(** * Battery-constrained shortest paths: the solver, its indexed min-heap
      and the graph accessors it consumes.

    Shallow embedding of [backend/src/minheap.{h,cpp}], of the accessors of
    [backend/src/graph.cpp] that the solver calls, and of
    [dijkstraWithBattery] in [backend/src/dijkstra.cpp].

    Conventions of the embedding.
    - A C++ [int] is a [Z]; the two additions of the relaxation step wrap
      around at 32 bits ([int_add]); [/] on [int] is truncating division
      ([Z.quot]) where it is defined ([int_div_defined]); a division by
      zero, or of [INT_MIN] by [-1], is the outcome [Undefined].
    - A position in the heap vector is a [nat]: the code only ever builds
      positions from [heap.size()], [0], [(i - 1) / 2] for [i > 0] and
      [2 * i + 1], [2 * i + 2], none of which is negative.
    - [std::vector] is a [list]; an unchecked [v[i]] outside the vector is
      the outcome [Undefined].
    - [std::unordered_map] is a [gmap]; a read [m[k]] of an absent [int]
      key yields the value-initialised [0] ([map_at]); that such a read also
      creates the key is not observable, since the solver never iterates
      over its maps nor asks them for membership.
    - A [throw] is the outcome [Throw]; loops and recursion that are not
      structural take a [fuel] and answer [OutOfFuel] when it is spent. *)

From stdpp Require Import gmap list strings pretty.
From Stdlib Require Import ZArith Lia.

Local Open Scope Z_scope.

#[local] Set Warnings "-clear-no-such-hyp".

(** ** Outcomes of a call *)

Inductive exception : Type :=
| out_of_range (what : string)
| runtime_error (what : string)
| invalid_argument (what : string).

Inductive outcome (A : Type) : Type :=
| Return (a : A)
| Throw (e : exception)
| Undefined
| OutOfFuel.

Arguments Return {A} a.
Arguments Throw {A} e.
Arguments Undefined {A}.
Arguments OutOfFuel {A}.

#[global] Instance outcome_ret : MRet outcome := λ A a, Return a.

#[global] Instance outcome_bind : MBind outcome := λ A B f m,
  match m with
  | Return a => f a
  | Throw e => Throw e
  | Undefined => Undefined
  | OutOfFuel => OutOfFuel
  end.

(** Unchecked [v[i]] on a vector. *)
Definition vec_at {A : Type} (v : list A) (i : nat) : outcome A :=
  match v !! i with
  | Some a => Return a
  | None => Undefined
  end.

(** [m[k]] read on an [unordered_map<int, int>]. *)
Definition map_at (m : gmap Z Z) (k : Z) : Z := default 0 (m !! k).

(** ** 32-bit [int] *)

Definition INT_MAX : Z := 2147483647.
Definition INT_MIN : Z := -2147483648.

Definition wrap (z : Z) : Z := (z + 2 ^ 31) mod 2 ^ 32 - 2 ^ 31.

Definition int_add (a b : Z) : Z := wrap (a + b).

(** Whether [a / b] on [int] is defined: not for the divisor 0, and not
    for the one quotient that no [int] holds. *)
Definition int_div_defined (a b : Z) : bool :=
  negb (b =? 0) && negb ((a =? INT_MIN) && (b =? -1)).

(** ** minheap.h / minheap.cpp *)

Record HeapNode : Type := mkHeapNode { nodeId : Z; distance : Z }.

(** [HeapNode::operator>] *)
Definition gt (a b : HeapNode) : bool := distance b <? distance a.

Module MinHeap.

Record t : Type := mk {
  heap : list HeapNode;
  nodeToIndex : gmap Z nat
}.

(** [MinHeap::MinHeap()] *)
Definition new : t := mk [] ∅.

Definition isEmpty (h : t) : bool :=
  match heap h with [] => true | _ => false end.

Definition size (h : t) : nat := length (heap h).

Definition contains (h : t) (id : Z) : bool :=
  bool_decide (is_Some (nodeToIndex h !! id)).

Definition swapNodes (index1 index2 : nat) (h : t) : outcome t :=
  match heap h !! index1, heap h !! index2 with
  | Some temp, Some other =>
      (* heap[index1] = heap[index2]; heap[index2] = temp *)
      let hp := <[index2 := temp]> (<[index1 := other]> (heap h)) in
      n1 ← vec_at hp index1;
      n2 ← vec_at hp index2;
      Return (mk hp
                (<[nodeId n2 := index2]> (<[nodeId n1 := index1]> (nodeToIndex h))))
  | _, _ => Throw (out_of_range "Heap index out of range")
  end.

Fixpoint bubbleUp_rec (fuel : nat) (index : nat) (h : t) : outcome t :=
  match fuel with
  | O => OutOfFuel
  | S fuel' =>
      if (index =? 0)%nat then Return h
      else
        let parentIndex := ((index - 1) / 2)%nat in
        c ← vec_at (heap h) index;
        p ← vec_at (heap h) parentIndex;
        if gt c p then Return h
        else
          h' ← swapNodes index parentIndex h;
          bubbleUp_rec fuel' parentIndex h'
  end.

(** The recursion goes from [index] to its parent, so [index + 1] calls
    are always enough. *)
Definition bubbleUp (index : nat) (h : t) : outcome t :=
  bubbleUp_rec (S index) index h.

Fixpoint bubbleDown_rec (fuel : nat) (index : nat) (h : t) : outcome t :=
  match fuel with
  | O => OutOfFuel
  | S fuel' =>
      let leftChild := (2 * index + 1)%nat in
      let rightChild := (2 * index + 2)%nat in
      let smallest := index in
      smallest ←
        (if (leftChild <? length (heap h))%nat then
           l ← vec_at (heap h) leftChild;
           s ← vec_at (heap h) smallest;
           Return (if negb (gt l s) then leftChild else smallest)
         else Return smallest);
      smallest ←
        (if (rightChild <? length (heap h))%nat then
           r ← vec_at (heap h) rightChild;
           s ← vec_at (heap h) smallest;
           Return (if negb (gt r s) then rightChild else smallest)
         else Return smallest);
      if negb (smallest =? index)%nat then
        h' ← swapNodes index smallest h;
        bubbleDown_rec fuel' smallest h'
      else Return h
  end.

(** The recursion goes from [index] to one of its children, which lies
    inside the vector, so [heap.size() + 1] calls are always enough. *)
Definition bubbleDown (index : nat) (h : t) : outcome t :=
  bubbleDown_rec (S (length (heap h))) index h.

Definition decreaseKey (id : Z) (newDistance : Z) (h : t) : outcome t :=
  match nodeToIndex h !! id with
  | None => Throw (invalid_argument "Node not found in heap")
  | Some index =>
      n ← vec_at (heap h) index;
      if newDistance >=? distance n then Return h
      else
        bubbleUp index
          (mk (<[index := mkHeapNode (nodeId n) newDistance]> (heap h))
                     (nodeToIndex h))
  end.

Definition addNode (id : Z) (dist : Z) (h : t) : outcome t :=
  if contains h id then decreaseKey id dist h
  else
    let hp := heap h ++ [mkHeapNode id dist] in
    let newIndex := (length hp - 1)%nat in
    bubbleUp newIndex (mk hp (<[id := newIndex]> (nodeToIndex h))).

Definition deleteRoot (h : t) : outcome (HeapNode * t) :=
  if isEmpty h then Throw (runtime_error "Cannot delete from empty heap")
  else
    root ← vec_at (heap h) 0;
    if (length (heap h) =? 1)%nat then Return (root, mk [] ∅)
    else
      (* heap[0] = heap.back(); heap.pop_back() *)
      back ← vec_at (heap h) (length (heap h) - 1);
      let hp := take (length (heap h) - 1) (<[0%nat := back]> (heap h)) in
      (* nodeToIndex.erase(root.nodeId); nodeToIndex[heap[0].nodeId] = 0 *)
      first ← vec_at hp 0;
      let m := <[nodeId first := 0%nat]> (delete (nodeId root) (nodeToIndex h)) in
      h' ← bubbleDown 0 (mk hp m);
      Return (root, h').

Definition getDistance (h : t) (id : Z) : outcome Z :=
  match nodeToIndex h !! id with
  | None => Throw (invalid_argument "Node not found in heap")
  | Some index => n ← vec_at (heap h) index; Return (distance n)
  end.

Definition clear (h : t) : t := mk [] ∅.

End MinHeap.

(** ** graph.h / graph.cpp: the part the solver and its callers use

    [Node] keeps its identity only: the coordinates [x], [y] (doubles, used
    for drawing) and the graph's [name] are read by no function below. *)

Record Node : Type := mkNode { node_id : Z }.

Module Graph.

Record t : Type := mk {
  nodes : list Node;
  adjacencyList : gmap Z (list (Z * Z));   (* node -> [(neighbor, weight)] *)
  edgeWeights : gmap Z (gmap Z Z)          (* from -> (to -> weight) *)
}.

(** [Graph::Graph()] *)
Definition new : t := mk [] ∅ ∅.

(** [adjacencyList[k]] read: an absent key is created with an empty vector. *)
Definition adj_at (m : gmap Z (list (Z * Z))) (k : Z) : list (Z * Z) :=
  default [] (m !! k).

Definition hasNodeId (id : Z) (ns : list Node) : bool :=
  existsb (λ n, node_id n =? id) ns.

Definition addNode (id : Z) (g : t) : t :=
  if hasNodeId id (nodes g) then g   (* only the position may change *)
  else mk (nodes g ++ [mkNode id])
          (<[id := []]> (adjacencyList g))
          (edgeWeights g).

(** [edgeWeights[from][to] = weight] *)
Definition setEdgeWeight (from to weight : Z) (ew : gmap Z (gmap Z Z))
  : gmap Z (gmap Z Z) :=
  <[from := <[to := weight]> (default ∅ (ew !! from))]> ew.

(** The loop of [addEdge] over [adjacencyList[from]]: the first entry whose
    neighbor is [to] gets the new weight. *)
Fixpoint updateFirst (to weight : Z) (l : list (Z * Z)) : option (list (Z * Z)) :=
  match l with
  | [] => None
  | (n, w) :: l' =>
      if n =? to then Some ((n, weight) :: l')
      else cons (n, w) <$> updateFirst to weight l'
  end.

Definition addEdge (from to weight : Z) (g0 : t) : t :=
  let g := addNode to (addNode from g0) in
  match updateFirst to weight (adj_at (adjacencyList g) from) with
  | Some l =>
      mk (nodes g) (<[from := l]> (adjacencyList g))
         (setEdgeWeight from to weight (edgeWeights g))
  | None =>
      let adj1 := <[from := adj_at (adjacencyList g) from ++ [(to, weight)]]>
                    (adjacencyList g) in
      let adj2 := <[to := adj_at adj1 to ++ [(from, weight)]]> adj1 in
      mk (nodes g) adj2
         (setEdgeWeight to from weight
            (setEdgeWeight from to weight (edgeWeights g)))
  end.

Definition getNodes (g : t) : list Node := nodes g.

Definition getNeighbors (g : t) (node : Z) : list (Z * Z) :=
  match adjacencyList g !! node with
  | Some l => l
  | None => []
  end.

Definition getNodeCount (g : t) : Z := Z.of_nat (length (nodes g)).

Definition getNode (g : t) (id : Z) : outcome Node :=
  match find (λ n, bool_decide (node_id n = id)) (nodes g) with
  | Some n => Return n
  | None => Throw (out_of_range ("Node with ID " +:+ pretty id +:+ " not found"))
  end.

(** The loops of [removeEdge]: erase the first entry whose neighbor is
    [to], if there is one. *)
Fixpoint eraseFirst (to : Z) (l : list (Z * Z)) : list (Z * Z) :=
  match l with
  | [] => []
  | (n, w) :: l' => if n =? to then l' else (n, w) :: eraseFirst to l'
  end.

(** [edgeWeights[from].erase(to)] *)
Definition eraseEdgeWeight (from to : Z) (ew : gmap Z (gmap Z Z))
  : gmap Z (gmap Z Z) :=
  <[from := delete to (default ∅ (ew !! from))]> ew.

Definition removeEdge (from to : Z) (g : t) : t :=
  let adj1 := <[from := eraseFirst to (adj_at (adjacencyList g) from)]>
                (adjacencyList g) in
  let adj2 := <[to := eraseFirst from (adj_at adj1 to)]> adj1 in
  mk (nodes g) adj2
     (eraseEdgeWeight to from (eraseEdgeWeight from to (edgeWeights g))).

Definition getEdgeWeight (g : t) (from to : Z) : Z :=
  match edgeWeights g !! from with
  | Some m =>
      match m !! to with
      | Some w => w
      | None => -1
      end
  | None => -1   (* Indicate no edge exists *)
  end.

Definition hasEdge (g : t) (from to : Z) : bool :=
  negb (getEdgeWeight g from to =? -1).

Definition clear (g : t) : t := mk [] ∅ ∅.

Definition isEmpty (g : t) : bool :=
  match nodes g with [] => true | _ => false end.

End Graph.

(** ** dijkstra.cpp *)

(** A default-initialised [PathfindingResult] has an empty [path] and an
    empty [message]; its two [int] members hold no value until they are
    assigned, which is [None] here. *)
Record PathfindingResult : Type := mkResult {
  path : list Z;
  totalDistance : option Z;
  totalBatteryUsed : option Z;
  success : bool;
  message : string
}.

(** The locals of [dijkstraWithBattery]. *)
Record SolverState : Type := mkState {
  distances : gmap Z Z;
  batteryUsed : gmap Z Z;
  previous : gmap Z Z;
  minHeap : MinHeap.t
}.

(** "Initialize all nodes" *)
Definition initNode (st : SolverState) (node : Node) : SolverState :=
  let nodeId := node_id node in
  mkState (<[nodeId := INT_MAX]> (distances st))
          (<[nodeId := INT_MAX]> (batteryUsed st))
          (<[nodeId := -1]> (previous st))
          (minHeap st).

Definition initState (g : Graph.t) (source : Z) : outcome SolverState :=
  let st := foldl initNode (mkState ∅ ∅ ∅ MinHeap.new) (Graph.getNodes g) in
  h ← MinHeap.addNode source 0 (minHeap st);
  Return (mkState (<[source := 0]> (distances st))
                  (<[source := 0]> (batteryUsed st))
                  (previous st) h).

(** "Calculate battery consumption for this edge": the value of the
    local [batteryConsumption] where the division is defined; [relax]
    tests that it is before it uses the value. *)
Definition batteryConsumption (edgeWeight mileage : Z) : Z :=
  let c := Z.quot edgeWeight mileage in
  if c <? 1 then 1 else c.

(** The body of the loop over the neighbors of [currentNode]. *)
Definition relax (initialBattery mileage : Z) (currentNode : Z)
    (st : SolverState) (neighbor : Z * Z) : outcome SolverState :=
  let neighborNode := neighbor.1 in
  let edgeWeight := neighbor.2 in
  if negb (int_div_defined edgeWeight mileage) then Undefined else
  let newBatteryUsed :=
    int_add (map_at (batteryUsed st) currentNode)
            (batteryConsumption edgeWeight mileage) in
  let newDistance := int_add (map_at (distances st) currentNode) edgeWeight in
  if (newBatteryUsed <=? initialBattery)
     && (newDistance <? map_at (distances st) neighborNode) then
    h ← (if MinHeap.contains (minHeap st) neighborNode
         then MinHeap.decreaseKey neighborNode newDistance (minHeap st)
         else MinHeap.addNode neighborNode newDistance (minHeap st));
    Return (mkState (<[neighborNode := newDistance]> (distances st))
                    (<[neighborNode := newBatteryUsed]> (batteryUsed st))
                    (<[neighborNode := currentNode]> (previous st))
                    h)
  else Return st.

Fixpoint relaxAll (initialBattery mileage : Z) (currentNode : Z)
    (neighbors : list (Z * Z)) (st : SolverState) : outcome SolverState :=
  match neighbors with
  | [] => Return st
  | neighbor :: rest =>
      st' ← relax initialBattery mileage currentNode st neighbor;
      relaxAll initialBattery mileage currentNode rest st'
  end.

(** [while (!minHeap.isEmpty())] *)
Fixpoint mainLoop (fuel : nat) (g : Graph.t) (destination initialBattery mileage : Z)
    (st : SolverState) : outcome SolverState :=
  match fuel with
  | O => OutOfFuel
  | S fuel' =>
      if MinHeap.isEmpty (minHeap st) then Return st
      else
        '(current, h) ← MinHeap.deleteRoot (minHeap st);
        let st1 := mkState (distances st) (batteryUsed st) (previous st) h in
        let currentNode := nodeId current in
        if currentNode =? destination then Return st1
        else
          st2 ← relaxAll initialBattery mileage currentNode
                  (Graph.getNeighbors g currentNode) st1;
          mainLoop fuel' g destination initialBattery mileage st2
  end.

(** [while (current != -1)]: the path from the destination backwards. *)
Fixpoint buildPath (fuel : nat) (prev : gmap Z Z) (current : Z) (acc : list Z)
  : outcome (list Z) :=
  match fuel with
  | O => OutOfFuel
  | S fuel' =>
      if current =? -1 then Return acc
      else buildPath fuel' prev (map_at prev current) (acc ++ [current])
  end.

Definition dijkstraWithBattery (fuel : nat) (g : Graph.t)
    (source destination initialBattery mileage : Z) : outcome PathfindingResult :=
  let result := mkResult [] None None false "" in
  if source =? destination then
    Return (mkResult [source] (Some 0) (Some 0) true
                     "Source and destination are the same")
  else
    match (_ ← Graph.getNode g source; Graph.getNode g destination) with
    | Throw (out_of_range _) =>
        Return (mkResult (path result) (totalDistance result)
                         (totalBatteryUsed result) false
                         "Invalid source or destination node")
    | Throw e => Throw e
    | Undefined => Undefined
    | OutOfFuel => OutOfFuel
    | Return _ =>
        let n := Graph.getNodeCount g in
        if n =? 0 then
          Return (mkResult (path result) (totalDistance result)
                           (totalBatteryUsed result) false "Graph is empty")
        else
          st0 ← initState g source;
          st ← mainLoop fuel g destination initialBattery mileage st0;
          if map_at (distances st) destination =? INT_MAX then
            Return (mkResult (path result) (totalDistance result)
                             (totalBatteryUsed result) false
                             "No path exists within battery constraints")
          else
            p ← buildPath fuel (previous st) destination [];
            Return (mkResult (reverse p)
                             (Some (map_at (distances st) destination))
                             (Some (map_at (batteryUsed st) destination))
                             true "Path found successfully")
    end.

(** [dijkstraWithBattery] once more, each [return] together with the
    locals [distances], [batteryUsed], [previous] and [minHeap] as they are
    at that [return]: [None] at the three returns that come before their
    declaration, the state they are in at the two returns after the main
    loop. *)
Definition dijkstraRun (fuel : nat) (g : Graph.t)
    (source destination initialBattery mileage : Z)
  : outcome (PathfindingResult * option SolverState) :=
  let result := mkResult [] None None false "" in
  if source =? destination then
    Return (mkResult [source] (Some 0) (Some 0) true
                     "Source and destination are the same", None)
  else
    match (_ ← Graph.getNode g source; Graph.getNode g destination) with
    | Throw (out_of_range _) =>
        Return (mkResult (path result) (totalDistance result)
                         (totalBatteryUsed result) false
                         "Invalid source or destination node", None)
    | Throw e => Throw e
    | Undefined => Undefined
    | OutOfFuel => OutOfFuel
    | Return _ =>
        let n := Graph.getNodeCount g in
        if n =? 0 then
          Return (mkResult (path result) (totalDistance result)
                           (totalBatteryUsed result) false "Graph is empty",
                  None)
        else
          st0 ← initState g source;
          st ← mainLoop fuel g destination initialBattery mileage st0;
          if map_at (distances st) destination =? INT_MAX then
            Return (mkResult (path result) (totalDistance result)
                             (totalBatteryUsed result) false
                             "No path exists within battery constraints",
                    Some st)
          else
            p ← buildPath fuel (previous st) destination [];
            Return (mkResult (reverse p)
                             (Some (map_at (distances st) destination))
                             (Some (map_at (batteryUsed st) destination))
                             true "Path found successfully",
                    Some st)
    end.

(** ** Specification vocabulary *)

(** [c] is one of the two children of slot [p] in the array layout. *)
Definition child (p c : nat) : Prop := c = (2 * p + 1)%nat ∨ c = (2 * p + 2)%nat.

(** Heap order: every parent's priority is at most its children's. *)
Definition heap_ordered (l : list HeapNode) : Prop :=
  ∀ p c np nc, child p c → l !! p = Some np → l !! c = Some nc →
    distance np ≤ distance nc.

(** Heap order everywhere except between slot [k] and its parent, whose
    priority is however at most that of the children of [k]: the state in
    which [bubbleUp k] is called. *)
Definition ordered_up (l : list HeapNode) (k : nat) : Prop :=
  (∀ p c np nc, child p c → c ≠ k → l !! p = Some np → l !! c = Some nc →
     distance np ≤ distance nc) ∧
  (∀ p c np nc, child p k → child k c → l !! p = Some np → l !! c = Some nc →
     distance np ≤ distance nc).

(** Heap order everywhere except between slot [k] and its children, whose
    priorities are however at least that of the parent of [k]: the state in
    which [bubbleDown k] is called. *)
Definition ordered_down (l : list HeapNode) (k : nat) : Prop :=
  (∀ p c np nc, child p c → p ≠ k → l !! p = Some np → l !! c = Some nc →
     distance np ≤ distance nc) ∧
  (∀ p c np nc, child p k → child k c → l !! p = Some np → l !! c = Some nc →
     distance np ≤ distance nc).

(** The index maps exactly the node ids stored in the array, each to the
    slot that holds it. *)
Definition index_consistent (l : list HeapNode) (m : gmap Z nat) : Prop :=
  ∀ id i, m !! id = Some i ↔ ∃ n, l !! i = Some n ∧ nodeId n = id.

Definition heap_inv (h : MinHeap.t) : Prop :=
  heap_ordered (MinHeap.heap h) ∧
  index_consistent (MinHeap.heap h) (MinHeap.nodeToIndex h).

(** The array after [swapNodes i j], where [a] and [b] are the entries
    found in slots [i] and [j]. *)
Definition swapped (l : list HeapNode) (i j : nat) (a b : HeapNode)
  : list HeapNode :=
  <[j := a]> (<[i := b]> l).

(** A call of the queue's insert or decrease-priority operation. *)
Inductive call : Type :=
| Insert (id priority : Z)
| DecreasePriority (id priority : Z).

Definition do_call (c : call) (h : MinHeap.t) : outcome MinHeap.t :=
  match c with
  | Insert id d => MinHeap.addNode id d h
  | DecreasePriority id d => MinHeap.decreaseKey id d h
  end.

(** A sequence of calls, stopped by the first one that does not return. *)
Fixpoint do_calls (cs : list call) (h : MinHeap.t) : outcome MinHeap.t :=
  match cs with
  | [] => Return h
  | c :: cs' => h' ← do_call c h; do_calls cs' h'
  end.

(** A call of one of the three operations that change the queue. *)
Inductive operation : Type :=
| Change (c : call)
| DeleteRoot.

Definition do_operation (o : operation) (h : MinHeap.t) : outcome MinHeap.t :=
  match o with
  | Change c => do_call c h
  | DeleteRoot => '(_, h') ← MinHeap.deleteRoot h; Return h'
  end.

(** A sequence of operations, stopped by the first one that does not
    return. *)
Fixpoint do_operations (os : list operation) (h : MinHeap.t)
  : outcome MinHeap.t :=
  match os with
  | [] => Return h
  | o :: os' => h' ← do_operation o h; do_operations os' h'
  end.

(** The distance-improving relaxations that the budget refuses, each by the
    cumulative battery use it would have recorded, in the order in which a
    run meets them.  The three functions follow [relax], [relaxAll] and
    [mainLoop] step by step and observe them; they change nothing. *)
Definition refusal (initialBattery mileage : Z) (currentNode : Z)
    (st : SolverState) (neighbor : Z * Z) : list Z :=
  let neighborNode := neighbor.1 in
  let edgeWeight := neighbor.2 in
  if negb (int_div_defined edgeWeight mileage) then [] else
  let newBatteryUsed :=
    int_add (map_at (batteryUsed st) currentNode)
            (batteryConsumption edgeWeight mileage) in
  let newDistance := int_add (map_at (distances st) currentNode) edgeWeight in
  if negb (newBatteryUsed <=? initialBattery)
     && (newDistance <? map_at (distances st) neighborNode)
  then [newBatteryUsed] else [].

Fixpoint refusalsAll (initialBattery mileage : Z) (currentNode : Z)
    (neighbors : list (Z * Z)) (st : SolverState) : list Z :=
  match neighbors with
  | [] => []
  | neighbor :: rest =>
      refusal initialBattery mileage currentNode st neighbor ++
      match relax initialBattery mileage currentNode st neighbor with
      | Return st' => refusalsAll initialBattery mileage currentNode rest st'
      | _ => []
      end
  end.

Fixpoint refusalsLoop (fuel : nat) (g : Graph.t)
    (destination initialBattery mileage : Z) (st : SolverState) : list Z :=
  match fuel with
  | O => []
  | S fuel' =>
      if MinHeap.isEmpty (minHeap st) then []
      else
        match MinHeap.deleteRoot (minHeap st) with
        | Return (current, h) =>
            let st1 := mkState (distances st) (batteryUsed st) (previous st) h in
            let currentNode := nodeId current in
            if currentNode =? destination then []
            else
              refusalsAll initialBattery mileage currentNode
                (Graph.getNeighbors g currentNode) st1 ++
              match relaxAll initialBattery mileage currentNode
                      (Graph.getNeighbors g currentNode) st1 with
              | Return st2 =>
                  refusalsLoop fuel' g destination initialBattery mileage st2
              | _ => []
              end
        | _ => []
        end
  end.

Definition budgetRefusals (fuel : nat) (g : Graph.t)
    (source destination initialBattery mileage : Z) : list Z :=
  match initState g source with
  | Return st0 => refusalsLoop fuel g destination initialBattery mileage st0
  | _ => []
  end.

(** The state in which the main loop of a run leaves the solver. *)
Definition loopEnd (fuel : nat) (g : Graph.t)
    (source destination initialBattery mileage : Z) : outcome SolverState :=
  st0 ← initState g source;
  mainLoop fuel g destination initialBattery mileage st0.

(** The ids of the nodes of a graph. *)
Definition nodeIds (g : Graph.t) : list Z := node_id <$> Graph.nodes g.

(** The priority under which a node is queued, if it is. *)
Definition priorityOf (h : MinHeap.t) (id : Z) : option Z :=
  i ← MinHeap.nodeToIndex h !! id; distance <$> MinHeap.heap h !! i.

(** The ids that occur as a neighbor in some adjacency list. *)
Definition neighbors_are_nodes (g : Graph.t) : Prop :=
  ∀ u l v w, Graph.adjacencyList g !! u = Some l → (v, w) ∈ l → v ∈ nodeIds g.

(** Each node of the sequence lists the next one as a neighbor. *)
Definition is_walk (g : Graph.t) (p : list Z) : Prop :=
  ∀ i a b, p !! i = Some a → p !! S i = Some b →
    ∃ w, (b, w) ∈ Graph.getNeighbors g a.

(** A node counts as reached when it is the source or its distance has
    left the sentinel. *)
Definition reached (source : Z) (st : SolverState) (v : Z) : Prop :=
  v = source ∨ map_at (distances st) v ≠ INT_MAX.

(** What the solver's maps say about the nodes of the graph during a run:
    no distance exceeds the sentinel; a predecessor, where one is recorded,
    is a reached node that lists the node as a neighbor; every reached node
    but the source has a predecessor; every queued id is a reached node. *)
Definition tree_inv (g : Graph.t) (source : Z) (st : SolverState) : Prop :=
  (∀ v, map_at (distances st) v ≤ INT_MAX) ∧
  (∀ v, v ∈ nodeIds g → map_at (previous st) v ≠ -1 →
     map_at (previous st) v ∈ nodeIds g ∧
     reached source st (map_at (previous st) v) ∧
     ∃ w, (v, w) ∈ Graph.getNeighbors g (map_at (previous st) v)) ∧
  (∀ v, v ∈ nodeIds g → v ≠ source → map_at (distances st) v ≠ INT_MAX →
     map_at (previous st) v ≠ -1) ∧
  (∀ id k, priorityOf (minHeap st) id = Some k →
     id ∈ nodeIds g ∧ reached source st id).

Definition sumZ (l : list Z) : Z := foldr Z.add 0 l.

(** A node is closed when it is a reached node of the graph that is not
    queued: it has been extracted (or is the node being expanded). *)
Definition closed (g : Graph.t) (source : Z) (st : SolverState) (x : Z) : Prop :=
  x ∈ nodeIds g ∧ reached source st x ∧ priorityOf (minHeap st) x = None.

(** What a run keeps true on a graph with weights that are not negative
    and small enough for no addition to wrap around: the source stays at
    distance 0 without predecessor; a reached node has used battery within
    the budget and its distance is bounded through its battery use; a queued
    node is a reached node queued under its distance; no closed node is
    farther than a queued one; and the distance and battery use of a reached
    node are those of its predecessor, which is closed, plus the weight and
    the battery cost of an edge from the predecessor to the node. *)
Definition settled_inv (g : Graph.t) (source initialBattery mileage : Z)
    (st : SolverState) : Prop :=
  (∀ v, map_at (distances st) v ≤ INT_MAX) ∧
  (map_at (distances st) source = 0 ∧ map_at (batteryUsed st) source = 0 ∧
   map_at (previous st) source = -1) ∧
  (∀ v, v ∈ nodeIds g → reached source st v →
     0 ≤ map_at (batteryUsed st) v ≤ initialBattery ∧
     0 ≤ map_at (distances st) v ≤ 2 * mileage * map_at (batteryUsed st) v) ∧
  (∀ v k, priorityOf (minHeap st) v = Some k →
     v ∈ nodeIds g ∧ reached source st v ∧ k = map_at (distances st) v) ∧
  (∀ x v k, closed g source st x → priorityOf (minHeap st) v = Some k →
     map_at (distances st) x ≤ k) ∧
  (∀ v, v ∈ nodeIds g → v ≠ source → map_at (distances st) v ≠ INT_MAX →
     closed g source st (map_at (previous st) v) ∧
     ∃ w, (v, w) ∈ Graph.getNeighbors g (map_at (previous st) v) ∧
       map_at (distances st) v =
         map_at (distances st) (map_at (previous st) v) + w ∧
       map_at (batteryUsed st) v =
         map_at (batteryUsed st) (map_at (previous st) v) +
         batteryConsumption w mileage).

(** [a] occurs in the sequence before [b] does. *)
Definition earlier (L : list Z) (a b : Z) : Prop :=
  ∃ i j, L !! i = Some a ∧ L !! j = Some b ∧ (i < j)%nat.

(** [L] lists the closed nodes in the order in which they were extracted:
    each of them once, and each but the source after its predecessor. *)
Definition closing_order (g : Graph.t) (source : Z) (st : SolverState)
    (L : list Z) : Prop :=
  NoDup L ∧ (∀ x, x ∈ L ↔ closed g source st x) ∧
  (∀ v, v ∈ L → v ≠ source → earlier L (map_at (previous st) v) v).

(** A route of the graph from [a] to [b]: the steps name, one after the
    other, a neighbor of the node reached so far and the weight under which
    that node lists it. *)
Fixpoint route (g : Graph.t) (a : Z) (steps : list (Z * Z)) (b : Z) : Prop :=
  match steps with
  | [] => a = b
  | (v, w) :: rest => (v, w) ∈ Graph.getNeighbors g a ∧ route g v rest b
  end.

(** Every edge out of [x] has been relaxed: no neighbor is farther than
    over that edge. *)
Definition relaxed_from (g : Graph.t) (st : SolverState) (x : Z) : Prop :=
  ∀ v w, (v, w) ∈ Graph.getNeighbors g x →
    map_at (distances st) v ≤ map_at (distances st) x + w.

(** ** Example inputs *)

(** A queue holding node 2 with priority 3 and node 1 with priority 5. *)
Definition heap_53 : MinHeap.t :=
  MinHeap.mk [mkHeapNode 2 3; mkHeapNode 1 5]
             (<[2 := 0%nat]> (<[1 := 1%nat]> ∅)).

(** A queue holding node 1 with priority 5. *)
Definition heap_5 : MinHeap.t :=
  MinHeap.mk [mkHeapNode 1 5] (<[1 := 0%nat]> ∅).

(** Nodes 1, 2, 3 in a line, both edges of weight 10. *)
Definition line3 : Graph.t :=
  Graph.addEdge 2 3 10 (Graph.addEdge 1 2 10 Graph.new).

(** Two nodes and no edge. *)
Definition two_islands : Graph.t :=
  Graph.addNode 2 (Graph.addNode 1 Graph.new).

(** Node 4 is reached from node 1 either over 2 and 3 (three edges of
    weight 1) or directly (one edge of weight 10); node 5 hangs off node 4
    by an edge of weight 10. *)
Definition detour : Graph.t :=
  Graph.addEdge 4 5 10 (Graph.addEdge 1 4 10 (Graph.addEdge 3 4 1
    (Graph.addEdge 2 3 1 (Graph.addEdge 1 2 1 Graph.new)))).

(** One edge, from node 1 to a node whose id is -1, the value that the
    solver uses for "no predecessor". *)
Definition minus_one : Graph.t := Graph.addEdge 1 (-1) 10 Graph.new.

(** * Facts *)

(** ** The min-heap *)

Section heap_facts.
Implicit Types (l : list HeapNode) (m : gmap Z nat) (i j k : nat).

Lemma swapped_lookup l i j a b x :
  l !! i = Some a → l !! j = Some b →
  swapped l i j a b !! x =
    if decide (x = j) then Some a else if decide (x = i) then Some b else l !! x.
Proof.
  intros Hi Hj. unfold swapped.
  apply lookup_lt_Some in Hi as Hli. apply lookup_lt_Some in Hj as Hlj.
  rewrite !list_lookup_insert, !length_insert.
  repeat case_decide; try done; try lia; naive_solver lia.
Qed.

Lemma swapped_length l i j a b : length (swapped l i j a b) = length l.
Proof. unfold swapped. by rewrite !length_insert. Qed.

Lemma swapNodes_eq l m i j a b :
  l !! i = Some a → l !! j = Some b →
  MinHeap.swapNodes i j (MinHeap.mk l m) =
    Return (MinHeap.mk (swapped l i j a b)
              (<[nodeId a := j]> (<[nodeId b := i]> m))).
Proof.
  intros Hi Hj. unfold MinHeap.swapNodes. simpl. rewrite Hi, Hj.
  fold (swapped l i j a b). unfold vec_at.
  rewrite !(swapped_lookup l i j a b) by done.
  destruct (decide (i = j)) as [->|Hne].
  - assert (a = b) as -> by congruence. by rewrite !decide_True.
  - repeat case_decide; done.
Qed.

Lemma index_consistent_inj l m id1 id2 i :
  index_consistent l m → m !! id1 = Some i → m !! id2 = Some i → id1 = id2.
Proof.
  intros Hc H1 H2. apply Hc in H1 as (n1 & Hn1 & <-).
  apply Hc in H2 as (n2 & Hn2 & <-). congruence.
Qed.

Lemma index_consistent_lookup l m i n :
  index_consistent l m → l !! i = Some n → m !! nodeId n = Some i.
Proof. intros Hc Hn. apply Hc. eauto. Qed.

Lemma index_consistent_swapped l m i j a b :
  index_consistent l m → l !! i = Some a → l !! j = Some b → i ≠ j →
  index_consistent (swapped l i j a b) (<[nodeId a := j]> (<[nodeId b := i]> m)).
Proof.
  intros Hc Hi Hj Hne id x.
  pose proof (index_consistent_lookup _ _ _ _ Hc Hi) as Hma.
  pose proof (index_consistent_lookup _ _ _ _ Hc Hj) as Hmb.
  assert (nodeId a ≠ nodeId b) as Hab by (intros E; rewrite E in Hma; congruence).
  rewrite (swapped_lookup l i j a b) by done.
  rewrite !lookup_insert.
  assert (∀ y n, l !! y = Some n → nodeId n = nodeId a → y = i) as Ua.
  { intros y n Hn E. pose proof (index_consistent_lookup _ _ _ _ Hc Hn) as Hmn.
    rewrite E in Hmn. congruence. }
  assert (∀ y n, l !! y = Some n → nodeId n = nodeId b → y = j) as Ub.
  { intros y n Hn E. pose proof (index_consistent_lookup _ _ _ _ Hc Hn) as Hmn.
    rewrite E in Hmn. congruence. }
  specialize (Hc id x).
  repeat case_decide; subst; naive_solver.
Qed.

Lemma dom_swapped l m i j a b :
  index_consistent l m → l !! i = Some a → l !! j = Some b →
  dom (<[nodeId a := j]> (<[nodeId b := i]> m)) = dom m.
Proof.
  intros Hc Hi Hj.
  pose proof (index_consistent_lookup _ _ _ _ Hc Hi) as Hma.
  pose proof (index_consistent_lookup _ _ _ _ Hc Hj) as Hmb.
  rewrite !dom_insert_L.
  apply (elem_of_dom_2 (D := gset Z)) in Hma, Hmb. set_solver.
Qed.

Lemma ordered_up_0 l : ordered_up l 0 → heap_ordered l.
Proof.
  intros [H1 _] p c np nc Hch. apply H1; [done|]. unfold child in Hch. lia.
Qed.

Lemma ordered_up_done l k p np nk :
  ordered_up l k → child p k → l !! p = Some np → l !! k = Some nk →
  distance np ≤ distance nk → heap_ordered l.
Proof.
  intros [H1 _] Hch Hp Hk Hle p' c' np' nc' Hch' Hp' Hc'.
  destruct (decide (c' = k)) as [->|Hne]; [|by eapply H1].
  assert (p' = p) as -> by (unfold child in *; lia). congruence.
Qed.

Lemma ordered_up_swapped l k p np nk :
  ordered_up l k → child p k → l !! p = Some np → l !! k = Some nk →
  distance nk ≤ distance np →
  ordered_up (swapped l k p nk np) p.
Proof.
  intros [H1 H2] Hch Hp Hk Hle. split.
  - intros p' c' np' nc' Hch' Hne.
    rewrite !(swapped_lookup l k p nk np) by done.
    destruct (decide (p' = p)) as [->|Hpp].
    + intros [= <-]. rewrite decide_False by done.
      destruct (decide (c' = k)) as [->|Hck]; [intros [= <-]; lia|].
      intros Hc'. pose proof (H1 p c' np nc' Hch' Hck Hp Hc'). lia.
    + destruct (decide (p' = k)) as [->|Hpk].
      * intros [= <-]. rewrite !decide_False by (unfold child in *; lia).
        intros Hc'. eapply H2; eauto.
      * intros Hp'. rewrite (decide_False (P := c' = p)) by done.
        rewrite decide_False by (unfold child in *; lia).
        intros Hc'. eapply H1; eauto. unfold child in *; lia.
  - intros pp cc npp ncc Hch1 Hch2.
    rewrite !(swapped_lookup l k p nk np) by done.
    rewrite !(decide_False (P := pp = _)) by (unfold child in *; lia).
    rewrite (decide_False (P := cc = p)) by (unfold child in *; lia).
    intros Hpp.
    assert (distance npp ≤ distance np) as Hle1.
    { eapply (H1 pp p); eauto. unfold child in *; lia. }
    destruct (decide (cc = k)) as [->|Hck]; [intros [= <-]; lia|].
    intros Hcc. pose proof (H1 p cc np ncc Hch2 Hck Hp Hcc). lia.
Qed.

Lemma bubbleUp_rec_spec fuel : ∀ k l m,
  (k < fuel)%nat → (k < length l)%nat →
  index_consistent l m → ordered_up l k →
  ∃ l' m', MinHeap.bubbleUp_rec fuel k (MinHeap.mk l m) = Return (MinHeap.mk l' m') ∧
    heap_ordered l' ∧ index_consistent l' m' ∧
    dom m' = dom m ∧ length l' = length l.
Proof.
  induction fuel as [|fuel IH]; intros k l m Hf Hk Hc Ho; [lia|].
  cbn [MinHeap.bubbleUp_rec MinHeap.heap].
  destruct (Nat.eqb_spec k 0) as [->|Hk0].
  { exists l, m. split_and!; try done. by apply ordered_up_0. }
  set (p := ((k - 1) / 2)%nat).
  assert (child p k) as Hch.
  { unfold child, p. pose proof (Nat.div_mod_eq (k - 1) 2).
    pose proof (Nat.mod_upper_bound (k - 1) 2). lia. }
  clearbody p.
  assert (p < k)%nat as Hpk by (unfold child in Hch; lia).
  destruct (lookup_lt_is_Some_2 l k Hk) as [nk Hnk].
  destruct (lookup_lt_is_Some_2 l p ltac:(lia)) as [np Hnp].
  unfold vec_at. rewrite Hnk, Hnp. simpl. unfold gt.
  destruct (Z.ltb_spec (distance np) (distance nk)) as [Hlt|Hge].
  { exists l, m. split_and!; try done.
    eapply ordered_up_done; eauto. lia. }
  rewrite (swapNodes_eq l m k p nk np) by done. simpl.
  destruct (IH p (swapped l k p nk np)
              (<[nodeId nk := p]> (<[nodeId np := k]> m)))
    as (l' & m' & -> & Ho' & Hc' & Hd' & Hl').
  - lia.
  - rewrite swapped_length. lia.
  - apply index_consistent_swapped; auto. lia.
  - by apply ordered_up_swapped.
  - exists l', m'. split_and!; try done.
    + rewrite Hd'. by eapply dom_swapped.
    + by rewrite Hl', swapped_length.
Qed.

(** One of the two comparisons of [bubbleDown]: the candidate child [c]
    against the smallest slot [s] found so far. *)
Lemma pick_child l c s ns :
  l !! s = Some ns →
  ∃ s' ns',
    (if (c <? length l)%nat then
       x ← vec_at l c; y ← vec_at l s;
       Return (if negb (gt x y) then c else s)
     else Return s) = Return s' ∧
    (s' = s ∨ s' = c) ∧ l !! s' = Some ns' ∧
    distance ns' ≤ distance ns ∧
    (∀ nc, l !! c = Some nc → distance ns' ≤ distance nc).
Proof.
  intros Hs. destruct (Nat.ltb_spec c (length l)) as [Hlt|Hge].
  - destruct (lookup_lt_is_Some_2 l c Hlt) as [nc Hnc].
    unfold vec_at. rewrite Hnc, Hs. simpl. unfold gt.
    destruct (Z.ltb_spec (distance ns) (distance nc)); simpl.
    + exists s, ns. split_and!; auto; [lia|]. intros ? [= <-]. lia.
    + exists c, nc. split_and!; auto. intros ? [= <-]. lia.
  - exists s, ns. split_and!; auto; [lia|].
    intros nc Hnc. apply lookup_lt_Some in Hnc. lia.
Qed.

Lemma ordered_down_done l k nk :
  ordered_down l k → l !! k = Some nk →
  (∀ c nc, child k c → l !! c = Some nc → distance nk ≤ distance nc) →
  heap_ordered l.
Proof.
  intros [H1 _] Hk Hmin p c np nc Hch Hp Hc.
  destruct (decide (p = k)) as [->|Hne]; [|by eapply H1].
  assert (np = nk) as -> by congruence. eauto.
Qed.

Lemma ordered_down_swapped l k s nk ns :
  ordered_down l k → child k s → l !! k = Some nk → l !! s = Some ns →
  distance ns ≤ distance nk →
  (∀ c nc, child k c → l !! c = Some nc → distance ns ≤ distance nc) →
  ordered_down (swapped l k s nk ns) s.
Proof.
  intros [H1 H2] Hch Hk Hs Hle Hmin. split.
  - intros p' c' np' nc' Hch' Hne.
    rewrite !(swapped_lookup l k s nk ns) by done.
    rewrite (decide_False (P := p' = s)) by done.
    destruct (decide (p' = k)) as [->|Hpk].
    + intros [= <-].
      destruct (decide (c' = s)) as [->|Hcs]; [intros [= <-]; lia|].
      rewrite decide_False by (unfold child in *; lia). eauto.
    + intros Hp'.
      rewrite (decide_False (P := c' = s)) by (unfold child in *; lia).
      destruct (decide (c' = k)) as [->|Hck]; [intros [= <-]; eauto|].
      intros Hc'. eapply H1; eauto.
  - intros pp cc npp ncc Hch1 Hch2.
    assert (pp = k) as -> by (unfold child in *; lia).
    rewrite !(swapped_lookup l k s nk ns) by done.
    rewrite (decide_False (P := k = s)) by (unfold child in *; lia).
    rewrite decide_True by done. intros [= <-].
    rewrite !decide_False by (unfold child in *; lia).
    intros Hcc. eapply (H1 s cc); eauto. unfold child in *; lia.
Qed.

Lemma bubbleDown_rec_spec fuel : ∀ k l m,
  (length l - k < fuel)%nat → (k < length l)%nat →
  index_consistent l m → ordered_down l k →
  ∃ l' m', MinHeap.bubbleDown_rec fuel k (MinHeap.mk l m) = Return (MinHeap.mk l' m') ∧
    heap_ordered l' ∧ index_consistent l' m' ∧
    dom m' = dom m ∧ length l' = length l.
Proof.
  induction fuel as [|fuel IH]; intros k l m Hf Hk Hc Ho; [lia|].
  cbn [MinHeap.bubbleDown_rec MinHeap.heap].
  destruct (lookup_lt_is_Some_2 l k Hk) as [nk Hnk].
  destruct (pick_child l (2 * k + 1) k nk Hnk)
    as (s1 & n1 & -> & Hs1 & Hn1 & Hle1 & Hmin1).
  cbn [mbind outcome_bind].
  destruct (pick_child l (2 * k + 2) s1 n1 Hn1)
    as (s2 & n2 & -> & Hs2 & Hn2 & Hle2 & Hmin2).
  cbn [mbind outcome_bind].
  assert (∀ c nc, child k c → l !! c = Some nc → distance n2 ≤ distance nc)
    as Hmin.
  { intros c nc [->| ->] Hnc; [|by eauto].
    specialize (Hmin1 _ Hnc). lia. }
  destruct (Nat.eqb_spec s2 k) as [->|Hne]; cbn [negb].
  { exists l, m. split_and!; try done.
    assert (n2 = nk) as -> by congruence.
    by eapply ordered_down_done. }
  assert (child k s2) as Hch by (unfold child; lia).
  rewrite (swapNodes_eq l m k s2 nk n2) by done.
  cbn [mbind outcome_bind].
  destruct (IH s2 (swapped l k s2 nk n2)
              (<[nodeId nk := s2]> (<[nodeId n2 := k]> m)))
    as (l' & m' & -> & Ho' & Hc' & Hd' & Hl').
  - rewrite swapped_length. apply lookup_lt_Some in Hn2.
    unfold child in Hch. lia.
  - rewrite swapped_length. by apply lookup_lt_Some in Hn2.
  - apply index_consistent_swapped; auto.
  - apply ordered_down_swapped; auto. lia.
  - exists l', m'. split_and!; try done.
    + rewrite Hd'. by eapply dom_swapped.
    + by rewrite Hl', swapped_length.
Qed.

Lemma parent_child k : k ≠ 0%nat → child ((k - 1) / 2) k.
Proof.
  intros Hk. unfold child. pose proof (Nat.div_mod_eq (k - 1) 2).
  pose proof (Nat.mod_upper_bound (k - 1) 2). lia.
Qed.

(** In an ordered heap the root has the least priority. *)
Lemma heap_ordered_root l r :
  heap_ordered l → l !! 0%nat = Some r →
  ∀ i n, l !! i = Some n → distance r ≤ distance n.
Proof.
  intros Ho Hr i. induction (lt_wf i) as [i _ IH]. intros n Hn.
  destruct (decide (i = 0%nat)) as [->|Hi]; [assert (n = r) by congruence; subst; lia|].
  pose proof (parent_child i Hi) as Hch.
  assert ((i - 1) / 2 < i)%nat as Hlt by (unfold child in Hch; lia).
  apply lookup_lt_Some in Hn as Hlen.
  destruct (lookup_lt_is_Some_2 l ((i - 1) / 2) ltac:(lia)) as [np Hnp].
  pose proof (IH _ Hlt _ Hnp). pose proof (Ho _ _ _ _ Hch Hnp Hn). lia.
Qed.

Lemma heap_inv_new : heap_inv MinHeap.new.
Proof.
  split.
  - intros p c np nc _ Hp. simpl in Hp. by rewrite lookup_nil in Hp.
  - intros id i. simpl. rewrite lookup_empty. split; [done|].
    intros (n & Hn & _). by rewrite lookup_nil in Hn.
Qed.

Lemma contains_dom h id :
  MinHeap.contains h id = bool_decide (id ∈ dom (MinHeap.nodeToIndex h)).
Proof. unfold MinHeap.contains. apply bool_decide_ext. by rewrite elem_of_dom. Qed.

Lemma decreaseKey_absent h id d :
  MinHeap.nodeToIndex h !! id = None →
  MinHeap.decreaseKey id d h = Throw (invalid_argument "Node not found in heap").
Proof. intros Hm. unfold MinHeap.decreaseKey. by rewrite Hm. Qed.

Lemma decreaseKey_present h id d k :
  heap_inv h → MinHeap.nodeToIndex h !! id = Some k →
  ∃ h', MinHeap.decreaseKey id d h = Return h' ∧ heap_inv h' ∧
    dom (MinHeap.nodeToIndex h') = dom (MinHeap.nodeToIndex h) ∧
    length (MinHeap.heap h') = length (MinHeap.heap h).
Proof.
  destruct h as [l m]. intros [Ho Hc] Hm. simpl in *.
  unfold MinHeap.decreaseKey. simpl. rewrite Hm.
  pose proof Hm as Hk. apply Hc in Hk as (n & Hn & Hid).
  unfold vec_at. rewrite Hn. cbn [mbind outcome_bind].
  destruct (Z.geb_spec d (distance n)) as [Hge|Hlt].
  { exists (MinHeap.mk l m). by split_and!. }
  apply lookup_lt_Some in Hn as Hlen.
  set (l1 := <[k := mkHeapNode (nodeId n) d]> l).
  assert (∀ x, l1 !! x =
            if decide (x = k) then Some (mkHeapNode (nodeId n) d) else l !! x)
    as Hl1.
  { intros x. unfold l1. rewrite list_lookup_insert.
    repeat case_decide; try done; naive_solver lia. }
  destruct (bubbleUp_rec_spec (S k) k l1 m) as (l' & m' & Hb & Ho' & Hc' & Hd' & Hl').
  - lia.
  - unfold l1. by rewrite length_insert.
  - intros id' i. rewrite Hl1. specialize (Hc id' i). case_decide; subst.
    + rewrite Hc, Hn. naive_solver.
    + done.
  - split.
    + intros p c np nc Hch Hne. rewrite !Hl1. rewrite (decide_False (P := c = k)) by done.
      case_decide; subst.
      * intros [= <-] Hnc. pose proof (Ho _ _ _ _ Hch Hn Hnc). simpl. lia.
      * intros Hnp Hnc. by eapply Ho.
    + intros p c np nc Hch1 Hch2. rewrite !Hl1.
      rewrite !decide_False by (unfold child in *; lia).
      intros Hnp Hnc. pose proof (Ho _ _ _ _ Hch1 Hnp Hn).
      pose proof (Ho _ _ _ _ Hch2 Hn Hnc). lia.
  - exists (MinHeap.mk l' m'). unfold MinHeap.bubbleUp. split_and!; try done.
    simpl. rewrite Hl'. unfold l1. by rewrite length_insert.
Qed.

Lemma addNode_fresh h id d :
  heap_inv h → MinHeap.nodeToIndex h !! id = None →
  ∃ h', MinHeap.addNode id d h = Return h' ∧ heap_inv h' ∧
    dom (MinHeap.nodeToIndex h') = {[id]} ∪ dom (MinHeap.nodeToIndex h) ∧
    length (MinHeap.heap h') = S (length (MinHeap.heap h)).
Proof.
  destruct h as [l m]. intros [Ho Hc] Hm. simpl in *.
  unfold MinHeap.addNode, MinHeap.contains. simpl.
  rewrite bool_decide_eq_false_2 by (rewrite Hm; by intros [??]).
  rewrite length_app. simpl. replace (length l + 1 - 1)%nat with (length l) by lia.
  set (l1 := l ++ [mkHeapNode id d]).
  assert (∀ x, l1 !! x =
            if decide (x = length l) then Some (mkHeapNode id d) else l !! x)
    as Hl1.
  { intros x. unfold l1. case_decide; subst.
    - by rewrite lookup_app_r, Nat.sub_diag.
    - destruct (decide (x < length l)%nat).
      + by rewrite lookup_app_l.
      + rewrite !lookup_ge_None_2; [done|lia|rewrite length_app; simpl; lia]. }
  destruct (bubbleUp_rec_spec (S (length l)) (length l) l1 (<[id := length l]> m))
    as (l' & m' & Hb & Ho' & Hc' & Hd' & Hl').
  - lia.
  - unfold l1. rewrite length_app. simpl. lia.
  - intros id' i. rewrite Hl1, lookup_insert.
    assert (∀ x n, l !! x = Some n → nodeId n ≠ id) as Hfresh.
    { intros x n Hn <-. apply (index_consistent_lookup _ _ _ _ Hc) in Hn.
      congruence. }
    assert (m !! id' = Some (length l) → False) as Hlast.
    { intros Hi. apply Hc in Hi as (n & Hn & _).
      apply lookup_lt_Some in Hn. lia. }
    specialize (Hc id' i). repeat case_decide; subst; naive_solver.
  - split.
    + intros p c np nc Hch Hne. rewrite !Hl1.
      rewrite (decide_False (P := c = _)) by done.
      intros Hnp Hnc. pose proof (lookup_lt_Some _ _ _ Hnc).
      rewrite decide_False in Hnp by (unfold child in *; lia). by eapply Ho.
    + intros p c np nc Hch1 Hch2 _. rewrite Hl1.
      rewrite decide_False by (unfold child in *; lia).
      intros Hnc. apply lookup_lt_Some in Hnc. unfold child in *; lia.
  - exists (MinHeap.mk l' m'). unfold MinHeap.bubbleUp. split_and!; try done.
    + simpl. by rewrite Hd', dom_insert_L.
    + simpl. rewrite Hl'. unfold l1. rewrite length_app. simpl. lia.
Qed.

Lemma deleteRoot_empty h :
  MinHeap.heap h = [] →
  MinHeap.deleteRoot h = Throw (runtime_error "Cannot delete from empty heap").
Proof. intros Hl. unfold MinHeap.deleteRoot, MinHeap.isEmpty. by rewrite Hl. Qed.

Lemma deleteRoot_nonempty h :
  heap_inv h → MinHeap.heap h ≠ [] →
  ∃ root h', MinHeap.deleteRoot h = Return (root, h') ∧
    MinHeap.heap h !! 0%nat = Some root ∧ heap_inv h' ∧
    dom (MinHeap.nodeToIndex h') = dom (MinHeap.nodeToIndex h) ∖ {[nodeId root]} ∧
    length (MinHeap.heap h') = (length (MinHeap.heap h) - 1)%nat.
Proof.
  destruct h as [l m]. intros [Ho Hc] Hne. simpl in *.
  unfold MinHeap.deleteRoot, MinHeap.isEmpty. simpl.
  destruct l as [|root l0] eqn:El; [done|]. rewrite <- El in *.
  assert (l !! 0%nat = Some root) as Hroot by (by rewrite El).
  assert (0 < length l)%nat as Hlen by (rewrite El; simpl; lia).
  assert (vec_at l 0 = Return root) as -> by (unfold vec_at; by rewrite Hroot).
  cbn [mbind outcome_bind]. exists root.
  destruct (Nat.eqb_spec (length l) 1) as [H1|H1].
  { exists (MinHeap.mk [] ∅). split_and!; try done.
    - apply heap_inv_new.
    - simpl. rewrite dom_empty_L. apply set_eq. intros x.
      rewrite elem_of_difference, elem_of_dom, not_elem_of_singleton.
      split; [set_solver|]. intros [[i Hi] Hx]. exfalso. apply Hx.
      apply Hc in Hi as (n & Hn & <-). apply lookup_lt_Some in Hn as Hi.
      assert (i = 0%nat) as -> by lia. congruence.
    - simpl. lia. }
  destruct (lookup_lt_is_Some_2 l (length l - 1) ltac:(lia)) as [back Hback].
  assert (vec_at l (length l - 1) = Return back) as ->
    by (unfold vec_at; by rewrite Hback).
  cbn [mbind outcome_bind].
  set (hp := take (length l - 1) (<[0%nat := back]> l)).
  assert (∀ x, hp !! x =
            if decide (x < length l - 1)%nat
            then (if decide (x = 0%nat) then Some back else l !! x) else None)
    as Hhp.
  { intros x. unfold hp. rewrite lookup_take, list_lookup_insert.
    repeat case_decide; try done; naive_solver lia. }
  assert (length hp = (length l - 1)%nat) as Hlhp.
  { unfold hp. rewrite length_take, length_insert. lia. }
  unfold vec_at. rewrite Hhp, !decide_True by lia. cbn [mbind outcome_bind].
  pose proof (index_consistent_lookup _ _ _ _ Hc Hroot) as Hmroot.
  pose proof (index_consistent_lookup _ _ _ _ Hc Hback) as Hmback.
  assert (nodeId back ≠ nodeId root) as Hbr.
  { intros E. rewrite E in Hmback. assert (length l - 1 = 0)%nat by congruence. lia. }
  destruct (bubbleDown_rec_spec (S (length hp)) 0 hp
              (<[nodeId back := 0%nat]> (delete (nodeId root) m)))
    as (l' & m' & Hb & Ho' & Hc' & Hd' & Hl').
  - lia.
  - lia.
  - intros id i. rewrite Hhp, lookup_insert, lookup_delete.
    assert (∀ x n, l !! x = Some n → nodeId n = nodeId back → x = (length l - 1)%nat)
      as Uback.
    { intros x n Hn E. apply (index_consistent_lookup _ _ _ _ Hc) in Hn.
      rewrite E in Hn. congruence. }
    assert (∀ x n, l !! x = Some n → nodeId n = nodeId root → x = 0%nat) as Uroot.
    { intros x n Hn E. apply (index_consistent_lookup _ _ _ _ Hc) in Hn.
      rewrite E in Hn. congruence. }
    assert (∀ x n, l !! x = Some n → (x < length l)%nat) as Hlt.
    { intros x n Hn. by apply lookup_lt_Some in Hn. }
    split.
    + intros Hi. destruct (decide (nodeId back = id)) as [<-|Hnb].
      { injection Hi as <-. exists back. by rewrite !decide_True by lia. }
      destruct (decide (nodeId root = id)) as [<-|Hnr]; [done|].
      apply Hc in Hi as (n & Hn & Hid). exists n. split; [|done].
      pose proof (Hlt _ _ Hn).
      assert (i ≠ 0%nat) by (intros ->; congruence).
      assert (i ≠ (length l - 1)%nat) by (intros ->; congruence).
      by rewrite decide_True, decide_False by lia.
    + intros (n & Hn & Hid).
      destruct (decide (i < length l - 1)%nat) as [Hil|]; [|done].
      destruct (decide (i = 0%nat)) as [->|Hi0].
      { injection Hn as <-. by rewrite decide_True. }
      assert (nodeId back ≠ id).
      { intros E. pose proof (Uback _ _ Hn ltac:(congruence)). lia. }
      assert (nodeId root ≠ id).
      { intros E. pose proof (Uroot _ _ Hn ltac:(congruence)). lia. }
      rewrite !decide_False by done. apply Hc. eauto.
  - split.
    + intros p c np nc Hch Hp0. rewrite !Hhp.
      repeat case_decide; try done; try (unfold child in *; lia).
      intros Hnp Hnc. by eapply Ho.
    + intros p c np nc Hch. unfold child in Hch. lia.
  - exists (MinHeap.mk l' m'). unfold MinHeap.bubbleDown.
    cbn [MinHeap.heap MinHeap.nodeToIndex]. rewrite Hb.
    split_and!; try done.
    + rewrite Hd', dom_insert_L, dom_delete_L.
      apply (elem_of_dom_2 (D := gset Z)) in Hmback. set_solver.
    + by rewrite Hl'.
Qed.

End heap_facts.

Lemma addNode_inv h id d :
  heap_inv h →
  ∃ h', MinHeap.addNode id d h = Return h' ∧ heap_inv h' ∧
    dom (MinHeap.nodeToIndex h') = {[id]} ∪ dom (MinHeap.nodeToIndex h).
Proof.
  intros Hinv. destruct (MinHeap.nodeToIndex h !! id) as [k|] eqn:Hm.
  - destruct (decreaseKey_present h id d k Hinv Hm) as (h' & Hd & Hinv' & Hdom & _).
    exists h'. unfold MinHeap.addNode, MinHeap.contains.
    rewrite bool_decide_eq_true_2 by (by rewrite Hm). split_and!; try done.
    rewrite Hdom. apply (elem_of_dom_2 (D := gset Z)) in Hm. set_solver.
  - destruct (addNode_fresh h id d Hinv Hm) as (h' & Ha & Hinv' & Hdom & _).
    by exists h'.
Qed.

Lemma do_call_inv c h :
  heap_inv h →
  match do_call c h with
  | Return h' => heap_inv h'
  | Throw e => e = invalid_argument "Node not found in heap"
  | _ => False
  end.
Proof.
  intros Hinv. destruct c as [id d|id d]; simpl.
  - destruct (addNode_inv h id d Hinv) as (h' & -> & Hinv' & _). done.
  - destruct (MinHeap.nodeToIndex h !! id) as [k|] eqn:Hm.
    + destruct (decreaseKey_present h id d k Hinv Hm) as (h' & -> & Hinv' & _). done.
    + by rewrite decreaseKey_absent.
Qed.

Lemma do_calls_inv cs : ∀ h,
  heap_inv h →
  match do_calls cs h with
  | Return h' => heap_inv h'
  | Throw e => e = invalid_argument "Node not found in heap"
  | _ => False
  end.
Proof.
  induction cs as [|c cs IH]; intros h Hinv; simpl; [done|].
  pose proof (do_call_inv c h Hinv) as Hc.
  destruct (do_call c h) as [h'| | |]; simpl; try done. by apply IH.
Qed.

(** [deleteRoot] on a queue that satisfies the invariant. *)
Lemma deleteRoot_min h :
  heap_inv h →
  if MinHeap.isEmpty h
  then MinHeap.deleteRoot h = Throw (runtime_error "Cannot delete from empty heap")
  else ∃ root h', MinHeap.deleteRoot h = Return (root, h') ∧
         root ∈ MinHeap.heap h ∧
         Forall (λ n, distance root ≤ distance n) (MinHeap.heap h) ∧
         MinHeap.contains h' (nodeId root) = false ∧
         heap_inv h'.
Proof.
  intros Hinv. destruct (MinHeap.isEmpty h) eqn:He.
  - apply deleteRoot_empty. unfold MinHeap.isEmpty in He.
    by destruct (MinHeap.heap h).
  - assert (MinHeap.heap h ≠ []) as Hne.
    { unfold MinHeap.isEmpty in He. by destruct (MinHeap.heap h). }
    destruct (deleteRoot_nonempty h Hinv Hne)
      as (root & h' & Hd & Hroot & Hinv' & Hdom & _).
    exists root, h'. split_and!; try done.
    + by eapply list_elem_of_lookup_2.
    + apply Forall_forall. intros n [i Hn]%list_elem_of_lookup.
      destruct Hinv as [Ho _]. by eapply heap_ordered_root.
    + rewrite contains_dom, Hdom. apply bool_decide_eq_false_2. set_solver.
Qed.

(** ** The claims about the priority queue *)

(** C8. After any sequence of insert ([addNode]) and decrease-priority
    ([decreaseKey]) calls on a fresh queue, [deleteRoot] on a non-empty
    queue returns an entry of the queue whose priority is at most that of
    every entry present, and [contains] then answers false for its node; on
    an empty queue [deleteRoot] fails with the empty-queue error.  The only
    way such a sequence can stop early is a decrease-priority call on a node
    that is not in the queue. *)
Theorem extractMin_after_calls (cs : list call) :
  match do_calls cs MinHeap.new with
  | Return h =>
      if MinHeap.isEmpty h
      then MinHeap.deleteRoot h =
             Throw (runtime_error "Cannot delete from empty heap")
      else ∃ root h', MinHeap.deleteRoot h = Return (root, h') ∧
             root ∈ MinHeap.heap h ∧
             Forall (λ n, distance root ≤ distance n) (MinHeap.heap h) ∧
             MinHeap.contains h' (nodeId root) = false
  | Throw e => e = invalid_argument "Node not found in heap"
  | _ => False
  end.
Proof.
  pose proof (do_calls_inv cs MinHeap.new heap_inv_new) as Hcs.
  destruct (do_calls cs MinHeap.new) as [h| | |]; try done.
  pose proof (deleteRoot_min h Hcs) as Hd.
  destruct (MinHeap.isEmpty h); [done|].
  destruct Hd as (root & h' & ? & ? & ? & ? & _). eauto 10.
Qed.

(** C9. Every public operation of the queue ([addNode], [deleteRoot],
    [decreaseKey], [clear]) applied to a state that satisfies the invariant
    leaves a state that satisfies it: the heap is ordered (every parent's
    priority is at most its children's) and the index maps exactly the node
    ids stored in the array to the slots that hold them.  [deleteRoot] and
    [decreaseKey] throw only on an empty queue, respectively on a node that
    is not in the queue, and nothing else goes wrong. *)
Theorem heap_inv_preserved (h : MinHeap.t) :
  heap_inv h →
  (∀ id d, ∃ h', MinHeap.addNode id d h = Return h' ∧ heap_inv h') ∧
  match MinHeap.deleteRoot h with
  | Return (_, h') => heap_inv h'
  | Throw _ => MinHeap.isEmpty h = true
  | _ => False
  end ∧
  (∀ id d,
     match MinHeap.decreaseKey id d h with
     | Return h' => heap_inv h'
     | Throw _ => MinHeap.contains h id = false
     | _ => False
     end) ∧
  heap_inv (MinHeap.clear h).
Proof.
  intros Hinv. split_and!.
  - intros id d. destruct (addNode_inv h id d Hinv) as (h' & ? & ? & _); eauto.
  - pose proof (deleteRoot_min h Hinv) as Hd.
    destruct (MinHeap.isEmpty h); [by rewrite Hd|].
    destruct Hd as (root & h' & -> & _ & _ & _ & Hinv'). done.
  - intros id d. destruct (MinHeap.nodeToIndex h !! id) as [k|] eqn:Hm.
    + destruct (decreaseKey_present h id d k Hinv Hm) as (h' & -> & ? & _). done.
    + rewrite decreaseKey_absent by done. unfold MinHeap.contains.
      apply bool_decide_eq_false_2. rewrite Hm. by intros [??].
  - apply heap_inv_new.
Qed.

Lemma heap_53_built :
  do_calls [Insert 1 5; Insert 2 3] MinHeap.new = Return heap_53.
Proof. vm_compute. reflexivity. Qed.

(** ** The graph accessors *)

Lemma getNode_present g id :
  id ∈ nodeIds g → Graph.getNode g id = Return (mkNode id).
Proof.
  unfold nodeIds, Graph.getNode. intros (n & -> & Hn)%list_elem_of_fmap.
  destruct (find _ _) as [n'|] eqn:Hf.
  - apply find_some in Hf as [_ Hid]. apply bool_decide_eq_true in Hid.
    destruct n'. simpl in Hid. by subst.
  - apply list_elem_of_In in Hn. eapply find_none in Hf; [|done].
    by apply bool_decide_eq_false in Hf.
Qed.

Lemma getNode_absent g id :
  id ∉ nodeIds g →
  Graph.getNode g id =
    Throw (out_of_range ("Node with ID " +:+ pretty id +:+ " not found")).
Proof.
  unfold nodeIds, Graph.getNode. intros Hid.
  destruct (find _ _) as [n'|] eqn:Hf; [|done].
  apply find_some in Hf as [Hn E]. apply bool_decide_eq_true in E.
  exfalso. apply Hid. apply list_elem_of_fmap. exists n'.
  split; [done|]. by apply list_elem_of_In.
Qed.

(** The endpoint check of the solver. *)
Lemma endpoints_checked g s d :
  (s ∈ nodeIds g ∧ d ∈ nodeIds g ∧
   (_ ← Graph.getNode g s; Graph.getNode g d) = Return (mkNode d)) ∨
  ((s ∉ nodeIds g ∨ d ∉ nodeIds g) ∧
   ∃ what, (_ ← Graph.getNode g s; Graph.getNode g d) = Throw (out_of_range what)).
Proof.
  destruct (decide (s ∈ nodeIds g)) as [Hs|Hs].
  - rewrite (getNode_present g s Hs). simpl.
    destruct (decide (d ∈ nodeIds g)) as [Hd|Hd].
    + left. by rewrite (getNode_present g d Hd).
    + right. rewrite (getNode_absent g d Hd). eauto.
  - right. rewrite (getNode_absent g s Hs). simpl. eauto.
Qed.

(** ** The early exits of the solver *)

Lemma solver_invalid_endpoint fuel g s d B r :
  s ≠ d → s ∉ nodeIds g ∨ d ∉ nodeIds g →
  dijkstraWithBattery fuel g s d B r =
    Return (mkResult [] None None false "Invalid source or destination node").
Proof.
  intros Hsd Habs. unfold dijkstraWithBattery.
  rewrite (proj2 (Z.eqb_neq s d)) by done.
  destruct (endpoints_checked g s d) as [(Hs & Hd & _)|(_ & what & ->)]; [|done].
  tauto.
Qed.

(** The branch that reports an empty graph is never taken: a graph
    without nodes has no endpoint that passes the check before it. *)
Lemma solver_never_reports_empty_graph fuel g s d B r res :
  dijkstraWithBattery fuel g s d B r = Return res →
  message res ≠ "Graph is empty".
Proof.
  unfold dijkstraWithBattery. destruct (s =? d); [by intros [= <-]|].
  destruct (endpoints_checked g s d) as [(Hs & _ & ->)|(_ & what & ->)];
    [|by intros [= <-]].
  assert ((Graph.getNodeCount g =? 0) = false) as ->.
  { apply Z.eqb_neq. unfold Graph.getNodeCount, nodeIds in *.
    destruct (Graph.nodes g); [|simpl; lia]. by apply elem_of_nil in Hs. }
  destruct (initState g s) as [st0| | |]; simpl; try done.
  destruct (mainLoop fuel g d B r st0) as [st| | |]; simpl; try done.
  destruct (_ =? INT_MAX); [by intros [= <-]|].
  destruct (buildPath _ _ _ _); simpl; try done. by intros [= <-].
Qed.

(** ** Fuel only decides whether a run is cut short *)

Section fuel.
Context (g : Graph.t) (destination initialBattery mileage : Z).

Lemma mainLoop_S fuel st :
  mainLoop (S fuel) g destination initialBattery mileage st =
    if MinHeap.isEmpty (minHeap st) then Return st
    else
      '(current, h) ← MinHeap.deleteRoot (minHeap st);
      let st1 := mkState (distances st) (batteryUsed st) (previous st) h in
      let currentNode := nodeId current in
      if currentNode =? destination then Return st1
      else
        st2 ← relaxAll initialBattery mileage currentNode
                (Graph.getNeighbors g currentNode) st1;
        mainLoop fuel g destination initialBattery mileage st2.
Proof. reflexivity. Qed.

Lemma mainLoop_S_fuel fuel : ∀ st,
  mainLoop fuel g destination initialBattery mileage st ≠ OutOfFuel →
  mainLoop (S fuel) g destination initialBattery mileage st =
  mainLoop fuel g destination initialBattery mileage st.
Proof.
  induction fuel as [|fuel IH]; intros st Hne; [done|].
  rewrite (mainLoop_S (S fuel)). rewrite mainLoop_S in Hne |- *.
  destruct (MinHeap.isEmpty _); [done|].
  destruct (MinHeap.deleteRoot _) as [[current h]| | |]; try done.
  cbn [mbind outcome_bind] in *. destruct (_ =? destination); [done|].
  destruct (relaxAll _ _ _ _ _) as [st2| | |]; try done.
  cbn [mbind outcome_bind] in *. by apply IH.
Qed.

Lemma mainLoop_more_fuel k fuel st :
  mainLoop fuel g destination initialBattery mileage st ≠ OutOfFuel →
  mainLoop (fuel + k) g destination initialBattery mileage st =
  mainLoop fuel g destination initialBattery mileage st.
Proof.
  intros Hne. induction k as [|k IH].
  - by rewrite Nat.add_0_r.
  - rewrite Nat.add_succ_r, mainLoop_S_fuel; [done|]. by rewrite IH.
Qed.

End fuel.

Lemma buildPath_S_fuel prev fuel : ∀ current acc,
  buildPath fuel prev current acc ≠ OutOfFuel →
  buildPath (S fuel) prev current acc = buildPath fuel prev current acc.
Proof.
  induction fuel as [|fuel IH]; intros current acc Hne; [done|].
  change (buildPath (S (S fuel)) prev current acc) with
    (if current =? -1 then Return acc
     else buildPath (S fuel) prev (map_at prev current) (acc ++ [current])).
  change (buildPath (S fuel) prev current acc) with
    (if current =? -1 then Return acc
     else buildPath fuel prev (map_at prev current) (acc ++ [current])) in Hne |- *.
  destruct (current =? -1); [done|]. by apply IH.
Qed.

Lemma buildPath_more_fuel prev k fuel current acc :
  buildPath fuel prev current acc ≠ OutOfFuel →
  buildPath (fuel + k) prev current acc = buildPath fuel prev current acc.
Proof.
  intros Hne. induction k as [|k IH].
  - by rewrite Nat.add_0_r.
  - rewrite Nat.add_succ_r, buildPath_S_fuel; [done|]. by rewrite IH.
Qed.

Lemma solver_more_fuel k fuel g s d B r res :
  dijkstraWithBattery fuel g s d B r = Return res →
  dijkstraWithBattery (fuel + k) g s d B r = Return res.
Proof.
  unfold dijkstraWithBattery. destruct (s =? d); [done|].
  destruct (_ ← Graph.getNode g s; Graph.getNode g d) as [n|[]| |]; try done.
  destruct (_ =? 0); [done|].
  destruct (initState g s) as [st0| | |]; try done. cbn [mbind outcome_bind].
  destruct (mainLoop fuel g d B r st0) as [st| | |] eqn:Hloop; try done.
  rewrite mainLoop_more_fuel by (by rewrite Hloop). rewrite Hloop.
  cbn [mbind outcome_bind]. destruct (_ =? INT_MAX); [done|].
  destruct (buildPath fuel _ _ _) as [p| | |] eqn:Hpath; try done.
  rewrite buildPath_more_fuel by (by rewrite Hpath). by rewrite Hpath.
Qed.

(** Two runs on the same input that both return, return the same. *)
Lemma solver_fuel_agree fuel1 fuel2 g s d B r res1 res2 :
  dijkstraWithBattery fuel1 g s d B r = Return res1 →
  dijkstraWithBattery fuel2 g s d B r = Return res2 →
  res1 = res2.
Proof.
  intros H1 H2.
  apply (solver_more_fuel fuel2) in H1. apply (solver_more_fuel fuel1) in H2.
  rewrite (Nat.add_comm fuel2 fuel1) in H2. congruence.
Qed.

(** A division by a positive rate is defined; a relaxation that returns
    has found its division defined. *)
Lemma int_div_defined_pos w r : 0 < r → int_div_defined w r = true.
Proof.
  intros Hr. unfold int_div_defined.
  destruct (Z.eqb_spec r 0), (Z.eqb_spec r (-1)); try lia.
Qed.

Lemma relax_Return_defined B r u st nb st' :
  relax B r u st nb = Return st' → int_div_defined nb.2 r = true.
Proof. unfold relax. by destruct (int_div_defined nb.2 r). Qed.

(** ** Budgets that refuse the same relaxations *)

Section budgets.
Context (mileage B B' : Z) (HB : B ≤ B').

Lemma relax_same_budget u st nb :
  Forall (λ x, B' < x) (refusal B mileage u st nb) →
  relax B' mileage u st nb = relax B mileage u st nb.
Proof.
  unfold refusal, relax.
  destruct (int_div_defined nb.2 mileage); cbn [negb]; [|done].
  set (nbu := int_add _ _). set (nd := int_add _ _).
  destruct (nd <? map_at (distances st) nb.1); [|by rewrite !andb_false_r].
  rewrite !andb_true_r.
  destruct (Z.leb_spec nbu B) as [Hle|Hgt]; simpl.
  - intros _. by rewrite (proj2 (Z.leb_le nbu B')) by lia.
  - intros Hf. apply Forall_cons_1 in Hf as [Hf _].
    by rewrite (proj2 (Z.leb_gt nbu B')) by lia.
Qed.

Lemma relaxAll_same_budget u nbs : ∀ st,
  Forall (λ x, B' < x) (refusalsAll B mileage u nbs st) →
  relaxAll B' mileage u nbs st = relaxAll B mileage u nbs st.
Proof.
  induction nbs as [|nb nbs IH]; intros st Hf; [done|].
  simpl in *. apply Forall_app in Hf as [Hf1 Hf2].
  rewrite relax_same_budget by done.
  destruct (relax B mileage u st nb) as [st'| | |]; simpl; try done.
  by apply IH.
Qed.

Lemma mainLoop_same_budget g d fuel : ∀ st,
  Forall (λ x, B' < x) (refusalsLoop fuel g d B mileage st) →
  mainLoop fuel g d B' mileage st = mainLoop fuel g d B mileage st.
Proof.
  induction fuel as [|fuel IH]; intros st Hf; [done|].
  rewrite !mainLoop_S. cbn [refusalsLoop] in Hf.
  destruct (MinHeap.isEmpty _); [done|].
  destruct (MinHeap.deleteRoot _) as [[current h]| | |]; try done.
  cbn [mbind outcome_bind]. cbv zeta in *.
  destruct (_ =? d); [done|].
  apply Forall_app in Hf as [Hf1 Hf2].
  rewrite relaxAll_same_budget by done.
  destruct (relaxAll B _ _ _ _) as [st2| | |]; try done.
  cbn [mbind outcome_bind]. by apply IH.
Qed.

Lemma solver_same_budget fuel g s d :
  Forall (λ x, B' < x) (budgetRefusals fuel g s d B mileage) →
  dijkstraWithBattery fuel g s d B' mileage =
  dijkstraWithBattery fuel g s d B mileage.
Proof.
  unfold budgetRefusals, dijkstraWithBattery. intros Hf.
  destruct (s =? d); [done|].
  destruct (_ ← Graph.getNode g s; Graph.getNode g d) as [n|[]| |]; try done.
  destruct (_ =? 0); [done|].
  destruct (initState g s) as [st0| | |]; try done. cbn [mbind outcome_bind].
  by rewrite mainLoop_same_budget.
Qed.

End budgets.

(** ** The claims about the solver *)

(** C1, as stated, fails: on the graph [detour], from node 1 to node 5 at
    rate 10, the solver succeeds with budget 2 (distance 20 over node 4) and
    reports no path with budget 3, whatever the fuel: the larger budget lets
    the short route over 2 and 3 take node 4 with battery use 3, after
    which the edge to node 5 is out of budget. *)
Lemma budget_monotonicity_fails :
  2 ≤ 3 ∧
  dijkstraWithBattery 6 detour 1 5 2 10 =
    Return (mkResult [1; 4; 5] (Some 20) (Some 2) true "Path found successfully") ∧
  ∀ fuel res, dijkstraWithBattery fuel detour 1 5 3 10 = Return res →
    success res = false.
Proof.
  split; [lia|]. split; [vm_compute; reflexivity|].
  intros fuel res Hres.
  assert (dijkstraWithBattery 6 detour 1 5 3 10 =
            Return (mkResult [] None None false
                      "No path exists within battery constraints")) as H6
    by (vm_compute; reflexivity).
  by rewrite (solver_fuel_agree _ _ _ _ _ _ _ _ _ Hres H6).
Qed.

Lemma nodeCount_nonzero g id : id ∈ nodeIds g → (Graph.getNodeCount g =? 0) = false.
Proof.
  intros Hs. apply Z.eqb_neq. unfold Graph.getNodeCount, nodeIds in *.
  destruct (Graph.nodes g); [|simpl; lia]. by apply elem_of_nil in Hs.
Qed.

(** C2, as stated, fails: on the graph [two_islands], from node 1 to node
    2, the main loop ends with the destination still at the sentinel, and
    the failure result has an empty path but carries no total distance and
    no total battery use at all, so neither of them is zero. *)
Lemma infeasible_totals_not_zero :
  1 ≠ 2 ∧ 1 ∈ nodeIds two_islands ∧ 2 ∈ nodeIds two_islands ∧
  (∃ st, loopEnd 2 two_islands 1 2 100 10 = Return st ∧
         map_at (distances st) 2 = INT_MAX) ∧
  ¬ ∃ res, dijkstraWithBattery 2 two_islands 1 2 100 10 = Return res ∧
      success res = false ∧ path res = [] ∧
      totalDistance res = Some 0 ∧ totalBatteryUsed res = Some 0.
Proof.
  split; [lia|].
  split; [vm_compute; repeat constructor|].
  split; [vm_compute; repeat constructor|].
  split.
  - eexists. split; [vm_compute; reflexivity|]. vm_compute. reflexivity.
  - intros (res & Hres & _ & _ & Hd & _).
    assert (dijkstraWithBattery 2 two_islands 1 2 100 10 =
              Return (mkResult [] None None false
                        "No path exists within battery constraints")) as H2
      by (vm_compute; reflexivity).
    rewrite H2 in Hres. injection Hres as <-. discriminate Hd.
Qed.

(** C2, amended.  With two different endpoints that are nodes of the
    graph, if the main loop ends with the distance of the destination still
    at the sentinel [INT_MAX], the solver returns the failure result: the
    success flag is false, the message says that no path exists within the
    battery constraints, the path is empty, and total distance and total
    battery use are left unassigned (they are assigned on success only). *)
Theorem infeasible_result (fuel : nat) (g : Graph.t)
    (source destination initialBattery mileage : Z) (st : SolverState) :
  source ≠ destination →
  source ∈ nodeIds g → destination ∈ nodeIds g →
  loopEnd fuel g source destination initialBattery mileage = Return st →
  map_at (distances st) destination = INT_MAX →
  dijkstraWithBattery fuel g source destination initialBattery mileage =
    Return (mkResult [] None None false
              "No path exists within battery constraints").
Proof.
  intros Hsd Hs Hd Hloop Hinf. unfold dijkstraWithBattery, loopEnd in *.
  rewrite (proj2 (Z.eqb_neq source destination)) by done.
  destruct (endpoints_checked g source destination)
    as [(_ & _ & ->)|([?|?] & _)]; [|done..].
  rewrite (nodeCount_nonzero g source Hs).
  destruct (initState g source) as [st0| | |]; try done.
  cbn [mbind outcome_bind] in *. rewrite Hloop. cbn [mbind outcome_bind].
  by rewrite Hinf, Z.eqb_refl.
Qed.

Lemma infeasible_result_witness :
  1 ≠ 2 ∧ 1 ∈ nodeIds two_islands ∧ 2 ∈ nodeIds two_islands ∧
  (∃ st, loopEnd 2 two_islands 1 2 100 10 = Return st ∧
         map_at (distances st) 2 = INT_MAX) ∧
  dijkstraWithBattery 2 two_islands 1 2 100 10 =
    Return (mkResult [] None None false
              "No path exists within battery constraints").
Proof.
  assert (1 ∈ nodeIds two_islands) as H1 by (vm_compute; repeat constructor).
  assert (2 ∈ nodeIds two_islands) as H2 by (vm_compute; repeat constructor).
  destruct (loopEnd 2 two_islands 1 2 100 10) as [st| | |] eqn:Hloop;
    try (vm_compute in Hloop; discriminate Hloop).
  assert (map_at (distances st) 2 = INT_MAX) as Hinf.
  { vm_compute in Hloop. injection Hloop as <-. vm_compute. reflexivity. }
  split; [lia|]. split; [exact H1|]. split; [exact H2|].
  split; [by exists st|].
  apply (infeasible_result 2 two_islands 1 2 100 10 st);
    [lia|exact H1|exact H2|exact Hloop|exact Hinf].
Defined.

(** C3: the code does not do what the claim says.  On a graph without
    nodes, with two different endpoints, the solver reports an invalid
    endpoint: the endpoint check comes before the test of the node count,
    which can therefore never fire (see
    [solver_never_reports_empty_graph]). *)
Theorem empty_graph_reports_invalid_endpoint (fuel : nat) (g : Graph.t)
    (source destination initialBattery mileage : Z) :
  Graph.getNodeCount g = 0 → source ≠ destination →
  dijkstraWithBattery fuel g source destination initialBattery mileage =
    Return (mkResult [] None None false "Invalid source or destination node").
Proof.
  intros Hn Hsd. apply solver_invalid_endpoint; [done|]. left.
  unfold nodeIds, Graph.getNodeCount in *.
  destruct (Graph.nodes g); [apply not_elem_of_nil|simpl in Hn; lia].
Qed.

Lemma empty_graph_reports_invalid_endpoint_witness :
  Graph.getNodeCount Graph.new = 0 ∧ 1 ≠ 2 ∧
  dijkstraWithBattery 5 Graph.new 1 2 100 10 =
    Return (mkResult [] None None false "Invalid source or destination node").
Proof.
  split; [reflexivity|]. split; [lia|].
  apply (empty_graph_reports_invalid_endpoint 5 Graph.new 1 2 100 10);
    [reflexivity|lia].
Defined.

(** [dijkstraRun] returns what [dijkstraWithBattery] returns, and the
    locals beside it. *)
Lemma dijkstraRun_result fuel g s d B r :
  dijkstraWithBattery fuel g s d B r =
    (pr ← dijkstraRun fuel g s d B r; Return pr.1).
Proof.
  unfold dijkstraWithBattery, dijkstraRun. destruct (s =? d); [done|].
  destruct (_ ← Graph.getNode g s; Graph.getNode g d) as [n|[]| |]; try done.
  destruct (_ =? 0); [done|].
  destruct (initState g s) as [st0| | |]; try done. cbn [mbind outcome_bind].
  destruct (mainLoop fuel g d B r st0) as [st| | |]; try done.
  cbn [mbind outcome_bind]. destruct (_ =? INT_MAX); [done|].
  by destruct (buildPath _ _ _ _).
Qed.

(** The locals are declared exactly in the runs with two different
    endpoints that are both nodes of the graph. *)
Lemma dijkstraRun_locals fuel g s d B r res locals :
  dijkstraRun fuel g s d B r = Return (res, locals) →
  locals = None ↔ s = d ∨ s ∉ nodeIds g ∨ d ∉ nodeIds g.
Proof.
  unfold dijkstraRun.
  destruct (Z.eqb_spec s d) as [->|Hsd]; [intros [= <- <-]; tauto|].
  destruct (endpoints_checked g s d) as [(Hs & Hd & ->)|(Habs & what & ->)];
    [|intros [= <- <-]; tauto].
  rewrite (nodeCount_nonzero g s Hs).
  destruct (initState g s) as [st0| | |]; try done. cbn [mbind outcome_bind].
  destruct (mainLoop fuel g d B r st0) as [st| | |]; try done.
  cbn [mbind outcome_bind].
  assert (Some st = None ↔ s = d ∨ s ∉ nodeIds g ∨ d ∉ nodeIds g) as Hiff
    by (split; [done|by intros [?|[?|?]]]).
  destruct (_ =? INT_MAX); [by intros [= <- <-]|].
  destruct (buildPath _ _ _ _); try done. by intros [= <- <-].
Qed.

(** C4, as stated, fails: node 7 is not in the graph [line3], yet solving
    from 7 to 7 succeeds with the one-node path, because the test for equal
    endpoints comes first. *)
Lemma absent_endpoint_trivial_success :
  (7 ∉ nodeIds line3) ∧
  dijkstraWithBattery 0 line3 7 7 100 10 =
    Return (mkResult [7] (Some 0) (Some 0) true
              "Source and destination are the same").
Proof.
  split; [|reflexivity]. vm_compute. intros H.
  repeat (apply elem_of_cons in H as [H|H]; [discriminate H|]).
  by apply elem_of_nil in H.
Qed.

(** C4, amended.  With two different endpoints of which one is not a node
    of the graph, the solver returns the failure result with the message
    for an invalid endpoint, an empty path and no totals, and it returns it
    before anything is computed: at that return the state maps and the
    queue are not yet declared, and the main loop is not entered, whatever
    the fuel. *)
Theorem invalid_endpoint_failure (fuel : nat) (g : Graph.t)
    (source destination initialBattery mileage : Z) :
  source ≠ destination →
  source ∉ nodeIds g ∨ destination ∉ nodeIds g →
  dijkstraWithBattery fuel g source destination initialBattery mileage =
    Return (mkResult [] None None false "Invalid source or destination node") ∧
  dijkstraRun fuel g source destination initialBattery mileage =
    Return (mkResult [] None None false "Invalid source or destination node",
            None).
Proof.
  intros Hsd Habs. split; [by apply solver_invalid_endpoint|].
  unfold dijkstraRun.
  destruct (Z.eqb_spec source destination) as [|_]; [done|].
  destruct (endpoints_checked g source destination)
    as [(Hs & Hd & _)|(_ & what & ->)]; [|done].
  by destruct Habs.
Qed.

Lemma invalid_endpoint_failure_witness :
  1 ≠ 7 ∧ (1 ∉ nodeIds line3 ∨ 7 ∉ nodeIds line3) ∧
  dijkstraWithBattery 0 line3 1 7 100 10 =
    Return (mkResult [] None None false "Invalid source or destination node") ∧
  dijkstraRun 0 line3 1 7 100 10 =
    Return (mkResult [] None None false "Invalid source or destination node",
            None).
Proof.
  assert (7 ∉ nodeIds line3) as H7.
  { vm_compute. intros H.
    repeat (apply elem_of_cons in H as [H|H]; [discriminate H|]).
    by apply elem_of_nil in H. }
  split; [lia|]. split; [by right|].
  apply (invalid_endpoint_failure 0 line3 1 7 100 10); [lia|by right].
Defined.

(** C5. With the source equal to the destination the solver returns a
    success with the path [[source]], total distance 0 and total battery
    use 0, for every graph, budget and rate. *)
Theorem trivial_path (fuel : nat) (g : Graph.t)
    (source initialBattery mileage : Z) :
  dijkstraWithBattery fuel g source source initialBattery mileage =
    Return (mkResult [source] (Some 0) (Some 0) true
              "Source and destination are the same").
Proof. unfold dijkstraWithBattery. by rewrite Z.eqb_refl. Qed.

(** C6. For an edge of weight [w >= 0] and a rate [r > 0] the battery
    charged for the edge is [max 1 (floor (w / r))]; it is exactly 1 when
    [w < r], and it is what a relaxation that is accepted adds to the
    battery use of the current node. *)
Theorem battery_floor (w r : Z) :
  0 ≤ w → 0 < r →
  batteryConsumption w r = Z.max 1 (w / r) ∧
  (w < r → batteryConsumption w r = 1) ∧
  ∀ B u v st st', relax B r u st (v, w) = Return st' →
    st' = st ∨
    map_at (batteryUsed st') v =
      int_add (map_at (batteryUsed st) u) (Z.max 1 (w / r)).
Proof.
  intros Hw Hr.
  assert (batteryConsumption w r = Z.max 1 (w / r)) as Hc.
  { unfold batteryConsumption. rewrite Z.quot_div_nonneg by lia.
    destruct (Z.ltb_spec (w / r) 1); lia. }
  split; [done|]. split.
  - intros Hlt. rewrite Hc, Z.div_small by lia. lia.
  - intros B u v st st'. unfold relax. cbn [fst snd].
    rewrite int_div_defined_pos by done. cbn [negb]. rewrite Hc.
    destruct (_ && _); [|intros [= <-]; by left].
    destruct (if MinHeap.contains _ _ then _ else _) as [h| | |]; try done.
    intros [= <-]. right. unfold map_at at 1. simpl.
    by rewrite lookup_insert_eq.
Qed.

Lemma battery_floor_witness :
  0 ≤ 3 ∧ 0 < 10 ∧ batteryConsumption 3 10 = Z.max 1 (3 / 10) ∧
  batteryConsumption 3 10 = 1.
Proof.
  destruct (battery_floor 3 10 ltac:(lia) ltac:(lia)) as (H1 & H2 & _).
  split; [lia|]. split; [lia|]. split; [exact H1|]. apply H2. lia.
Defined.

(** C7. On the graph with the nodes 1, 2, 3 and the edges (1,2) and (2,3)
    of weight 10, solving from 1 to 3 at rate 10 with budget 2 succeeds with
    the path [[1; 2; 3]], total distance 20 and total battery use 2, as soon
    as the fuel covers the four steps of the longest loop. *)
Theorem line3_scenario (k : nat) :
  dijkstraWithBattery (4 + k) line3 1 3 2 10 =
    Return (mkResult [1; 2; 3] (Some 20) (Some 2) true "Path found successfully").
Proof. apply solver_more_fuel. vm_compute. reflexivity. Qed.

(** C10. [Graph::getNeighbors] has no error exit, and for a node id
    without an entry in the adjacency list (which includes every id that
    was never added to the graph) it returns the empty sequence. *)
Theorem getNeighbors_no_entry (g : Graph.t) (node : Z) :
  Graph.adjacencyList g !! node = None → Graph.getNeighbors g node = [].
Proof. intros H. unfold Graph.getNeighbors. by rewrite H. Qed.

Lemma getNeighbors_no_entry_witness :
  Graph.adjacencyList line3 !! 9 = None ∧ Graph.getNeighbors line3 9 = [].
Proof.
  split; [vm_compute; reflexivity|].
  apply (getNeighbors_no_entry line3 9). vm_compute. reflexivity.
Defined.

Lemma heap_inv_preserved_witness :
  heap_inv heap_53 ∧
  (∃ h', MinHeap.addNode 7 4 heap_53 = Return h' ∧ heap_inv h') ∧
  heap_inv (MinHeap.clear heap_53).
Proof.
  assert (heap_inv heap_53) as Hinv.
  { pose proof (do_calls_inv [Insert 1 5; Insert 2 3] MinHeap.new heap_inv_new) as H.
    rewrite heap_53_built in H. exact H. }
  split; [exact Hinv|].
  destruct (heap_inv_preserved heap_53 Hinv) as (Hadd & _ & _ & Hclear).
  split; [apply Hadd | exact Hclear].
Defined.

(** * Further properties of the code *)

(** ** The queue as a map from node ids to priorities *)

Section heap_priorities.
Implicit Types (l : list HeapNode) (m : gmap Z nat) (i j k : nat).

Lemma priorityOf_entry l m i n :
  index_consistent l m → l !! i = Some n →
  priorityOf (MinHeap.mk l m) (nodeId n) = Some (distance n).
Proof.
  intros Hc Hn. unfold priorityOf. simpl.
  rewrite (index_consistent_lookup _ _ _ _ Hc Hn). simpl. by rewrite Hn.
Qed.

Lemma priorityOf_Some l m id d :
  index_consistent l m → priorityOf (MinHeap.mk l m) id = Some d →
  ∃ i n, l !! i = Some n ∧ nodeId n = id ∧ distance n = d.
Proof.
  intros Hc. unfold priorityOf. simpl.
  destruct (m !! id) as [i|] eqn:Hm; [|done]. simpl.
  destruct (l !! i) as [n|] eqn:Hn; [|done]. simpl. intros [= <-].
  apply Hc in Hm as (n' & Hn' & Hid). exists i, n. split_and!; congruence.
Qed.

Lemma priorityOf_None l m id :
  index_consistent l m →
  (priorityOf (MinHeap.mk l m) id = None ↔ m !! id = None).
Proof.
  intros Hc. unfold priorityOf. simpl.
  destruct (m !! id) as [i|] eqn:Hm; [|done]. simpl.
  apply Hc in Hm as (n & -> & _). done.
Qed.

Lemma priorityOf_swapped l m i j a b id :
  index_consistent l m → l !! i = Some a → l !! j = Some b → i ≠ j →
  priorityOf (MinHeap.mk (swapped l i j a b)
                (<[nodeId a := j]> (<[nodeId b := i]> m))) id =
  priorityOf (MinHeap.mk l m) id.
Proof.
  intros Hc Hi Hj Hne.
  pose proof (index_consistent_lookup _ _ _ _ Hc Hi) as Hma.
  pose proof (index_consistent_lookup _ _ _ _ Hc Hj) as Hmb.
  unfold priorityOf. simpl. rewrite !lookup_insert.
  destruct (decide (nodeId a = id)) as [<-|Ha].
  { simpl. rewrite (swapped_lookup l i j a b), decide_True by done.
    rewrite Hma. simpl. by rewrite Hi. }
  destruct (decide (nodeId b = id)) as [<-|Hb].
  { simpl. rewrite (swapped_lookup l i j a b) by done.
    rewrite decide_False, decide_True by done.
    rewrite Hmb. simpl. by rewrite Hj. }
  destruct (m !! id) as [x|] eqn:Hm; [|done]. simpl.
  rewrite (swapped_lookup l i j a b) by done.
  rewrite !decide_False; [done| |].
  - intros ->. apply Ha. by eapply index_consistent_inj.
  - intros ->. apply Hb. by eapply index_consistent_inj.
Qed.

Lemma bubbleUp_rec_priority fuel : ∀ k l m h',
  index_consistent l m →
  MinHeap.bubbleUp_rec fuel k (MinHeap.mk l m) = Return h' →
  ∀ id, priorityOf h' id = priorityOf (MinHeap.mk l m) id.
Proof.
  induction fuel as [|fuel IH]; intros k l m h' Hc; [done|].
  cbn [MinHeap.bubbleUp_rec MinHeap.heap].
  destruct (Nat.eqb_spec k 0) as [->|Hk0]; [by intros [= <-]|].
  pose proof (parent_child k Hk0) as Hch.
  set (p := ((k - 1) / 2)%nat) in *. clearbody p.
  unfold vec_at. destruct (l !! k) as [nk|] eqn:Hnk; [|done].
  cbn [mbind outcome_bind].
  destruct (l !! p) as [np|] eqn:Hnp; [|done]. cbn [mbind outcome_bind].
  destruct (gt nk np); [by intros [= <-]|].
  rewrite (swapNodes_eq l m k p nk np) by done. cbn [mbind outcome_bind].
  assert (k ≠ p) as Hkp by (unfold child in Hch; lia).
  intros Hb id. rewrite (IH _ _ _ _ (index_consistent_swapped _ _ _ _ _ _ Hc Hnk Hnp Hkp) Hb).
  by apply priorityOf_swapped.
Qed.

Lemma bubbleDown_rec_priority fuel : ∀ k l m h',
  index_consistent l m →
  MinHeap.bubbleDown_rec fuel k (MinHeap.mk l m) = Return h' →
  ∀ id, priorityOf h' id = priorityOf (MinHeap.mk l m) id.
Proof.
  induction fuel as [|fuel IH]; intros k l m h' Hc; [done|].
  cbn [MinHeap.bubbleDown_rec MinHeap.heap].
  destruct (l !! k) as [nk|] eqn:Hnk; cycle 1.
  { (* slot [k] outside the array: both comparisons fail or are undefined *)
    apply lookup_ge_None_1 in Hnk as Hlen.
    rewrite (proj2 (Nat.ltb_ge (2 * k + 1) (length l))) by lia.
    cbn [mbind outcome_bind].
    rewrite (proj2 (Nat.ltb_ge (2 * k + 2) (length l))) by lia.
    cbn [mbind outcome_bind]. rewrite Nat.eqb_refl. by intros [= <-]. }
  destruct (pick_child l (2 * k + 1) k nk Hnk)
    as (s1 & n1 & -> & Hs1 & Hn1 & _ & _).
  cbn [mbind outcome_bind].
  destruct (pick_child l (2 * k + 2) s1 n1 Hn1)
    as (s2 & n2 & -> & Hs2 & Hn2 & _ & _).
  cbn [mbind outcome_bind].
  destruct (Nat.eqb_spec s2 k) as [->|Hne]; cbn [negb]; [by intros [= <-]|].
  rewrite (swapNodes_eq l m k s2 nk n2) by done. cbn [mbind outcome_bind].
  assert (k ≠ s2) as Hks by done.
  intros Hb id. rewrite (IH _ _ _ _ (index_consistent_swapped _ _ _ _ _ _ Hc Hnk Hn2 Hks) Hb).
  by apply priorityOf_swapped.
Qed.

End heap_priorities.

Section heap_operations.
Implicit Types (l : list HeapNode) (m : gmap Z nat) (i j k : nat).

Lemma lookup_set_priority l k n d x :
  l !! k = Some n →
  <[k := mkHeapNode (nodeId n) d]> l !! x =
    if decide (x = k) then Some (mkHeapNode (nodeId n) d) else l !! x.
Proof.
  intros Hn. apply lookup_lt_Some in Hn as Hlen.
  rewrite list_lookup_insert. repeat case_decide; try done; naive_solver lia.
Qed.

Lemma index_consistent_set_priority l m k n d :
  index_consistent l m → l !! k = Some n →
  index_consistent (<[k := mkHeapNode (nodeId n) d]> l) m.
Proof.
  intros Hc Hn id i. rewrite (lookup_set_priority l k n d i Hn).
  specialize (Hc id i). case_decide; subst; [|done].
  rewrite Hc, Hn. naive_solver.
Qed.

Lemma lookup_push_back l (n : HeapNode) x :
  (l ++ [n]) !! x = if decide (x = length l) then Some n else l !! x.
Proof.
  case_decide; subst.
  - by rewrite lookup_app_r, Nat.sub_diag.
  - destruct (decide (x < length l)%nat).
    + by rewrite lookup_app_l.
    + rewrite !lookup_ge_None_2; [done|lia|rewrite length_app; simpl; lia].
Qed.

Lemma index_consistent_push_back l m id d :
  index_consistent l m → m !! id = None →
  index_consistent (l ++ [mkHeapNode id d]) (<[id := length l]> m).
Proof.
  intros Hc Hm id' i. rewrite lookup_push_back, lookup_insert.
  assert (∀ x n, l !! x = Some n → nodeId n ≠ id) as Hfresh.
  { intros x n Hn <-. apply (index_consistent_lookup _ _ _ _ Hc) in Hn.
    congruence. }
  assert (m !! id' = Some (length l) → False) as Hlast.
  { intros Hi. apply Hc in Hi as (n & Hn & _).
    apply lookup_lt_Some in Hn. lia. }
  specialize (Hc id' i). repeat case_decide; subst; naive_solver.
Qed.

Lemma lookup_pop_root l back x :
  take (length l - 1) (<[0%nat := back]> l) !! x =
    if decide (x < length l - 1)%nat
    then (if decide (x = 0%nat) then Some back else l !! x) else None.
Proof.
  rewrite lookup_take, list_lookup_insert.
  repeat case_decide; try done; naive_solver lia.
Qed.

Lemma index_consistent_pop_root l m root back :
  index_consistent l m → l !! 0%nat = Some root →
  l !! (length l - 1)%nat = Some back → length l ≠ 1%nat →
  index_consistent (take (length l - 1) (<[0%nat := back]> l))
    (<[nodeId back := 0%nat]> (delete (nodeId root) m)).
Proof.
  intros Hc Hroot Hback H1 id i.
  apply lookup_lt_Some in Hroot as Hlen.
  rewrite lookup_pop_root, lookup_insert, lookup_delete.
  pose proof (index_consistent_lookup _ _ _ _ Hc Hroot) as Hmroot.
  pose proof (index_consistent_lookup _ _ _ _ Hc Hback) as Hmback.
  assert (∀ x n, l !! x = Some n → nodeId n = nodeId back → x = (length l - 1)%nat)
    as Uback.
  { intros x n Hn E. apply (index_consistent_lookup _ _ _ _ Hc) in Hn.
    rewrite E in Hn. congruence. }
  assert (∀ x n, l !! x = Some n → nodeId n = nodeId root → x = 0%nat) as Uroot.
  { intros x n Hn E. apply (index_consistent_lookup _ _ _ _ Hc) in Hn.
    rewrite E in Hn. congruence. }
  split.
  - intros Hi. destruct (decide (nodeId back = id)) as [<-|Hnb].
    { injection Hi as <-. exists back. by rewrite !decide_True by lia. }
    destruct (decide (nodeId root = id)) as [<-|Hnr]; [done|].
    apply Hc in Hi as (n & Hn & Hid). exists n. split; [|done].
    pose proof (lookup_lt_Some _ _ _ Hn).
    assert (i ≠ 0%nat) by (intros ->; congruence).
    assert (i ≠ (length l - 1)%nat) by (intros ->; congruence).
    by rewrite decide_True, decide_False by lia.
  - intros (n & Hn & Hid).
    destruct (decide (i < length l - 1)%nat) as [Hil|]; [|done].
    destruct (decide (i = 0%nat)) as [->|Hi0].
    { injection Hn as <-. by rewrite decide_True. }
    assert (nodeId back ≠ id).
    { intros E. pose proof (Uback _ _ Hn ltac:(congruence)). lia. }
    assert (nodeId root ≠ id).
    { intros E. pose proof (Uroot _ _ Hn ltac:(congruence)). lia. }
    rewrite !decide_False by done. apply Hc. eauto.
Qed.

Lemma decreaseKey_priority h id d h' :
  heap_inv h → MinHeap.decreaseKey id d h = Return h' →
  ∃ old, priorityOf h id = Some old ∧
    ∀ id', priorityOf h' id' =
      if decide (id' = id) then Some (Z.min d old) else priorityOf h id'.
Proof.
  destruct h as [l m]. intros [Ho Hc]. simpl in *.
  unfold MinHeap.decreaseKey. simpl.
  destruct (m !! id) as [k|] eqn:Hm; [|done].
  pose proof Hm as Hk. apply Hc in Hk as (n & Hn & Hid).
  unfold vec_at. rewrite Hn. cbn [mbind outcome_bind].
  assert (priorityOf (MinHeap.mk l m) id = Some (distance n)) as Hold.
  { rewrite <- Hid. by eapply priorityOf_entry. }
  exists (distance n). split; [done|].
  destruct (Z.geb_spec d (distance n)) as [Hge|Hlt].
  { injection H as <-. intros id'. case_decide; subst; [|done].
    rewrite Hold. f_equal. lia. }
  unfold MinHeap.bubbleUp in H.
  intros id'.
  rewrite (bubbleUp_rec_priority _ _ _ _ _
             (index_consistent_set_priority l m k n d Hc Hn) H).
  unfold priorityOf. simpl. case_decide; subst.
  - rewrite Hm. simpl. rewrite (lookup_set_priority l k n d k Hn), decide_True by done.
    simpl. f_equal. lia.
  - destruct (m !! id') as [x|] eqn:Hm'; [|done]. simpl.
    rewrite (lookup_set_priority l k n d x Hn), decide_False; [done|].
    intros ->. apply H0. by eapply index_consistent_inj.
Qed.

Lemma addNode_fresh_priority h id d h' :
  heap_inv h → MinHeap.nodeToIndex h !! id = None →
  MinHeap.addNode id d h = Return h' →
  ∀ id', priorityOf h' id' =
    if decide (id' = id) then Some d else priorityOf h id'.
Proof.
  destruct h as [l m]. intros [Ho Hc] Hm. simpl in *.
  unfold MinHeap.addNode, MinHeap.contains. simpl.
  rewrite bool_decide_eq_false_2 by (rewrite Hm; by intros [??]).
  rewrite length_app. simpl. replace (length l + 1 - 1)%nat with (length l) by lia.
  unfold MinHeap.bubbleUp. intros Hb id'.
  rewrite (bubbleUp_rec_priority _ _ _ _ _
             (index_consistent_push_back l m id d Hc Hm) Hb).
  unfold priorityOf. simpl. rewrite lookup_insert. case_decide; subst.
  - rewrite decide_True by done. simpl.
    by rewrite lookup_push_back, decide_True.
  - rewrite decide_False by done.
    destruct (m !! id') as [x|] eqn:Hm'; [|done]. simpl.
    rewrite lookup_push_back, decide_False; [done|].
    intros ->. apply Hc in Hm' as (n & Hn & _).
    apply lookup_lt_Some in Hn. lia.
Qed.

Lemma deleteRoot_priority h root h' :
  heap_inv h → MinHeap.deleteRoot h = Return (root, h') →
  priorityOf h (nodeId root) = Some (distance root) ∧
  ∀ id', priorityOf h' id' =
    if decide (id' = nodeId root) then None else priorityOf h id'.
Proof.
  destruct h as [l m]. intros [Ho Hc]. simpl in *.
  unfold MinHeap.deleteRoot, MinHeap.isEmpty. simpl.
  destruct l as [|r0 l0] eqn:El; [done|]. rewrite <- El in *.
  assert (l !! 0%nat = Some r0) as Hroot by (by rewrite El).
  assert (0 < length l)%nat as Hlen by (rewrite El; simpl; lia).
  assert (vec_at l 0 = Return r0) as -> by (unfold vec_at; by rewrite Hroot).
  cbn [mbind outcome_bind].
  pose proof (index_consistent_lookup _ _ _ _ Hc Hroot) as Hmroot.
  destruct (Nat.eqb_spec (length l) 1) as [H1|H1].
  { intros [= <- <-]. split; [by eapply priorityOf_entry|].
    intros id'. unfold priorityOf at 1. simpl. rewrite lookup_empty. simpl.
    case_decide; [done|]. symmetry. apply priorityOf_None; [done|].
    destruct (m !! id') as [i|] eqn:Hm; [|done].
    apply Hc in Hm as (n & Hn & Hid). apply lookup_lt_Some in Hn as Hi.
    assert (i = 0%nat) as -> by lia. congruence. }
  destruct (lookup_lt_is_Some_2 l (length l - 1) ltac:(lia)) as [back Hback].
  assert (vec_at l (length l - 1) = Return back) as ->
    by (unfold vec_at; by rewrite Hback).
  cbn [mbind outcome_bind].
  unfold vec_at at 1. rewrite lookup_pop_root, !decide_True by lia.
  cbn [mbind outcome_bind].
  destruct (MinHeap.bubbleDown _ _) as [h1| | |] eqn:Hb; try done.
  cbn [mbind outcome_bind]. intros [= <- <-].
  split; [by eapply priorityOf_entry|].
  pose proof (index_consistent_lookup _ _ _ _ Hc Hback) as Hmback.
  unfold MinHeap.bubbleDown in Hb. intros id'.
  rewrite (bubbleDown_rec_priority _ _ _ _ _
             (index_consistent_pop_root l m r0 back Hc Hroot Hback H1) Hb).
  unfold priorityOf. simpl. rewrite lookup_insert, lookup_delete.
  destruct (decide (id' = nodeId r0)) as [->|Hr].
  - rewrite decide_False, decide_True; [done..|].
    intros E. rewrite E in Hmback. assert (length l - 1 = 0)%nat by congruence. lia.
  - destruct (decide (nodeId back = id')) as [<-|Hbk].
    + simpl. rewrite lookup_pop_root, !decide_True by lia.
      rewrite Hmback. simpl. by rewrite Hback.
    + rewrite decide_False by done.
      destruct (m !! id') as [x|] eqn:Hm'; [|done]. simpl.
      pose proof Hm' as Hx. apply Hc in Hx as (n & Hn & Hid).
      pose proof (lookup_lt_Some _ _ _ Hn).
      assert (x ≠ 0%nat) by (intros ->; congruence).
      assert (x ≠ (length l - 1)%nat) by (intros ->; congruence).
      by rewrite lookup_pop_root, decide_True, decide_False by lia.
Qed.

End heap_operations.

Lemma heap_53_inv : heap_inv heap_53.
Proof.
  pose proof (do_calls_inv [Insert 1 5; Insert 2 3] MinHeap.new heap_inv_new) as H.
  by rewrite heap_53_built in H.
Qed.

Lemma heap_5_inv : heap_inv heap_5.
Proof.
  pose proof (do_calls_inv [Insert 1 5] MinHeap.new heap_inv_new) as H.
  assert (do_calls [Insert 1 5] MinHeap.new = Return heap_5) as E
    by (vm_compute; reflexivity).
  by rewrite E in H.
Qed.

Lemma contains_priorityOf h id :
  heap_inv h →
  MinHeap.contains h id = bool_decide (is_Some (priorityOf h id)).
Proof.
  destruct h as [l m]. intros [_ Hc]. unfold MinHeap.contains. simpl in *.
  apply bool_decide_ext. rewrite <- !not_eq_None_Some.
  by rewrite priorityOf_None.
Qed.

Lemma getDistance_priorityOf h id :
  heap_inv h →
  MinHeap.getDistance h id =
    match priorityOf h id with
    | Some d => Return d
    | None => Throw (invalid_argument "Node not found in heap")
    end.
Proof.
  destruct h as [l m]. intros [_ Hc]. unfold MinHeap.getDistance, priorityOf.
  simpl in *. destruct (m !! id) as [i|] eqn:Hm; [|done]. simpl.
  apply Hc in Hm as (n & Hn & _). unfold vec_at. by rewrite Hn.
Qed.

(** Two queues that queue the same nodes under the same priorities answer
    [contains] and [getDistance] alike. *)
Lemma same_priority_same_answers h h' id :
  heap_inv h → heap_inv h' → priorityOf h' id = priorityOf h id →
  MinHeap.getDistance h' id = MinHeap.getDistance h id ∧
  MinHeap.contains h' id = MinHeap.contains h id.
Proof.
  intros Hi Hi' E. by rewrite !getDistance_priorityOf, !contains_priorityOf, E.
Qed.

(** ** What the queue's operations do to its contents *)

(** [getDistance] on a queue that satisfies the invariant: for a queued
    node it returns the priority of the one entry that carries the node's
    id, for any other id it throws [invalid_argument]; it never reads
    outside the array. *)
Theorem getDistance_contains (h : MinHeap.t) (id : Z) :
  heap_inv h →
  if MinHeap.contains h id
  then ∃ n, n ∈ MinHeap.heap h ∧ nodeId n = id ∧
         MinHeap.getDistance h id = Return (distance n)
  else MinHeap.getDistance h id =
         Throw (invalid_argument "Node not found in heap").
Proof.
  intros Hinv. rewrite getDistance_priorityOf, contains_priorityOf by done.
  destruct h as [l m]. destruct Hinv as [_ Hc]. simpl in Hc.
  destruct (priorityOf _ id) as [d|] eqn:Hp.
  - rewrite bool_decide_eq_true_2 by eauto.
    apply priorityOf_Some in Hp as (i & n & Hn & Hid & Hd); [|done].
    exists n. split_and!; [by eapply list_elem_of_lookup_2|done|by rewrite Hd].
  - by rewrite bool_decide_eq_false_2 by (by intros [??]).
Qed.

Lemma getDistance_contains_witness :
  heap_inv heap_53 ∧
  ∃ n, n ∈ MinHeap.heap heap_53 ∧ nodeId n = 1 ∧
    MinHeap.getDistance heap_53 1 = Return (distance n).
Proof.
  split; [exact heap_53_inv|].
  exact (getDistance_contains heap_53 1 heap_53_inv).
Defined.

Lemma heap_inv_NoDup (h : MinHeap.t) :
  heap_inv h → NoDup (nodeId <$> MinHeap.heap h).
Proof.
  destruct h as [l m]. intros [_ Hc]. simpl in *. apply NoDup_alt.
  intros i j id. rewrite !list_lookup_fmap.
  destruct (l !! i) as [ni|] eqn:Hi; [|done].
  destruct (l !! j) as [nj|] eqn:Hj; [|done]. simpl. intros [= E1] [= E2].
  pose proof (index_consistent_lookup _ _ _ _ Hc Hi) as Hmi.
  pose proof (index_consistent_lookup _ _ _ _ Hc Hj) as Hmj.
  rewrite E1 in Hmi. rewrite E2 in Hmj. congruence.
Qed.

Lemma do_operations_inv os : ∀ h,
  heap_inv h → ∀ h', do_operations os h = Return h' → heap_inv h'.
Proof.
  induction os as [|o os IH]; intros h Hinv h'; simpl; [by intros [= <-]|].
  destruct o as [c|]; simpl.
  - pose proof (do_call_inv c h Hinv) as Hc.
    destruct (do_call c h) as [h1| | |]; simpl; try done. by apply IH.
  - pose proof (deleteRoot_min h Hinv) as Hd.
    destruct (MinHeap.isEmpty h).
    + by rewrite Hd.
    + destruct Hd as (root & h1 & -> & _ & _ & _ & Hinv1). simpl. by apply IH.
Qed.

(** The queue never holds a node id twice: whatever calls of [addNode],
    [decreaseKey] and [deleteRoot] are made on a new queue, in whatever
    order and with whatever arguments, if they all return then the node ids
    in the heap array are pairwise different and the queue has as many
    entries as its index has keys. *)
Theorem queue_ids_distinct (os : list operation) (h : MinHeap.t) :
  do_operations os MinHeap.new = Return h →
  NoDup (nodeId <$> MinHeap.heap h) ∧
  MinHeap.size h = size (dom (MinHeap.nodeToIndex h)).
Proof.
  intros Hos. pose proof (do_operations_inv os _ heap_inv_new h Hos) as Hinv.
  pose proof (heap_inv_NoDup h Hinv) as Hnd. split; [done|].
  unfold MinHeap.size. rewrite <- (length_fmap nodeId).
  rewrite <- (size_list_to_set (C := gset Z)) by done. f_equal.
  destruct h as [l m]. destruct Hinv as [_ Hc]. simpl in *.
  apply set_eq. intros id. rewrite elem_of_list_to_set, elem_of_dom.
  rewrite list_elem_of_fmap. split.
  - intros (n & -> & [i Hi]%list_elem_of_lookup). exists i. apply Hc. eauto.
  - intros [i Hi]. apply Hc in Hi as (n & Hn & <-). exists n. split; [done|].
    by eapply list_elem_of_lookup_2.
Qed.

Lemma queue_ids_distinct_witness :
  do_operations [Change (Insert 1 5); Change (Insert 2 7); Change (Insert 1 4);
                 Change (DecreasePriority 2 3); DeleteRoot; Change (Insert 3 9)]
    MinHeap.new =
    Return (MinHeap.mk [mkHeapNode 1 4; mkHeapNode 3 9]
              (<[3 := 1%nat]> (<[1 := 0%nat]> ∅))) ∧
  NoDup (nodeId <$> [mkHeapNode 1 4; mkHeapNode 3 9]) ∧
  2%nat = size (dom (<[3 := 1%nat]> (<[1 := 0%nat]> (∅ : gmap Z nat)))).
Proof.
  assert (do_operations
            [Change (Insert 1 5); Change (Insert 2 7); Change (Insert 1 4);
             Change (DecreasePriority 2 3); DeleteRoot; Change (Insert 3 9)]
            MinHeap.new =
          Return (MinHeap.mk [mkHeapNode 1 4; mkHeapNode 3 9]
                    (<[3 := 1%nat]> (<[1 := 0%nat]> ∅)))) as Hos
    by (vm_compute; reflexivity).
  split; [exact Hos|].
  exact (queue_ids_distinct _ _ Hos).
Defined.

(** Inserting a node that is not queued: the call returns, the node is
    queued under the given priority, the queue has one entry more, and
    every other node is queued or not, and under the same priority, as
    before. *)
Theorem addNode_new_node (h : MinHeap.t) (id d : Z) :
  heap_inv h → MinHeap.contains h id = false →
  ∃ h', MinHeap.addNode id d h = Return h' ∧
    MinHeap.contains h' id = true ∧
    MinHeap.getDistance h' id = Return d ∧
    MinHeap.size h' = S (MinHeap.size h) ∧
    ∀ id', id' ≠ id →
      MinHeap.contains h' id' = MinHeap.contains h id' ∧
      MinHeap.getDistance h' id' = MinHeap.getDistance h id'.
Proof.
  intros Hinv Hc.
  assert (MinHeap.nodeToIndex h !! id = None) as Hm.
  { unfold MinHeap.contains in Hc. apply bool_decide_eq_false in Hc.
    by apply eq_None_not_Some. }
  destruct (addNode_fresh h id d Hinv Hm) as (h' & Ha & Hinv' & _ & Hlen).
  pose proof (addNode_fresh_priority h id d h' Hinv Hm Ha) as Hp.
  exists h'. split_and!; try done.
  - rewrite contains_priorityOf, Hp, decide_True by done.
    by apply bool_decide_eq_true_2.
  - by rewrite getDistance_priorityOf, Hp, decide_True.
  - intros id' Hne. pose proof (Hp id') as Hp'. rewrite decide_False in Hp' by done.
    split; by apply same_priority_same_answers.
Qed.

Lemma addNode_new_node_witness :
  heap_inv heap_53 ∧ MinHeap.contains heap_53 7 = false ∧
  ∃ h', MinHeap.addNode 7 4 heap_53 = Return h' ∧
    MinHeap.contains h' 7 = true ∧
    MinHeap.getDistance h' 7 = Return 4 ∧
    MinHeap.size h' = S (MinHeap.size heap_53) ∧
    ∀ id', id' ≠ 7 →
      MinHeap.contains h' id' = MinHeap.contains heap_53 id' ∧
      MinHeap.getDistance h' id' = MinHeap.getDistance heap_53 id'.
Proof.
  split; [exact heap_53_inv|]. split; [reflexivity|].
  apply (addNode_new_node heap_53 7 4 heap_53_inv). reflexivity.
Defined.

Lemma deleteRoot_Return h root h' :
  heap_inv h → MinHeap.deleteRoot h = Return (root, h') →
  MinHeap.heap h !! 0%nat = Some root ∧ heap_inv h' ∧
  length (MinHeap.heap h') = (length (MinHeap.heap h) - 1)%nat ∧
  Forall (λ n, distance root ≤ distance n) (MinHeap.heap h).
Proof.
  intros Hinv Hd.
  assert (MinHeap.heap h ≠ []) as Hne.
  { intros E. rewrite (deleteRoot_empty h E) in Hd. done. }
  destruct (deleteRoot_nonempty h Hinv Hne)
    as (root0 & h0 & Hd0 & Hroot & Hinv' & _ & Hlen).
  rewrite Hd0 in Hd. injection Hd as -> ->. split_and!; try done.
  apply Forall_forall. intros n [i Hn]%list_elem_of_lookup.
  destruct Hinv as [Ho _]. by eapply heap_ordered_root.
Qed.

(** Lowering the priority of a queued node, by [decreaseKey] or by
    [addNode] (which on a queued node is the same call): the queue keeps its
    size, so no second entry is made for the node; the node's priority
    becomes the smaller of the old and the given one, so it never goes up;
    every other node is queued or not, and under the same priority, as
    before. *)
Theorem decreaseKey_queued_node (h : MinHeap.t) (id d : Z) :
  heap_inv h → MinHeap.contains h id = true →
  ∃ h' old, MinHeap.getDistance h id = Return old ∧
    MinHeap.decreaseKey id d h = Return h' ∧
    MinHeap.addNode id d h = Return h' ∧
    MinHeap.getDistance h' id = Return (Z.min d old) ∧
    MinHeap.size h' = MinHeap.size h ∧
    ∀ id', id' ≠ id →
      MinHeap.contains h' id' = MinHeap.contains h id' ∧
      MinHeap.getDistance h' id' = MinHeap.getDistance h id'.
Proof.
  intros Hinv Hc.
  assert (∃ k, MinHeap.nodeToIndex h !! id = Some k) as [k Hm].
  { unfold MinHeap.contains in Hc. by apply bool_decide_eq_true in Hc. }
  destruct (decreaseKey_present h id d k Hinv Hm) as (h' & Hd & Hinv' & _ & Hlen).
  destruct (decreaseKey_priority h id d h' Hinv Hd) as (old & Hold & Hp).
  exists h', old. split_and!; try done.
  - by rewrite getDistance_priorityOf, Hold.
  - unfold MinHeap.addNode. by rewrite Hc.
  - by rewrite getDistance_priorityOf, Hp, decide_True.
  - intros id' Hne. pose proof (Hp id') as Hp'. rewrite decide_False in Hp' by done.
    split; by apply same_priority_same_answers.
Qed.

Lemma decreaseKey_queued_node_witness :
  heap_inv heap_53 ∧ MinHeap.contains heap_53 1 = true ∧
  ∃ h' old, MinHeap.getDistance heap_53 1 = Return old ∧
    MinHeap.decreaseKey 1 2 heap_53 = Return h' ∧
    MinHeap.addNode 1 2 heap_53 = Return h' ∧
    MinHeap.getDistance h' 1 = Return (Z.min 2 old) ∧
    MinHeap.size h' = MinHeap.size heap_53 ∧
    ∀ id', id' ≠ 1 →
      MinHeap.contains h' id' = MinHeap.contains heap_53 id' ∧
      MinHeap.getDistance h' id' = MinHeap.getDistance heap_53 id'.
Proof.
  split; [exact heap_53_inv|]. split; [reflexivity|].
  apply (decreaseKey_queued_node heap_53 1 2 heap_53_inv). reflexivity.
Defined.

(** What [deleteRoot] removes: the queue has one entry less, the node it
    returns was queued under the priority it is returned with and is no
    longer queued, and every other node is queued or not, and under the same
    priority, as before. *)
Theorem deleteRoot_removes_root_only (h : MinHeap.t) (root : HeapNode)
    (h' : MinHeap.t) :
  heap_inv h → MinHeap.deleteRoot h = Return (root, h') →
  MinHeap.size h' = (MinHeap.size h - 1)%nat ∧
  MinHeap.getDistance h (nodeId root) = Return (distance root) ∧
  MinHeap.contains h' (nodeId root) = false ∧
  ∀ id', id' ≠ nodeId root →
    MinHeap.contains h' id' = MinHeap.contains h id' ∧
    MinHeap.getDistance h' id' = MinHeap.getDistance h id'.
Proof.
  intros Hinv Hd.
  destruct (deleteRoot_Return h root h' Hinv Hd) as (_ & Hinv' & Hlen & _).
  destruct (deleteRoot_priority h root h' Hinv Hd) as (Hroot & Hp).
  split_and!; try done.
  - by rewrite getDistance_priorityOf, Hroot.
  - rewrite contains_priorityOf, Hp, decide_True by done.
    apply bool_decide_eq_false_2. by intros [??].
  - intros id' Hne. pose proof (Hp id') as Hp'. rewrite decide_False in Hp' by done.
    split; by apply same_priority_same_answers.
Qed.

Lemma deleteRoot_removes_root_only_witness :
  heap_inv heap_53 ∧
  MinHeap.deleteRoot heap_53 = Return (mkHeapNode 2 3, heap_5) ∧
  MinHeap.size heap_5 = (MinHeap.size heap_53 - 1)%nat ∧
  MinHeap.getDistance heap_53 2 = Return 3 ∧
  MinHeap.contains heap_5 2 = false ∧
  ∀ id', id' ≠ 2 →
    MinHeap.contains heap_5 id' = MinHeap.contains heap_53 id' ∧
    MinHeap.getDistance heap_5 id' = MinHeap.getDistance heap_53 id'.
Proof.
  assert (MinHeap.deleteRoot heap_53 = Return (mkHeapNode 2 3, heap_5)) as Hd
    by (vm_compute; reflexivity).
  split; [exact heap_53_inv|]. split; [exact Hd|].
  exact (deleteRoot_removes_root_only heap_53 (mkHeapNode 2 3) heap_5
           heap_53_inv Hd).
Defined.

(** Two extractions in a row come out in non-decreasing priority order. *)
Theorem deleteRoot_twice_ordered (h : MinHeap.t) (r1 r2 : HeapNode)
    (h1 h2 : MinHeap.t) :
  heap_inv h →
  MinHeap.deleteRoot h = Return (r1, h1) →
  MinHeap.deleteRoot h1 = Return (r2, h2) →
  distance r1 ≤ distance r2.
Proof.
  intros Hinv Hd1 Hd2.
  destruct (deleteRoot_Return h r1 h1 Hinv Hd1) as (_ & Hinv1 & _ & Hmin).
  destruct (deleteRoot_priority h r1 h1 Hinv Hd1) as (_ & Hp).
  destruct (deleteRoot_priority h1 r2 h2 Hinv1 Hd2) as (Hr2 & _).
  rewrite Hp in Hr2. case_decide; [done|].
  destruct h as [l m]. destruct Hinv as [_ Hc]. simpl in *.
  apply priorityOf_Some in Hr2 as (i & n & Hn & _ & <-); [|done].
  rewrite Forall_forall in Hmin. apply Hmin. by eapply list_elem_of_lookup_2.
Qed.

Lemma deleteRoot_twice_ordered_witness :
  heap_inv heap_53 ∧
  MinHeap.deleteRoot heap_53 = Return (mkHeapNode 2 3, heap_5) ∧
  MinHeap.deleteRoot heap_5 = Return (mkHeapNode 1 5, MinHeap.new) ∧
  distance (mkHeapNode 2 3) ≤ distance (mkHeapNode 1 5).
Proof.
  assert (MinHeap.deleteRoot heap_53 = Return (mkHeapNode 2 3, heap_5)) as Hd1
    by (vm_compute; reflexivity).
  assert (MinHeap.deleteRoot heap_5 = Return (mkHeapNode 1 5, MinHeap.new)) as Hd2
    by (vm_compute; reflexivity).
  split; [exact heap_53_inv|]. split; [exact Hd1|]. split; [exact Hd2|].
  exact (deleteRoot_twice_ordered heap_53 _ _ heap_5 MinHeap.new
           heap_53_inv Hd1 Hd2).
Defined.

(** ** The graph: nodes and edges *)

Section graph_facts.
Implicit Types (g : Graph.t) (l : list (Z * Z)).

Lemma hasNodeId_spec id (ns : list Node) :
  Graph.hasNodeId id ns = true ↔ id ∈ node_id <$> ns.
Proof.
  unfold Graph.hasNodeId. rewrite existsb_exists, list_elem_of_fmap.
  split.
  - intros (n & Hn & E). exists n. apply Z.eqb_eq in E.
    split; [done|]. by apply list_elem_of_In.
  - intros (n & -> & Hn). exists n. split; [by apply list_elem_of_In|].
    apply Z.eqb_refl.
Qed.

Lemma addNode_old g id : id ∈ nodeIds g → Graph.addNode id g = g.
Proof.
  intros Hid. unfold Graph.addNode.
  by rewrite (proj2 (hasNodeId_spec id (Graph.nodes g)) Hid).
Qed.

Lemma addNode_fresh_node g id :
  id ∉ nodeIds g →
  Graph.addNode id g =
    Graph.mk (Graph.nodes g ++ [mkNode id]) (<[id := []]> (Graph.adjacencyList g))
             (Graph.edgeWeights g).
Proof.
  intros Hid. unfold Graph.addNode.
  destruct (Graph.hasNodeId id (Graph.nodes g)) eqn:E; [|done].
  by apply hasNodeId_spec in E.
Qed.

Lemma nodeIds_addNode g id :
  nodeIds (Graph.addNode id g) =
    if decide (id ∈ nodeIds g) then nodeIds g else nodeIds g ++ [id].
Proof.
  case_decide as Hid.
  - by rewrite addNode_old.
  - rewrite addNode_fresh_node by done. unfold nodeIds. simpl.
    by rewrite fmap_app.
Qed.

Lemma elem_of_nodeIds_addNode g id x :
  x ∈ nodeIds (Graph.addNode id g) ↔ x = id ∨ x ∈ nodeIds g.
Proof.
  rewrite nodeIds_addNode. case_decide as Hid.
  - naive_solver.
  - rewrite elem_of_app, list_elem_of_singleton. naive_solver.
Qed.

Lemma getNeighbors_adj_at g n :
  Graph.getNeighbors g n = Graph.adj_at (Graph.adjacencyList g) n.
Proof. unfold Graph.getNeighbors, Graph.adj_at. by destruct (_ !! n). Qed.

Lemma adj_at_insert (m : gmap Z (list (Z * Z))) k l n :
  Graph.adj_at (<[k := l]> m) n =
    if decide (n = k) then l else Graph.adj_at m n.
Proof.
  unfold Graph.adj_at. rewrite lookup_insert.
  repeat case_decide; subst; done.
Qed.

Lemma updateFirst_None to w l :
  Graph.updateFirst to w l = None ↔ to ∉ l.*1.
Proof.
  induction l as [|[n w0] l IH]; simpl.
  - split; [intros _; apply not_elem_of_nil|done].
  - destruct (Z.eqb_spec n to) as [->|Hne].
    + split; [done|]. intros H. exfalso. apply H. left.
    + rewrite not_elem_of_cons. destruct (Graph.updateFirst to w l); simpl.
      * split; [done|]. intros [_ H]. by apply IH in H.
      * split; [|done]. intros _. split; [done|]. by apply IH.
Qed.

Lemma updateFirst_Some to w l l' :
  Graph.updateFirst to w l = Some l' →
  (to, w) ∈ l' ∧ l'.*1 = l.*1 ∧
  ∀ v x, (v, x) ∈ l' → v ≠ to → (v, x) ∈ l.
Proof.
  revert l'. induction l as [|[n w0] l IH]; intros l'; simpl; [done|].
  destruct (Z.eqb_spec n to) as [->|Hne].
  - intros [= <-]. split_and!; [left|done|].
    intros v x [[= -> ->]|H]%elem_of_cons Hv; [done|by right].
  - destruct (Graph.updateFirst to w l) as [l0|]; simpl; [|done].
    intros [= <-]. destruct (IH l0 eq_refl) as (H1 & H2 & H3).
    split_and!; [by right|rewrite !fmap_cons; by rewrite H2|].
    intros v x [[= -> ->]|H]%elem_of_cons Hv; [left|right; by apply H3].
Qed.

Lemma eraseFirst_subseteq to l : Graph.eraseFirst to l ⊆ l.
Proof.
  induction l as [|[n w0] l IH]; simpl; [done|].
  destruct (n =? to); [set_solver|]. set_solver.
Qed.

Lemma eraseFirst_absent to l : to ∉ l.*1 → Graph.eraseFirst to l = l.
Proof.
  induction l as [|[n w0] l IH]; simpl; [done|].
  rewrite not_elem_of_cons. intros [Hne Hl].
  rewrite (proj2 (Z.eqb_neq n to)) by done. by rewrite IH.
Qed.

Lemma eraseFirst_app_absent to l l2 :
  to ∉ l.*1 → Graph.eraseFirst to (l ++ l2) = l ++ Graph.eraseFirst to l2.
Proof.
  induction l as [|[n w0] l IH]; simpl; [done|].
  rewrite not_elem_of_cons. intros [Hne Hl].
  rewrite (proj2 (Z.eqb_neq n to)) by done. by rewrite IH.
Qed.

Lemma getEdgeWeight_set g_nodes adj ew from to w a b :
  Graph.getEdgeWeight (Graph.mk g_nodes adj (Graph.setEdgeWeight from to w ew)) a b =
    if decide (a = from ∧ b = to) then w
    else Graph.getEdgeWeight (Graph.mk g_nodes adj ew) a b.
Proof.
  unfold Graph.getEdgeWeight, Graph.setEdgeWeight. simpl.
  rewrite lookup_insert. destruct (decide (from = a)) as [->|Hne].
  - rewrite lookup_insert. destruct (decide (to = b)) as [->|Hne'].
    + by rewrite decide_True.
    + rewrite decide_False by naive_solver.
      by destruct (ew !! a).
  - by rewrite decide_False by naive_solver.
Qed.

Lemma getEdgeWeight_erase g_nodes adj ew from to a b :
  Graph.getEdgeWeight (Graph.mk g_nodes adj (Graph.eraseEdgeWeight from to ew)) a b =
    if decide (a = from ∧ b = to) then -1
    else Graph.getEdgeWeight (Graph.mk g_nodes adj ew) a b.
Proof.
  unfold Graph.getEdgeWeight, Graph.eraseEdgeWeight. simpl.
  rewrite lookup_insert. destruct (decide (from = a)) as [->|Hne].
  - rewrite lookup_delete. destruct (decide (to = b)) as [->|Hne'].
    + by rewrite decide_True.
    + rewrite decide_False by naive_solver.
      by destruct (ew !! a).
  - by rewrite decide_False by naive_solver.
Qed.

End graph_facts.

Section graph_operations.
Implicit Types (g : Graph.t) (l : list (Z * Z)).

Lemma adj_at_addNode g id n :
  Graph.adj_at (Graph.adjacencyList (Graph.addNode id g)) n =
    if decide ((id ∉ nodeIds g) ∧ n = id) then []
    else Graph.adj_at (Graph.adjacencyList g) n.
Proof.
  destruct (decide (id ∈ nodeIds g)) as [Hid|Hid].
  - rewrite addNode_old by done. by rewrite decide_False by naive_solver.
  - rewrite addNode_fresh_node by done. simpl. rewrite adj_at_insert.
    repeat case_decide; naive_solver.
Qed.

Lemma addEdge_endpoints g from to :
  from ∈ nodeIds (Graph.addNode to (Graph.addNode from g)) ∧
  to ∈ nodeIds (Graph.addNode to (Graph.addNode from g)).
Proof. rewrite !elem_of_nodeIds_addNode. naive_solver. Qed.

Lemma addEdge_nodes g from to w :
  Graph.nodes (Graph.addEdge from to w g) =
  Graph.nodes (Graph.addNode to (Graph.addNode from g)).
Proof. unfold Graph.addEdge. by destruct (Graph.updateFirst _ _ _). Qed.

Lemma nodeIds_addEdge g from to w x :
  x ∈ nodeIds (Graph.addEdge from to w g) ↔ x = from ∨ x = to ∨ x ∈ nodeIds g.
Proof.
  unfold nodeIds at 1. rewrite addEdge_nodes.
  fold (nodeIds (Graph.addNode to (Graph.addNode from g))).
  rewrite !elem_of_nodeIds_addNode. naive_solver.
Qed.

End graph_operations.

(** [addNode]: the id becomes a node exactly once.  Afterwards [getNode]
    finds it; a graph whose node ids are pairwise different keeps them so;
    the node count grows by one for a new id and not at all for a known one,
    for which the call changes nothing in the node list and the adjacency
    list. *)
Theorem addNode_registers_once (g : Graph.t) (id : Z) :
  NoDup (nodeIds g) →
  NoDup (nodeIds (Graph.addNode id g)) ∧
  Graph.getNode (Graph.addNode id g) id = Return (mkNode id) ∧
  Graph.getNodeCount (Graph.addNode id g) =
    (if decide (id ∈ nodeIds g) then Graph.getNodeCount g
     else Graph.getNodeCount g + 1) ∧
  Graph.addNode id (Graph.addNode id g) = Graph.addNode id g.
Proof.
  intros Hnd. split_and!.
  - rewrite nodeIds_addNode. case_decide; [done|].
    apply NoDup_app. split_and!; [done| |apply NoDup_singleton].
    intros x Hx ->%list_elem_of_singleton. done.
  - apply getNode_present, elem_of_nodeIds_addNode. by left.
  - case_decide as Hid; [by rewrite addNode_old|].
    rewrite addNode_fresh_node by done. unfold Graph.getNodeCount. simpl.
    rewrite length_app. simpl. lia.
  - apply addNode_old, elem_of_nodeIds_addNode. by left.
Qed.

Lemma addNode_registers_once_witness :
  NoDup (nodeIds line3) ∧
  NoDup (nodeIds (Graph.addNode 9 line3)) ∧
  Graph.getNode (Graph.addNode 9 line3) 9 = Return (mkNode 9) ∧
  Graph.getNodeCount (Graph.addNode 9 line3) =
    (if decide (9 ∈ nodeIds line3) then Graph.getNodeCount line3
     else Graph.getNodeCount line3 + 1) ∧
  Graph.addNode 9 (Graph.addNode 9 line3) = Graph.addNode 9 line3.
Proof.
  assert (NoDup (nodeIds line3)) as Hnd.
  { vm_compute. repeat constructor; vm_compute; intros H;
      repeat (apply elem_of_cons in H as [H|H]; [discriminate H|]);
      by apply elem_of_nil in H. }
  split; [exact Hnd|]. exact (addNode_registers_once line3 9 Hnd).
Defined.

(** [addEdge from to weight]: afterwards both endpoints are nodes, [to] is
    listed among the neighbors of [from] with the given weight, and
    [getEdgeWeight from to] is that weight; [hasEdge from to] holds unless
    the weight is -1, the value that [getEdgeWeight] uses for "no edge". *)
Theorem addEdge_forward (g : Graph.t) (from to weight : Z) :
  from ∈ nodeIds (Graph.addEdge from to weight g) ∧
  to ∈ nodeIds (Graph.addEdge from to weight g) ∧
  (to, weight) ∈ Graph.getNeighbors (Graph.addEdge from to weight g) from ∧
  Graph.getEdgeWeight (Graph.addEdge from to weight g) from to = weight ∧
  Graph.hasEdge (Graph.addEdge from to weight g) from to = negb (weight =? -1).
Proof.
  assert (Graph.getEdgeWeight (Graph.addEdge from to weight g) from to = weight)
    as Hw.
  { unfold Graph.addEdge. destruct (Graph.updateFirst _ _ _).
    - by rewrite getEdgeWeight_set, decide_True.
    - rewrite getEdgeWeight_set. case_decide; [done|].
      by rewrite getEdgeWeight_set, decide_True. }
  split_and!.
  - apply nodeIds_addEdge. by left.
  - apply nodeIds_addEdge. right. by left.
  - rewrite getNeighbors_adj_at. unfold Graph.addEdge.
    destruct (Graph.updateFirst _ _ _) as [l|] eqn:Hu; simpl.
    + rewrite adj_at_insert, decide_True by done.
      by apply updateFirst_Some in Hu as (? & _).
    + rewrite !adj_at_insert. repeat case_decide; try done; set_solver.
  - done.
  - unfold Graph.hasEdge. by rewrite Hw.
Qed.

Lemma addEdge_fresh_lookup g from to w :
  to ∉ (Graph.getNeighbors g from).*1 →
  Graph.updateFirst to w
    (Graph.adj_at (Graph.adjacencyList (Graph.addNode to (Graph.addNode from g)))
       from) = None.
Proof.
  intros Hto. apply updateFirst_None. rewrite !adj_at_addNode.
  repeat case_decide; try apply not_elem_of_nil.
  by rewrite <- getNeighbors_adj_at.
Qed.

(** [addEdge] of an edge that [from] does not list yet: the edge is entered
    in both directions with the same weight, in the neighbor lists and in
    the weight table. *)
Theorem addEdge_new_edge_symmetric (g : Graph.t) (from to weight : Z) :
  to ∉ (Graph.getNeighbors g from).*1 →
  (to, weight) ∈ Graph.getNeighbors (Graph.addEdge from to weight g) from ∧
  (from, weight) ∈ Graph.getNeighbors (Graph.addEdge from to weight g) to ∧
  Graph.getEdgeWeight (Graph.addEdge from to weight g) from to = weight ∧
  Graph.getEdgeWeight (Graph.addEdge from to weight g) to from = weight.
Proof.
  intros Hto. rewrite !getNeighbors_adj_at. unfold Graph.addEdge.
  rewrite (addEdge_fresh_lookup g from to weight Hto). simpl.
  rewrite !(getEdgeWeight_set _ _ _ to from), !adj_at_insert.
  rewrite (getEdgeWeight_set _ _ _ from to).
  repeat case_decide; try done; try naive_solver; set_solver.
Qed.

Lemma addEdge_new_edge_symmetric_witness :
  (3 ∉ (Graph.getNeighbors line3 1).*1) ∧
  (3, 4) ∈ Graph.getNeighbors (Graph.addEdge 1 3 4 line3) 1 ∧
  (1, 4) ∈ Graph.getNeighbors (Graph.addEdge 1 3 4 line3) 3 ∧
  Graph.getEdgeWeight (Graph.addEdge 1 3 4 line3) 1 3 = 4 ∧
  Graph.getEdgeWeight (Graph.addEdge 1 3 4 line3) 3 1 = 4.
Proof.
  assert (3 ∉ (Graph.getNeighbors line3 1).*1) as H3.
  { vm_compute. intros H.
    repeat (apply elem_of_cons in H as [H|H]; [discriminate H|]).
    by apply elem_of_nil in H. }
  split; [exact H3|]. exact (addEdge_new_edge_symmetric line3 1 3 4 H3).
Defined.

(** [addEdge] of an edge that [from] lists already, between two different
    nodes of the graph: only the direction the call names is updated.  The
    neighbor list of [to] and the weight stored for [to -> from] stay as
    they were, so the two directions of the edge can carry different
    weights afterwards; no node and no neighbor is added. *)
Theorem addEdge_existing_edge_one_way (g : Graph.t) (from to weight : Z) :
  from ∈ nodeIds g → to ∈ nodeIds g → from ≠ to →
  to ∈ (Graph.getNeighbors g from).*1 →
  Graph.nodes (Graph.addEdge from to weight g) = Graph.nodes g ∧
  (Graph.getNeighbors (Graph.addEdge from to weight g) from).*1 =
    (Graph.getNeighbors g from).*1 ∧
  Graph.getNeighbors (Graph.addEdge from to weight g) to =
    Graph.getNeighbors g to ∧
  Graph.getEdgeWeight (Graph.addEdge from to weight g) to from =
    Graph.getEdgeWeight g to from.
Proof.
  intros Hf Ht Hne Hto. unfold Graph.addEdge.
  rewrite (addNode_old g from Hf), (addNode_old g to Ht).
  rewrite <- getNeighbors_adj_at.
  destruct (Graph.updateFirst to weight (Graph.getNeighbors g from)) as [l|] eqn:Hu.
  - apply updateFirst_Some in Hu as (_ & Hl & _). rewrite !getNeighbors_adj_at.
    simpl. rewrite !adj_at_insert, decide_True, decide_False by done.
    rewrite getEdgeWeight_set, decide_False by naive_solver.
    by destruct g.
  - by apply updateFirst_None in Hu.
Qed.

Lemma addEdge_existing_edge_one_way_witness :
  1 ∈ nodeIds line3 ∧ 2 ∈ nodeIds line3 ∧ 1 ≠ 2 ∧
  2 ∈ (Graph.getNeighbors line3 1).*1 ∧
  Graph.getNeighbors (Graph.addEdge 1 2 7 line3) 1 = [(2, 7)] ∧
  Graph.getNeighbors (Graph.addEdge 1 2 7 line3) 2 = [(1, 10); (3, 10)] ∧
  Graph.getEdgeWeight (Graph.addEdge 1 2 7 line3) 1 2 = 7 ∧
  Graph.getEdgeWeight (Graph.addEdge 1 2 7 line3) 2 1 = 10 ∧
  Graph.getNeighbors (Graph.addEdge 1 2 7 line3) 2 = Graph.getNeighbors line3 2 ∧
  Graph.getEdgeWeight (Graph.addEdge 1 2 7 line3) 2 1 =
    Graph.getEdgeWeight line3 2 1.
Proof.
  assert (1 ∈ nodeIds line3) as H1 by (vm_compute; repeat constructor).
  assert (2 ∈ nodeIds line3) as H2 by (vm_compute; repeat constructor).
  assert (2 ∈ (Graph.getNeighbors line3 1).*1) as H3
    by (vm_compute; repeat constructor).
  destruct (addEdge_existing_edge_one_way line3 1 2 7 H1 H2 ltac:(lia) H3)
    as (_ & _ & Hn & Hw).
  split; [exact H1|]. split; [exact H2|]. split; [lia|]. split; [exact H3|].
  split; [vm_compute; reflexivity|]. split; [vm_compute; reflexivity|].
  split; [vm_compute; reflexivity|]. split; [vm_compute; reflexivity|].
  split; [exact Hn|exact Hw].
Defined.

Lemma eraseFirst_last to w l :
  to ∉ l.*1 → Graph.eraseFirst to (l ++ [(to, w)]) = l.
Proof.
  intros H. rewrite eraseFirst_app_absent by done. simpl.
  by rewrite Z.eqb_refl, app_nil_r.
Qed.

Lemma getNeighbors_removeEdge g from to n :
  Graph.getNeighbors (Graph.removeEdge from to g) n =
    if decide (n = to) then
      Graph.eraseFirst from
        (if decide (to = from)
         then Graph.eraseFirst to (Graph.getNeighbors g from)
         else Graph.getNeighbors g to)
    else if decide (n = from) then Graph.eraseFirst to (Graph.getNeighbors g from)
    else Graph.getNeighbors g n.
Proof.
  rewrite !getNeighbors_adj_at. unfold Graph.removeEdge. simpl.
  rewrite !adj_at_insert. repeat case_decide; subst; done.
Qed.

Lemma getEdgeWeight_removeEdge g from to a b :
  Graph.getEdgeWeight (Graph.removeEdge from to g) a b =
    if decide (a = to ∧ b = from) then -1
    else if decide (a = from ∧ b = to) then -1
    else Graph.getEdgeWeight g a b.
Proof.
  unfold Graph.removeEdge.
  rewrite getEdgeWeight_erase. case_decide; [done|].
  rewrite getEdgeWeight_erase. case_decide; [done|]. by destruct g.
Qed.

Lemma hasEdge_removeEdge g from to :
  Graph.hasEdge (Graph.removeEdge from to g) from to = false ∧
  Graph.hasEdge (Graph.removeEdge from to g) to from = false.
Proof.
  unfold Graph.hasEdge. rewrite !getEdgeWeight_removeEdge. split.
  - repeat case_decide; try done; tauto.
  - by rewrite decide_True.
Qed.

Lemma getNeighbors_removeEdge_subseteq g from to n :
  Graph.getNeighbors (Graph.removeEdge from to g) n ⊆ Graph.getNeighbors g n.
Proof.
  rewrite getNeighbors_removeEdge.
  repeat case_decide; subst; try done;
    repeat (etrans; [apply eraseFirst_subseteq|]); done.
Qed.

(** [removeEdge from to]: afterwards [hasEdge] is false in both directions;
    the node list is unchanged; no neighbor list gains an entry, and those
    of the other nodes are unchanged; so are the weights stored for all
    other pairs of nodes. *)
Theorem removeEdge_effect (g : Graph.t) (from to : Z) :
  Graph.nodes (Graph.removeEdge from to g) = Graph.nodes g ∧
  Graph.hasEdge (Graph.removeEdge from to g) from to = false ∧
  Graph.hasEdge (Graph.removeEdge from to g) to from = false ∧
  (∀ n, n ≠ from → n ≠ to →
     Graph.getNeighbors (Graph.removeEdge from to g) n = Graph.getNeighbors g n) ∧
  (∀ n, Graph.getNeighbors (Graph.removeEdge from to g) n ⊆ Graph.getNeighbors g n) ∧
  (∀ a b, ¬ (a = from ∧ b = to) → ¬ (a = to ∧ b = from) →
     Graph.getEdgeWeight (Graph.removeEdge from to g) a b =
     Graph.getEdgeWeight g a b).
Proof.
  destruct (hasEdge_removeEdge g from to) as [H1 H2]. split_and!; try done.
  - intros n Hf Ht. rewrite getNeighbors_removeEdge.
    by rewrite !decide_False.
  - intros n. apply getNeighbors_removeEdge_subseteq.
  - intros a b Ha Hb. rewrite getEdgeWeight_removeEdge.
    by rewrite !decide_False.
Qed.

(** Adding an edge that neither endpoint lists yet, between nodes of the
    graph, and removing it again gives back every neighbor list and the node
    list as they were, with [hasEdge] false in both directions. *)
Theorem addEdge_then_removeEdge (g : Graph.t) (from to weight : Z) :
  from ∈ nodeIds g → to ∈ nodeIds g →
  to ∉ (Graph.getNeighbors g from).*1 →
  from ∉ (Graph.getNeighbors g to).*1 →
  Graph.nodes (Graph.removeEdge from to (Graph.addEdge from to weight g)) =
    Graph.nodes g ∧
  (∀ n, Graph.getNeighbors
          (Graph.removeEdge from to (Graph.addEdge from to weight g)) n =
        Graph.getNeighbors g n) ∧
  Graph.hasEdge (Graph.removeEdge from to (Graph.addEdge from to weight g))
    from to = false ∧
  Graph.hasEdge (Graph.removeEdge from to (Graph.addEdge from to weight g))
    to from = false.
Proof.
  intros Hf Ht Hto Hfrom.
  destruct (hasEdge_removeEdge (Graph.addEdge from to weight g) from to)
    as [H1 H2].
  split_and!; try done.
  - unfold Graph.removeEdge at 1. cbn [Graph.nodes]. rewrite addEdge_nodes.
    by rewrite (addNode_old g from Hf), (addNode_old g to Ht).
  - assert (∀ n, Graph.getNeighbors (Graph.addEdge from to weight g) n =
              if decide (n = to) then
                (if decide (to = from)
                 then Graph.getNeighbors g from ++ [(to, weight)]
                 else Graph.getNeighbors g to) ++ [(from, weight)]
              else if decide (n = from)
                   then Graph.getNeighbors g from ++ [(to, weight)]
                   else Graph.getNeighbors g n) as Ha.
    { intros n. rewrite !getNeighbors_adj_at. unfold Graph.addEdge.
      rewrite (addEdge_fresh_lookup g from to weight Hto). simpl.
      rewrite (addNode_old g from Hf), (addNode_old g to Ht).
      rewrite !adj_at_insert. repeat case_decide; subst; done. }
    pose proof (eraseFirst_last to weight _ Hto) as E1.
    pose proof (eraseFirst_last from weight _ Hfrom) as E2.
    assert (to = from →
            Graph.eraseFirst from (Graph.eraseFirst to
              ((Graph.getNeighbors g from ++ [(to, weight)]) ++ [(from, weight)])) =
            Graph.getNeighbors g from) as E3.
    { intros ->. rewrite <- (assoc_L (++)), eraseFirst_app_absent by done. simpl.
      by rewrite Z.eqb_refl. }
    intros n. rewrite getNeighbors_removeEdge, !Ha.
    repeat case_decide; subst; rewrite ?E1, ?E2, ?E3; done.
Qed.

Lemma addEdge_then_removeEdge_witness :
  1 ∈ nodeIds line3 ∧ 3 ∈ nodeIds line3 ∧
  (3 ∉ (Graph.getNeighbors line3 1).*1) ∧
  (1 ∉ (Graph.getNeighbors line3 3).*1) ∧
  ∀ n, Graph.getNeighbors (Graph.removeEdge 1 3 (Graph.addEdge 1 3 4 line3)) n =
       Graph.getNeighbors line3 n.
Proof.
  assert (1 ∈ nodeIds line3) as H1 by (vm_compute; repeat constructor).
  assert (3 ∈ nodeIds line3) as H3 by (vm_compute; repeat constructor).
  assert (3 ∉ (Graph.getNeighbors line3 1).*1) as H13.
  { vm_compute. intros H.
    repeat (apply elem_of_cons in H as [H|H]; [discriminate H|]).
    by apply elem_of_nil in H. }
  assert (1 ∉ (Graph.getNeighbors line3 3).*1) as H31.
  { vm_compute. intros H.
    repeat (apply elem_of_cons in H as [H|H]; [discriminate H|]).
    by apply elem_of_nil in H. }
  split; [exact H1|]. split; [exact H3|]. split; [exact H13|]. split; [exact H31|].
  exact (proj1 (proj2 (addEdge_then_removeEdge line3 1 3 4 H1 H3 H13 H31))).
Defined.

Lemma neighbors_are_nodes_alt g :
  neighbors_are_nodes g ↔
  ∀ u v w, (v, w) ∈ Graph.getNeighbors g u → v ∈ nodeIds g.
Proof.
  unfold neighbors_are_nodes, Graph.getNeighbors. split.
  - intros H u v w. destruct (Graph.adjacencyList g !! u) as [l|] eqn:Hu.
    + by apply (H u l v w).
    + by intros ?%elem_of_nil.
  - intros H u l v w Hu Hv. apply (H u v w). by rewrite Hu.
Qed.

Lemma neighbors_are_nodes_addNode g id :
  neighbors_are_nodes g → neighbors_are_nodes (Graph.addNode id g).
Proof.
  rewrite !neighbors_are_nodes_alt. intros H u v w.
  rewrite getNeighbors_adj_at, adj_at_addNode, elem_of_nodeIds_addNode.
  case_decide; [by intros ?%elem_of_nil|].
  rewrite <- getNeighbors_adj_at. intros Hv. right. by apply (H u v w).
Qed.

Lemma neighbors_are_nodes_addEdge g from to weight :
  neighbors_are_nodes g → neighbors_are_nodes (Graph.addEdge from to weight g).
Proof.
  intros Hg.
  pose proof (neighbors_are_nodes_addNode _ to
                (neighbors_are_nodes_addNode _ from Hg)) as H1.
  destruct (addEdge_endpoints g from to) as [Hf Ht].
  rewrite neighbors_are_nodes_alt in H1 |- *. intros u v w.
  unfold nodeIds at 1. rewrite addEdge_nodes.
  fold (nodeIds (Graph.addNode to (Graph.addNode from g))).
  rewrite getNeighbors_adj_at. unfold Graph.addEdge.
  destruct (Graph.updateFirst _ _ _) as [l|] eqn:Hu; simpl.
  - rewrite adj_at_insert. case_decide; subst.
    + intros Hv. destruct (decide (v = to)) as [->|Hne]; [done|].
      apply updateFirst_Some in Hu as (_ & _ & Hl).
      apply (H1 from v w). rewrite getNeighbors_adj_at. by apply Hl.
    + rewrite <- getNeighbors_adj_at. apply H1.
  - rewrite !adj_at_insert.
    repeat case_decide; subst; rewrite <- ?getNeighbors_adj_at;
      rewrite ?elem_of_app, ?list_elem_of_singleton;
      intros Hv; destruct_or?; simplify_eq; eauto.
Qed.

Lemma neighbors_are_nodes_removeEdge g from to :
  neighbors_are_nodes g → neighbors_are_nodes (Graph.removeEdge from to g).
Proof.
  intros Hg. rewrite neighbors_are_nodes_alt in Hg |- *. intros u v w Hv.
  apply (Hg u v w). by eapply getNeighbors_removeEdge_subseteq.
Qed.

(** The graph never lists a neighbor that is not a node: the property
    holds of the empty graph and [addNode], [addEdge] and [removeEdge] keep
    it.  (The solver therefore only ever relaxes towards nodes whose state
    it has initialised.) *)
Theorem neighbors_are_nodes_preserved (g : Graph.t) :
  neighbors_are_nodes g →
  (∀ id, neighbors_are_nodes (Graph.addNode id g)) ∧
  (∀ from to weight, neighbors_are_nodes (Graph.addEdge from to weight g)) ∧
  (∀ from to, neighbors_are_nodes (Graph.removeEdge from to g)).
Proof.
  intros Hg. split_and!.
  - intros id. by apply neighbors_are_nodes_addNode.
  - intros from to weight. by apply neighbors_are_nodes_addEdge.
  - intros from to. by apply neighbors_are_nodes_removeEdge.
Qed.

Lemma neighbors_are_nodes_new : neighbors_are_nodes Graph.new.
Proof. intros u l v w Hu. simpl in Hu. by rewrite lookup_empty in Hu. Qed.

Lemma neighbors_are_nodes_preserved_witness :
  neighbors_are_nodes Graph.new ∧
  neighbors_are_nodes (Graph.addEdge 1 2 10 Graph.new).
Proof.
  split; [exact neighbors_are_nodes_new|].
  exact (proj1 (proj2 (neighbors_are_nodes_preserved Graph.new
                         neighbors_are_nodes_new)) 1 2 10).
Defined.

(** ** The solver: what a run keeps true *)

Lemma initNode_minHeap st ns : minHeap (foldl initNode st ns) = minHeap st.
Proof. revert st. induction ns as [|n ns IH]; intros st; simpl; [done|]. by rewrite IH. Qed.

Lemma initState_Return g s :
  ∃ h, MinHeap.addNode s 0 MinHeap.new = Return h ∧ heap_inv h ∧
    dom (MinHeap.nodeToIndex h) = {[s]} ∧
    initState g s =
      Return (mkState
        (<[s := 0]> (distances (foldl initNode (mkState ∅ ∅ ∅ MinHeap.new)
                                  (Graph.getNodes g))))
        (<[s := 0]> (batteryUsed (foldl initNode (mkState ∅ ∅ ∅ MinHeap.new)
                                    (Graph.getNodes g))))
        (previous (foldl initNode (mkState ∅ ∅ ∅ MinHeap.new) (Graph.getNodes g)))
        h).
Proof.
  destruct (addNode_inv MinHeap.new s 0 heap_inv_new) as (h & Ha & Hinv & Hdom).
  exists h. split_and!; try done.
  - rewrite Hdom. simpl. rewrite dom_empty_L. set_solver.
  - unfold initState. rewrite initNode_minHeap. simpl. by rewrite Ha.
Qed.

(** The two ways a relaxation can go. *)
Lemma relax_cases B r u st nb :
  heap_inv (minHeap st) → int_div_defined nb.2 r = true →
  let nbu := int_add (map_at (batteryUsed st) u) (batteryConsumption nb.2 r) in
  let nd := int_add (map_at (distances st) u) nb.2 in
  (relax B r u st nb = Return st ∧ ¬ (nbu ≤ B ∧ nd < map_at (distances st) nb.1)) ∨
  (nbu ≤ B ∧ nd < map_at (distances st) nb.1 ∧
   ∃ h', relax B r u st nb =
           Return (mkState (<[nb.1 := nd]> (distances st))
                           (<[nb.1 := nbu]> (batteryUsed st))
                           (<[nb.1 := u]> (previous st)) h') ∧
     heap_inv h' ∧
     dom (MinHeap.nodeToIndex h') =
       {[nb.1]} ∪ dom (MinHeap.nodeToIndex (minHeap st)) ∧
     ∀ id, priorityOf h' id =
       if decide (id = nb.1)
       then Some (match priorityOf (minHeap st) nb.1 with
                  | Some old => Z.min nd old
                  | None => nd
                  end)
       else priorityOf (minHeap st) id).
Proof.
  intros Hinv Hdef nbu nd. unfold relax. rewrite Hdef. cbn [negb]. fold nbu nd.
  destruct (Z.leb_spec nbu B) as [Hb|Hb]; cycle 1.
  { left. split; [done|]. lia. }
  destruct (Z.ltb_spec nd (map_at (distances st) nb.1)) as [Hd|Hd]; cycle 1.
  { left. split; [done|]. lia. }
  right. split; [done|]. split; [done|]. cbn [andb].
  destruct (MinHeap.contains (minHeap st) nb.1) eqn:Hc.
  - assert (∃ k, MinHeap.nodeToIndex (minHeap st) !! nb.1 = Some k) as [k Hm].
    { unfold MinHeap.contains in Hc. by apply bool_decide_eq_true in Hc. }
    destruct (decreaseKey_present _ nb.1 nd k Hinv Hm) as (h' & Hdk & Hinv' & Hdom & _).
    destruct (decreaseKey_priority _ nb.1 nd h' Hinv Hdk) as (old & Hold & Hp).
    exists h'. rewrite Hdk. split_and!; try done.
    + rewrite Hdom. apply (elem_of_dom_2 (D := gset Z)) in Hm. set_solver.
    + intros id. rewrite Hp, Hold. done.
  - assert (MinHeap.nodeToIndex (minHeap st) !! nb.1 = None) as Hm.
    { unfold MinHeap.contains in Hc. apply bool_decide_eq_false in Hc.
      by apply eq_None_not_Some. }
    destruct (addNode_fresh _ nb.1 nd Hinv Hm) as (h' & Ha & Hinv' & Hdom & _).
    pose proof (addNode_fresh_priority _ nb.1 nd h' Hinv Hm Ha) as Hp.
    exists h'. rewrite Ha. split_and!; try done.
    intros id. rewrite Hp.
    assert (priorityOf (minHeap st) nb.1 = None) as ->; [|done].
    destruct (minHeap st) as [l m]. destruct Hinv as [_ Hci].
    by apply priorityOf_None.
Qed.

(** Loop invariants.  [P] is to hold whenever the main loop tests the
    queue, [Q u] while the neighbors of the extracted node [u] are
    relaxed. *)
Section loop_invariant.
Context (g : Graph.t) (destination initialBattery mileage : Z).
Context (P : SolverState → Prop) (Q : Z → SolverState → Prop).
Hypothesis extract : ∀ st root h',
  P st → heap_inv (minHeap st) →
  MinHeap.deleteRoot (minHeap st) = Return (root, h') →
  Q (nodeId root) (mkState (distances st) (batteryUsed st) (previous st) h').
Hypothesis relaxed : ∀ u st nb st',
  Q u st → heap_inv (minHeap st) → nb ∈ Graph.getNeighbors g u →
  relax initialBattery mileage u st nb = Return st' → Q u st'.
Hypothesis back : ∀ u st, Q u st → P st.

Lemma relaxAll_invariant u nbs : ∀ st,
  Q u st → heap_inv (minHeap st) → nbs ⊆ Graph.getNeighbors g u →
  match relaxAll initialBattery mileage u nbs st with
  | Return st' => Q u st' ∧ heap_inv (minHeap st')
  | Undefined => ∃ nb, nb ∈ nbs ∧ int_div_defined nb.2 mileage = false
  | _ => False
  end.
Proof.
  induction nbs as [|nb nbs IH]; intros st HQ Hinv Hsub; simpl; [eauto|].
  destruct (int_div_defined nb.2 mileage) eqn:Hdef; cycle 1.
  { unfold relax. rewrite Hdef. simpl. exists nb. split; [set_solver|done]. }
  assert (∃ st1, relax initialBattery mileage u st nb = Return st1 ∧
                 heap_inv (minHeap st1)) as (st1 & Hr & Hinv1).
  { destruct (relax_cases initialBattery mileage u st nb Hinv Hdef)
      as [[Hr _]|(_ & _ & h' & Hr & Hinv' & _)]; eauto. }
  rewrite Hr. simpl.
  assert (Q u st1) as HQ1 by (eapply relaxed; eauto; set_solver).
  specialize (IH st1 HQ1 Hinv1 ltac:(set_solver)).
  destruct (relaxAll initialBattery mileage u nbs st1); try done.
  destruct IH as (nb' & ? & ?). exists nb'. split; [set_solver|done].
Qed.

Lemma mainLoop_invariant fuel : ∀ st,
  P st → heap_inv (minHeap st) →
  match mainLoop fuel g destination initialBattery mileage st with
  | Return st' => P st' ∧ heap_inv (minHeap st')
  | OutOfFuel => True
  | Undefined =>
      ∃ u nb, nb ∈ Graph.getNeighbors g u ∧ int_div_defined nb.2 mileage = false
  | Throw _ => False
  end.
Proof.
  induction fuel as [|fuel IH]; intros st HP Hinv; [done|].
  rewrite mainLoop_S. pose proof (deleteRoot_min _ Hinv) as Hd.
  destruct (MinHeap.isEmpty (minHeap st)); [done|].
  destruct Hd as (root & h' & Hd & _ & _ & _ & Hinv').
  rewrite Hd. cbn [mbind outcome_bind]. cbv zeta.
  pose proof (extract st root h' HP Hinv Hd) as HQ.
  destruct (nodeId root =? destination); [eauto|].
  pose proof (relaxAll_invariant (nodeId root) (Graph.getNeighbors g (nodeId root))
                _ HQ Hinv' ltac:(done)) as Hall.
  destruct (relaxAll _ _ _ _ _) as [st2| | |]; cbn [mbind outcome_bind];
    try done.
  - destruct Hall as [HQ2 Hinv2]. apply IH; eauto.
  - destruct Hall as (nb & ? & ?). eauto.
Qed.

End loop_invariant.

Lemma map_at_insert (m : gmap Z Z) k x j :
  map_at (<[k := x]> m) j = if decide (j = k) then x else map_at m j.
Proof.
  unfold map_at. rewrite lookup_insert. repeat case_decide; subst; done.
Qed.

Lemma buildPath_never_throws fuel prev : ∀ current acc,
  match buildPath fuel prev current acc with
  | Return _ | OutOfFuel => True
  | _ => False
  end.
Proof.
  induction fuel as [|fuel IH]; intros current acc; simpl; [done|].
  destruct (current =? -1); [done|]. apply IH.
Qed.

(** How a run that returns a success got there. *)
Lemma solver_success_inv fuel g s d B r res :
  dijkstraWithBattery fuel g s d B r = Return res → success res = true →
  (s = d ∧ res = mkResult [s] (Some 0) (Some 0) true
                   "Source and destination are the same") ∨
  (s ≠ d ∧ s ∈ nodeIds g ∧ d ∈ nodeIds g ∧
   ∃ st p, loopEnd fuel g s d B r = Return st ∧
     map_at (distances st) d ≠ INT_MAX ∧
     buildPath fuel (previous st) d [] = Return p ∧
     res = mkResult (reverse p) (Some (map_at (distances st) d))
             (Some (map_at (batteryUsed st) d)) true "Path found successfully").
Proof.
  unfold dijkstraWithBattery, loopEnd.
  destruct (Z.eqb_spec s d) as [->|Hsd]; [intros [= <-] _; by left|].
  destruct (endpoints_checked g s d) as [(Hs & Hd & ->)|(_ & what & ->)];
    [|by intros [= <-]].
  rewrite (nodeCount_nonzero g s Hs).
  destruct (initState g s) as [st0| | |]; try done. cbn [mbind outcome_bind].
  destruct (mainLoop fuel g d B r st0) as [st| | |]; try done.
  cbn [mbind outcome_bind].
  destruct (Z.eqb_spec (map_at (distances st) d) INT_MAX) as [|Hne];
    [by intros [= <-]|].
  destruct (buildPath fuel (previous st) d []) as [p| | |] eqn:Hp; try done.
  cbn [mbind outcome_bind]. intros [= <-] _. right. eauto 10.
Qed.

(** The state in which the main loop ends satisfies every invariant that
    the initial state satisfies. *)
Lemma loopEnd_invariant fuel g s d B r
    (P : SolverState → Prop) (Q : Z → SolverState → Prop) :
  (∀ st root h', P st → heap_inv (minHeap st) →
     MinHeap.deleteRoot (minHeap st) = Return (root, h') →
     Q (nodeId root) (mkState (distances st) (batteryUsed st) (previous st) h')) →
  (∀ u st nb st', Q u st → heap_inv (minHeap st) →
     nb ∈ Graph.getNeighbors g u → relax B r u st nb = Return st' → Q u st') →
  (∀ u st, Q u st → P st) →
  (∀ st0, initState g s = Return st0 → P st0) →
  match loopEnd fuel g s d B r with
  | Return st => P st ∧ heap_inv (minHeap st)
  | OutOfFuel => True
  | Undefined =>
      ∃ u nb, nb ∈ Graph.getNeighbors g u ∧ int_div_defined nb.2 r = false
  | Throw _ => False
  end.
Proof.
  intros H1 H2 H3 H0. unfold loopEnd.
  destruct (initState_Return g s) as (h & _ & Hinv & _ & Hinit).
  specialize (H0 _ Hinit). rewrite Hinit. cbn [mbind outcome_bind].
  by apply (mainLoop_invariant g d B r P Q).
Qed.

Lemma int_div_defined_false w r :
  int_div_defined w r = false → r = 0 ∨ (r = -1 ∧ w = INT_MIN).
Proof.
  unfold int_div_defined.
  destruct (Z.eqb_spec r 0), (Z.eqb_spec w INT_MIN), (Z.eqb_spec r (-1));
    simpl; intros; try done; auto.
Qed.

(** The solver uses its queue correctly: no exception escapes a run and no
    array is read out of range.  The one undefined operation a run can meet
    is the division of an edge weight by the rate, for the rate 0 or for
    the rate -1 and the weight [INT_MIN]; on every other input a run returns
    a result unless the fuel ends first. *)
Theorem solver_never_throws (fuel : nat) (g : Graph.t)
    (source destination initialBattery mileage : Z) :
  match dijkstraWithBattery fuel g source destination initialBattery mileage with
  | Return _ | OutOfFuel => True
  | Undefined =>
      ∃ u v w, (v, w) ∈ Graph.getNeighbors g u ∧
        (mileage = 0 ∨ (mileage = -1 ∧ w = INT_MIN))
  | Throw _ => False
  end.
Proof.
  pose proof (loopEnd_invariant fuel g source destination initialBattery mileage
                (λ _, True) (λ _ _, True)) as Hloop.
  unfold dijkstraWithBattery, loopEnd in *.
  destruct (source =? destination); [done|].
  destruct (endpoints_checked g source destination)
    as [(Hs & Hd & ->)|(_ & what & ->)]; [|done].
  destruct (_ =? 0); [done|].
  specialize (Hloop ltac:(done) ltac:(done) ltac:(done) ltac:(done)).
  destruct (initState_Return g source) as (h & _ & _ & _ & Hinit).
  rewrite Hinit in Hloop |- *. cbn [mbind outcome_bind] in *.
  destruct (mainLoop fuel g destination initialBattery mileage _) as [st| | |];
    cbn [mbind outcome_bind]; try done.
  - destruct (_ =? INT_MAX); [done|].
    pose proof (buildPath_never_throws fuel (previous st) destination []) as Hp.
    by destruct (buildPath _ _ _ _).
  - destruct Hloop as (u & [v w] & Hnb & Hdef).
    apply int_div_defined_false in Hdef. eauto.
Qed.

Lemma initState_unset g :
  ∀ v, batteryUsed (foldl initNode (mkState ∅ ∅ ∅ MinHeap.new) (Graph.getNodes g))
         !! v = None ∨
       distances (foldl initNode (mkState ∅ ∅ ∅ MinHeap.new) (Graph.getNodes g))
         !! v = Some INT_MAX.
Proof.
  assert (∀ ns st,
            (∀ v, batteryUsed st !! v = None ∨ distances st !! v = Some INT_MAX) →
            ∀ v, batteryUsed (foldl initNode st ns) !! v = None ∨
                 distances (foldl initNode st ns) !! v = Some INT_MAX) as H.
  { induction ns as [|n ns IH]; intros st Hst; simpl; [done|].
    apply IH. intros v. unfold initNode. simpl. rewrite !lookup_insert.
    case_decide; [by right|apply Hst]. }
  apply H. intros v. left. apply lookup_empty.
Qed.

(** A successful run never reports more battery use than the budget
    allows. *)
Theorem battery_within_budget (fuel : nat) (g : Graph.t)
    (source destination initialBattery mileage : Z) (res : PathfindingResult) :
  0 ≤ initialBattery →
  dijkstraWithBattery fuel g source destination initialBattery mileage = Return res →
  success res = true →
  ∃ b, totalBatteryUsed res = Some b ∧ b ≤ initialBattery.
Proof.
  intros HB Hres Hok.
  destruct (solver_success_inv _ _ _ _ _ _ _ Hres Hok)
    as [[_ ->]|(_ & _ & _ & st & p & Hloop & Hd & _ & ->)]; [by exists 0|].
  exists (map_at (batteryUsed st) destination). split; [done|].
  pose proof (loopEnd_invariant fuel g source destination initialBattery mileage
    (λ st, ∀ v, map_at (batteryUsed st) v ≤ initialBattery ∨
                map_at (distances st) v = INT_MAX)
    (λ _ st, ∀ v, map_at (batteryUsed st) v ≤ initialBattery ∨
                  map_at (distances st) v = INT_MAX)) as Hinv.
  rewrite Hloop in Hinv. destruct Hinv as [Hinv _]; [done| | |  |].
  - intros u st0 nb st' HQ Hh _ Hr.
    destruct (relax_cases initialBattery mileage u st0 nb Hh
                (relax_Return_defined _ _ _ _ _ _ Hr))
      as [[Hr' _]|(Hb & _ & h' & Hr' & _)];
      rewrite Hr' in Hr; injection Hr as <-; [done|].
    intros v. simpl. rewrite !map_at_insert. case_decide; [by left|apply HQ].
  - done.
  - intros st0 Hinit.
    destruct (initState_Return g source) as (h & _ & _ & _ & Hinit').
    rewrite Hinit' in Hinit. injection Hinit as <-. intros v. simpl.
    rewrite !map_at_insert. case_decide; [by left|].
    destruct (initState_unset g v) as [Hn|Hn]; unfold map_at; rewrite Hn; simpl;
      [by left|by right].
  - destruct (Hinv destination); [done|congruence].
Qed.

Lemma battery_within_budget_witness :
  0 ≤ 2 ∧
  dijkstraWithBattery 4 line3 1 3 2 10 =
    Return (mkResult [1; 2; 3] (Some 20) (Some 2) true "Path found successfully") ∧
  ∃ b, Some 2 = Some b ∧ b ≤ 2.
Proof.
  assert (dijkstraWithBattery 4 line3 1 3 2 10 =
    Return (mkResult [1; 2; 3] (Some 20) (Some 2) true "Path found successfully"))
    as Hr by (vm_compute; reflexivity).
  split; [lia|]. split; [exact Hr|].
  exact (battery_within_budget 4 line3 1 3 2 10 _ ltac:(lia) Hr eq_refl).
Defined.

(** ** The solver: what a result looks like *)

(** Every result is of one of two kinds.  A failure has an empty path, no
    totals, and the message of an invalid endpoint or of a missing feasible
    path (never that of an empty graph).  A success has both totals and the
    message of the trivial or of the found path. *)
Theorem result_shape (fuel : nat) (g : Graph.t)
    (source destination initialBattery mileage : Z) (res : PathfindingResult) :
  dijkstraWithBattery fuel g source destination initialBattery mileage = Return res →
  if success res
  then is_Some (totalDistance res) ∧ is_Some (totalBatteryUsed res) ∧
       (message res = "Source and destination are the same" ∨
        message res = "Path found successfully")
  else path res = [] ∧ totalDistance res = None ∧ totalBatteryUsed res = None ∧
       (message res = "Invalid source or destination node" ∨
        message res = "No path exists within battery constraints").
Proof.
  unfold dijkstraWithBattery.
  destruct (source =? destination); [intros [= <-]; simpl; eauto 10|].
  destruct (endpoints_checked g source destination)
    as [(Hs & _ & ->)|(_ & what & ->)]; [|intros [= <-]; simpl; eauto 10].
  rewrite (nodeCount_nonzero g source Hs).
  destruct (initState g source) as [st0| | |]; try done. cbn [mbind outcome_bind].
  destruct (mainLoop _ _ _ _ _ _) as [st| | |]; try done. cbn [mbind outcome_bind].
  destruct (_ =? INT_MAX); [intros [= <-]; simpl; eauto 10|].
  destruct (buildPath _ _ _ _) as [p| | |]; try done.
  cbn [mbind outcome_bind]. intros [= <-]. simpl. eauto 10.
Qed.

Lemma result_shape_witness :
  dijkstraWithBattery 4 line3 1 3 1 10 =
    Return (mkResult [] None None false
              "No path exists within battery constraints") ∧
  dijkstraWithBattery 4 line3 1 3 2 10 =
    Return (mkResult [1; 2; 3] (Some 20) (Some 2) true "Path found successfully") ∧
  is_Some (Some 20) ∧ is_Some (Some 2).
Proof.
  assert (dijkstraWithBattery 4 line3 1 3 2 10 =
    Return (mkResult [1; 2; 3] (Some 20) (Some 2) true "Path found successfully"))
    as Hr by (vm_compute; reflexivity).
  split; [vm_compute; reflexivity|]. split; [exact Hr|].
  destruct (result_shape 4 line3 1 3 2 10 _ Hr) as (H1 & H2 & _).
  split; [exact H1|exact H2].
Defined.

(** The sequence that the backward walk over the predecessors collects. *)
Lemma buildPath_chain fuel prev : ∀ c acc p,
  buildPath fuel prev c acc = Return p →
  ∃ chain, p = acc ++ chain ∧
    (c = -1 → chain = []) ∧
    (c ≠ -1 → head chain = Some c) ∧
    (∀ i a b, chain !! i = Some a → chain !! S i = Some b →
       b = map_at prev a ∧ b ≠ -1) ∧
    (∀ a, last chain = Some a → map_at prev a = -1).
Proof.
  induction fuel as [|fuel IH]; intros c acc p; simpl; [done|].
  destruct (Z.eqb_spec c (-1)) as [->|Hc].
  { intros [= <-]. exists []. rewrite app_nil_r. split_and!; try done. }
  intros Hb. destruct (IH _ _ _ Hb) as (chain & -> & Hnil & Hhead & Hstep & Hlast).
  exists (c :: chain). rewrite <- (assoc_L (++)). split_and!; try done.
  - intros [|i] a b; simpl.
    + intros [= <-] Hb0. destruct (decide (map_at prev c = -1)) as [E|E].
      * rewrite (Hnil E) in Hb0. done.
      * specialize (Hhead E). rewrite head_lookup in Hhead. split; congruence.
    + apply Hstep.
  - intros a. destruct chain as [|x chain'] eqn:Ech.
    + simpl. intros [= <-]. destruct (decide (map_at prev c = -1)) as [E|E]; [done|].
      by specialize (Hhead E).
    + rewrite last_cons_cons. apply Hlast.
Qed.

(** The path of a success ends at the destination, unless the
    destination's id is -1: the backward walk over the predecessors takes
    that id for "no predecessor" and collects nothing, so the path reported
    for such a destination is empty. *)
Theorem path_ends_at_destination (fuel : nat) (g : Graph.t)
    (source destination initialBattery mileage : Z) (res : PathfindingResult) :
  dijkstraWithBattery fuel g source destination initialBattery mileage = Return res →
  success res = true →
  (destination ≠ -1 → last (path res) = Some destination) ∧
  (destination = -1 → source ≠ destination → path res = []).
Proof.
  intros Hres Hok.
  destruct (solver_success_inv _ _ _ _ _ _ _ Hres Hok)
    as [[-> ->]|(Hsd & _ & _ & st & p & _ & _ & Hp & ->)]; [done|].
  destruct (buildPath_chain _ _ _ _ _ Hp) as (chain & -> & Hnil & Hhead & _).
  simpl. split.
  - intros Hd. rewrite last_reverse. by apply Hhead.
  - intros Hd _. by rewrite (Hnil Hd).
Qed.

Lemma path_ends_at_destination_witness :
  dijkstraWithBattery 5 minus_one 1 (-1) 100 10 =
    Return (mkResult [] (Some 10) (Some 1) true "Path found successfully") ∧
  dijkstraWithBattery 4 line3 1 3 2 10 =
    Return (mkResult [1; 2; 3] (Some 20) (Some 2) true "Path found successfully") ∧
  last [1; 2; 3] = Some 3.
Proof.
  assert (dijkstraWithBattery 4 line3 1 3 2 10 =
    Return (mkResult [1; 2; 3] (Some 20) (Some 2) true "Path found successfully"))
    as Hr by (vm_compute; reflexivity).
  split; [vm_compute; reflexivity|]. split; [exact Hr|].
  apply (proj1 (path_ends_at_destination 4 line3 1 3 2 10 _ Hr eq_refl)). lia.
Defined.

(** ** The solver: the path it reports *)

Lemma initNode_fold ns : ∀ st v,
  distances (foldl initNode st ns) !! v =
    (if decide (v ∈ node_id <$> ns) then Some INT_MAX else distances st !! v) ∧
  batteryUsed (foldl initNode st ns) !! v =
    (if decide (v ∈ node_id <$> ns) then Some INT_MAX else batteryUsed st !! v) ∧
  previous (foldl initNode st ns) !! v =
    (if decide (v ∈ node_id <$> ns) then Some (-1) else previous st !! v).
Proof.
  induction ns as [|n ns IH]; intros st v.
  - rewrite fmap_nil. destruct (decide (v ∈ [])) as [H%elem_of_nil|]; done.
  - simpl foldl. destruct (IH (initNode st n) v) as (-> & -> & ->).
    rewrite fmap_cons. unfold initNode. simpl. rewrite !lookup_insert.
    destruct (decide (v ∈ node_id <$> ns)) as [Hin|Hin].
    + rewrite !decide_True by (by right). done.
    + destruct (decide (node_id n = v)) as [<-|Hne].
      * rewrite !decide_True by left. done.
      * assert (v ∉ node_id n :: (node_id <$> ns)) as Hnot
          by (rewrite elem_of_cons; naive_solver).
        rewrite !decide_False by done. done.
Qed.

Lemma priorityOf_dom h id k :
  priorityOf h id = Some k → id ∈ dom (MinHeap.nodeToIndex h).
Proof.
  unfold priorityOf. destruct (MinHeap.nodeToIndex h !! id) eqn:Hm; [|done].
  intros _. by eapply elem_of_dom_2.
Qed.

Section path.
Context (g : Graph.t) (source initialBattery mileage : Z).
Hypothesis no_minus_one : -1 ∉ nodeIds g.
Hypothesis well_formed : neighbors_are_nodes g.
Hypothesis source_node : source ∈ nodeIds g.

Lemma tree_inv_init st0 :
  initState g source = Return st0 → tree_inv g source st0.
Proof.
  intros Hinit. destruct (initState_Return g source) as (h & _ & _ & Hdom & Hinit').
  rewrite Hinit' in Hinit. injection Hinit as <-.
  set (st := foldl initNode _ _).
  pose proof (initNode_fold (Graph.getNodes g) (mkState ∅ ∅ ∅ MinHeap.new)) as Hf.
  fold st in Hf. simpl in Hf.
  change (node_id <$> Graph.getNodes g) with (nodeIds g) in Hf.
  assert (∀ v, map_at (distances st) v = if decide (v ∈ nodeIds g) then INT_MAX else 0)
    as Hd.
  { intros v. unfold map_at. destruct (Hf v) as (-> & _ & _).
    case_decide; [done|]. by rewrite lookup_empty. }
  assert (∀ v, v ∈ nodeIds g → map_at (previous st) v = -1) as Hp.
  { intros v Hv. unfold map_at. destruct (Hf v) as (_ & _ & ->).
    by rewrite decide_True. }
  split_and!; simpl.
  - intros v. rewrite map_at_insert, Hd. repeat case_decide; unfold INT_MAX; lia.
  - intros v Hv Hne. by rewrite Hp in Hne.
  - intros v Hv Hne. rewrite map_at_insert, decide_False, Hd, decide_True by done.
    done.
  - intros id k Hk. apply priorityOf_dom in Hk. rewrite Hdom in Hk.
    apply elem_of_singleton in Hk as ->. split; [done|by left].
Qed.

Lemma tree_inv_extract st root h' :
  tree_inv g source st → heap_inv (minHeap st) →
  MinHeap.deleteRoot (minHeap st) = Return (root, h') →
  tree_inv g source (mkState (distances st) (batteryUsed st) (previous st) h') ∧
  nodeId root ∈ nodeIds g ∧
  reached source (mkState (distances st) (batteryUsed st) (previous st) h')
    (nodeId root).
Proof.
  intros (I1 & I2 & I3 & I4) Hinv Hd.
  destruct (deleteRoot_priority _ _ _ Hinv Hd) as (Hroot & Hp).
  split; [split_and!; try done|].
  - simpl. intros id k Hk. rewrite Hp in Hk. case_decide; [done|].
    by apply I4 in Hk.
  - by apply I4 in Hroot.
Qed.

Lemma tree_inv_relax u st nb st' :
  tree_inv g source st → u ∈ nodeIds g → reached source st u →
  heap_inv (minHeap st) → nb ∈ Graph.getNeighbors g u →
  relax initialBattery mileage u st nb = Return st' →
  tree_inv g source st' ∧ reached source st' u.
Proof.
  intros (I1 & I2 & I3 & I4) Hu Hru Hinv Hnb Hr.
  destruct (relax_cases initialBattery mileage u st nb Hinv
              (relax_Return_defined _ _ _ _ _ _ Hr))
    as [[Hr' _]|(_ & Hlt & h' & Hr' & _ & _ & Hp)];
    rewrite Hr' in Hr; injection Hr as <-; [done|].
  set (nd := int_add (map_at (distances st) u) nb.2) in *.
  destruct nb as [v w]. simpl in *.
  assert (nd ≠ INT_MAX) as Hnd by (specialize (I1 v); lia).
  assert (v ∈ nodeIds g) as Hv.
  { pose proof (proj1 (neighbors_are_nodes_alt g) well_formed) as Hwf.
    by apply (Hwf u v w). }
  assert (∀ x, reached source st x →
            reached source (mkState (<[v := nd]> (distances st))
              (<[v := int_add (map_at (batteryUsed st) u)
                        (batteryConsumption w mileage)]> (batteryUsed st))
              (<[v := u]> (previous st)) h') x) as Hmono.
  { intros x [->|Hx]; [by left|]. right. simpl. rewrite map_at_insert.
    by case_decide. }
  split; [split_and!|by apply Hmono]; simpl.
  - intros x. rewrite map_at_insert. case_decide; [specialize (I1 v); lia|apply I1].
  - intros x Hx. rewrite map_at_insert. case_decide as Hxv.
    + subst x. intros _. split_and!; [done|by apply Hmono|eauto].
    + intros Hne. destruct (I2 x Hx Hne) as (? & ? & ?). split_and!; eauto.
  - intros x Hx Hxs. rewrite !map_at_insert. case_decide as Hxv.
    + intros _ ->. done.
    + by apply I3.
  - intros id k. rewrite Hp. case_decide as Hid.
    + subst id. intros _. split; [done|]. right. simpl.
      by rewrite map_at_insert, decide_True.
    + intros Hk. destruct (I4 id k Hk). split; [done|by apply Hmono].
Qed.

Lemma tree_inv_loopEnd fuel destination st :
  loopEnd fuel g source destination initialBattery mileage = Return st →
  tree_inv g source st.
Proof.
  intros Hloop.
  pose proof (loopEnd_invariant fuel g source destination initialBattery mileage
    (tree_inv g source)
    (λ u st, tree_inv g source st ∧ u ∈ nodeIds g ∧ reached source st u)) as H.
  rewrite Hloop in H. apply H.
  - intros st0 root h' HP Hinv Hd. by apply tree_inv_extract.
  - intros u st0 nb st' (HP & Hu & Hru) Hinv Hnb Hr.
    destruct (tree_inv_relax u st0 nb st' HP Hu Hru Hinv Hnb Hr). done.
  - by intros u st0 (? & _).
  - apply tree_inv_init.
Qed.

(** Along the chain of predecessors that starts at a reached node. *)
Lemma chain_reached st chain c :
  tree_inv g source st → c ∈ nodeIds g → reached source st c →
  head chain = Some c →
  (∀ i a b, chain !! i = Some a → chain !! S i = Some b →
     b = map_at (previous st) a ∧ b ≠ -1) →
  ∀ i a, chain !! i = Some a → a ∈ nodeIds g ∧ reached source st a.
Proof.
  intros (I1 & I2 & I3 & I4) Hc Hrc Hhead Hstep. rewrite head_lookup in Hhead.
  induction i as [|i IH]; intros a Ha.
  - assert (a = c) as -> by congruence. done.
  - destruct (lookup_lt_is_Some_2 chain i) as [x Hx].
    { apply lookup_lt_Some in Ha. lia. }
    destruct (IH x Hx) as [Hxn Hxr].
    destruct (Hstep i x a Hx Ha) as [-> Hne].
    destruct (I2 x Hxn Hne) as (? & ? & _). done.
Qed.

End path.

(** On a graph that lists only nodes as neighbors and has no node with the
    id -1, the path of a success is a walk of the graph from the source to
    the destination: it starts at the source, ends at the destination, and
    each of its nodes lists the next one as a neighbor. *)
Theorem path_is_walk (fuel : nat) (g : Graph.t)
    (source destination initialBattery mileage : Z) (res : PathfindingResult) :
  -1 ∉ nodeIds g → neighbors_are_nodes g →
  dijkstraWithBattery fuel g source destination initialBattery mileage = Return res →
  success res = true →
  head (path res) = Some source ∧ last (path res) = Some destination ∧
  is_walk g (path res).
Proof.
  intros Hm1 Hwf Hres Hok.
  destruct (solver_success_inv _ _ _ _ _ _ _ Hres Hok)
    as [[-> ->]|(Hsd & Hs & Hd & st & p & Hloop & Hdist & Hp & ->)].
  { split_and!; [done..|]. intros [|i] a b; simpl; [done|].
    by rewrite lookup_nil. }
  pose proof (tree_inv_loopEnd g source initialBattery mileage Hm1 Hwf Hs
                fuel destination st Hloop) as Htree.
  destruct (buildPath_chain _ _ _ _ _ Hp) as (chain & -> & _ & Hhead & Hstep & Hlast).
  assert (destination ≠ -1) as Hd1 by (intros ->; done).
  specialize (Hhead Hd1). simpl.
  pose proof (chain_reached g source st chain destination Htree Hd
                (or_intror Hdist) Hhead Hstep) as Hall.
  destruct Htree as (I1 & I2 & I3 & I4).
  split_and!.
  - rewrite head_reverse. destruct (last chain) as [a|] eqn:Ha.
    + f_equal. pose proof (Hlast a eq_refl) as Hprev.
      rewrite last_lookup in Ha. destruct (Hall _ _ Ha) as [Han [->|Har]]; [done|].
      destruct (decide (a = source)) as [->|Hne]; [done|].
      by destruct (I3 a Han Hne Har).
    + apply last_None in Ha. by rewrite Ha in Hhead.
  - by rewrite last_reverse.
  - intros i a b [Ha Hi]%reverse_lookup_Some [Hb Hi']%reverse_lookup_Some.
    replace (length chain - S i)%nat with (S (length chain - S (S i))) in Ha by lia.
    destruct (Hstep _ _ _ Hb Ha) as [-> Hne].
    destruct (Hall _ _ Hb) as [Hbn _].
    destruct (I2 b Hbn Hne) as (_ & _ & Hw). done.
Qed.

Lemma path_is_walk_witness :
  (-1 ∉ nodeIds line3) ∧ neighbors_are_nodes line3 ∧
  dijkstraWithBattery 4 line3 1 3 2 10 =
    Return (mkResult [1; 2; 3] (Some 20) (Some 2) true "Path found successfully") ∧
  head [1; 2; 3] = Some 1 ∧ last [1; 2; 3] = Some 3 ∧ is_walk line3 [1; 2; 3].
Proof.
  assert (-1 ∉ nodeIds line3) as Hm1.
  { vm_compute. intros H.
    repeat (apply elem_of_cons in H as [H|H]; [discriminate H|]).
    by apply elem_of_nil in H. }
  assert (neighbors_are_nodes line3) as Hwf.
  { unfold line3.
    apply neighbors_are_nodes_addEdge, neighbors_are_nodes_addEdge,
      neighbors_are_nodes_new. }
  assert (dijkstraWithBattery 4 line3 1 3 2 10 =
    Return (mkResult [1; 2; 3] (Some 20) (Some 2) true "Path found successfully"))
    as Hr by (vm_compute; reflexivity).
  split; [exact Hm1|]. split; [exact Hwf|]. split; [exact Hr|].
  exact (path_is_walk 4 line3 1 3 2 10 _ Hm1 Hwf Hr eq_refl).
Defined.

(** ** The solver: the totals it reports *)

Lemma wrap_small z : INT_MIN ≤ z ≤ INT_MAX → wrap z = z.
Proof.
  unfold INT_MIN, INT_MAX, wrap. intros Hz.
  rewrite Z.mod_small by lia. lia.
Qed.

Lemma batteryConsumption_bounds w r :
  0 ≤ w → 0 < r →
  1 ≤ batteryConsumption w r ∧ batteryConsumption w r ≤ Z.max 1 w ∧
  w ≤ 2 * r * batteryConsumption w r.
Proof.
  intros Hw Hr. unfold batteryConsumption. rewrite Z.quot_div_nonneg by lia.
  pose proof (Z.div_mod w r ltac:(lia)) as Hdiv.
  pose proof (Z.mod_pos_bound w r Hr) as Hmod.
  assert (0 ≤ w / r) by (apply Z.div_pos; lia).
  assert (w / r ≤ w) by (apply Z.div_le_upper_bound; nia).
  destruct (Z.ltb_spec (w / r) 1); split_and!; try lia; nia.
Qed.

Lemma sumZ_app l1 l2 : sumZ (l1 ++ l2) = sumZ l1 + sumZ l2.
Proof. unfold sumZ. induction l1 as [|x l1 IH]; simpl; lia. Qed.

Lemma sumZ_reverse l : sumZ (reverse l) = sumZ l.
Proof.
  induction l as [|x l IH]; [done|].
  rewrite reverse_cons, sumZ_app, IH. unfold sumZ. simpl. lia.
Qed.

Section settled.
Context (g : Graph.t) (source initialBattery mileage maxWeight : Z).
Hypothesis mileage_pos : 0 < mileage.
Hypothesis budget_nonneg : 0 ≤ initialBattery.
Hypothesis no_overflow : 2 * mileage * initialBattery + maxWeight ≤ INT_MAX.
Hypothesis weights : ∀ u v w,
  (v, w) ∈ Graph.getNeighbors g u → 0 ≤ w ≤ maxWeight.
Hypothesis well_formed : neighbors_are_nodes g.
Hypothesis source_node : source ∈ nodeIds g.

Lemma settled_init st0 :
  initState g source = Return st0 →
  settled_inv g source initialBattery mileage st0.
Proof.
  intros Hinit. destruct (initState_Return g source) as (h & Ha & _ & _ & Hinit').
  rewrite Hinit' in Hinit. injection Hinit as <-.
  pose proof (addNode_fresh_priority MinHeap.new source 0 h heap_inv_new
                (lookup_empty _) Ha) as Hq.
  assert (∀ id, priorityOf MinHeap.new id = None) as Hnew by done.
  set (st := foldl initNode _ _).
  pose proof (initNode_fold (Graph.getNodes g) (mkState ∅ ∅ ∅ MinHeap.new)) as Hf.
  fold st in Hf. simpl in Hf.
  change (node_id <$> Graph.getNodes g) with (nodeIds g) in Hf.
  assert (∀ v, map_at (distances st) v = if decide (v ∈ nodeIds g) then INT_MAX else 0)
    as Hd.
  { intros v. unfold map_at. destruct (Hf v) as (-> & _ & _).
    case_decide; [done|]. by rewrite lookup_empty. }
  assert (∀ v, v ∈ nodeIds g → map_at (previous st) v = -1) as Hp.
  { intros v Hv. unfold map_at. destruct (Hf v) as (_ & _ & ->).
    by rewrite decide_True. }
  assert (∀ v, v ∈ nodeIds g → v ≠ source →
            ¬ reached source
                (mkState (<[source := 0]> (distances st))
                   (<[source := 0]> (batteryUsed st)) (previous st) h) v) as Hnr.
  { intros v Hv Hne [->|Hr]; [done|]. simpl in Hr.
    rewrite map_at_insert, decide_False, Hd, decide_True in Hr by done. done. }
  split_and!; simpl.
  - intros v. rewrite map_at_insert, Hd. repeat case_decide; unfold INT_MAX; lia.
  - by rewrite map_at_insert, decide_True.
  - by rewrite map_at_insert, decide_True.
  - by apply Hp.
  - intros v Hv Hr. destruct (decide (v = source)) as [->|Hne].
    + rewrite !map_at_insert, !decide_True by done. lia.
    + by destruct (Hnr v Hv Hne).
  - intros v k. rewrite Hq, Hnew. case_decide; [|done]. subst v. intros [= <-].
    split_and!; [done|by left|]. by rewrite map_at_insert, decide_True.
  - intros x v k (Hx & Hr & Hnq). simpl in Hnq. rewrite Hq in Hnq.
    case_decide; [done|]. by destruct (Hnr x Hx).
  - intros v Hv Hne. rewrite map_at_insert, decide_False, Hd, decide_True by done.
    done.
Qed.

Lemma settled_extract st root h' :
  settled_inv g source initialBattery mileage st → heap_inv (minHeap st) →
  MinHeap.deleteRoot (minHeap st) = Return (root, h') →
  let st1 := mkState (distances st) (batteryUsed st) (previous st) h' in
  settled_inv g source initialBattery mileage st1 ∧
  closed g source st1 (nodeId root) ∧
  (∀ x, closed g source st1 x →
     map_at (distances st1) x ≤ map_at (distances st1) (nodeId root)) ∧
  ¬ closed g source st (nodeId root) ∧
  (∀ x, closed g source st1 x ↔ x = nodeId root ∨ closed g source st x).
Proof.
  intros (K0 & (K5a & K5b & K5c) & K1 & K2 & K3 & K4) Hinv Hd st1.
  destruct (deleteRoot_priority _ _ _ Hinv Hd) as (Hroot & Hp).
  destruct (deleteRoot_Return _ _ _ Hinv Hd) as (_ & _ & _ & Hmin).
  destruct (K2 _ _ Hroot) as (Hrn & Hrr & Hrk).
  assert (∀ v k, priorityOf (minHeap st) v = Some k → distance root ≤ k) as Hleast.
  { intros v k Hk. destruct (minHeap st) as [l m]. destruct Hinv as [_ Hc].
    simpl in Hc. apply priorityOf_Some in Hk as (i & n & Hn & _ & <-); [|done].
    rewrite Forall_forall in Hmin. apply Hmin. by eapply list_elem_of_lookup_2. }
  assert (∀ x, closed g source st1 x → x = nodeId root ∨ closed g source st x)
    as Hcl.
  { intros x (Hx & Hr & Hq). simpl in Hq. rewrite Hp in Hq.
    case_decide; [by left|]. right. done. }
  assert (∀ x, closed g source st x → closed g source st1 x) as Hcl'.
  { intros x (Hx & Hr & Hq). split_and!; [done..|]. simpl. rewrite Hp.
    by case_decide. }
  assert (closed g source st1 (nodeId root)) as Hcr.
  { split_and!; [done..|]. simpl. by rewrite Hp, decide_True. }
  split; [split_and!; try done|split; [done|split; [|split]]].
  - simpl. intros v k. rewrite Hp. case_decide; [done|]. apply K2.
  - simpl. intros x v k Hx. rewrite Hp. case_decide; [done|]. intros Hk.
    destruct (Hcl x Hx) as [->|Hx']; [|by eapply K3].
    specialize (Hleast v k Hk). lia.
  - intros v Hv Hne Hdist. destruct (K4 v Hv Hne Hdist) as (Hc & Hw).
    split; [by apply Hcl'|done].
  - intros x Hx. simpl. destruct (Hcl x Hx) as [->|Hx']; [done|].
    specialize (K3 x (nodeId root) (distance root) Hx' Hroot). lia.
  - intros (_ & _ & Hq). congruence.
  - intros x. split; [apply Hcl|]. intros [->|Hx]; [done|by apply Hcl'].
Qed.

Lemma settled_relax u st nb st' :
  settled_inv g source initialBattery mileage st →
  closed g source st u →
  (∀ x, closed g source st x → map_at (distances st) x ≤ map_at (distances st) u) →
  heap_inv (minHeap st) → nb ∈ Graph.getNeighbors g u →
  relax initialBattery mileage u st nb = Return st' →
  settled_inv g source initialBattery mileage st' ∧
  closed g source st' u ∧
  (∀ x, closed g source st' x →
     map_at (distances st') x ≤ map_at (distances st') u) ∧
  (∀ x, closed g source st' x ↔ closed g source st x) ∧
  (∀ x, closed g source st x →
     map_at (previous st') x = map_at (previous st) x).
Proof.
  intros (K0 & (K5a & K5b & K5c) & K1 & K2 & K3 & K4) Hcu Hle Hinv Hnb Hr.
  destruct (relax_cases initialBattery mileage u st nb Hinv
              (relax_Return_defined _ _ _ _ _ _ Hr))
    as [[Hr' _]|(Hb & Hlt & h' & Hr' & _ & _ & Hp)];
    rewrite Hr' in Hr; injection Hr as <-.
  { split; [by split_and!|by split_and!]. }
  destruct nb as [v w]. simpl in Hb, Hlt, Hp |- *.
  destruct Hcu as (Hu & Hru & Hqu).
  pose proof (weights u v w Hnb) as Hw.
  destruct (batteryConsumption_bounds w mileage ltac:(lia) mileage_pos)
    as (Hc1 & Hc2 & Hc3).
  destruct (K1 u Hu Hru) as (Hbu & Hdu).
  set (du := map_at (distances st) u) in *.
  set (bu := map_at (batteryUsed st) u) in *.
  set (c := batteryConsumption w mileage) in *.
  assert (2 * mileage * bu ≤ 2 * mileage * initialBattery) as Hprod by nia.
  assert (1 ≤ INT_MAX) as Hmax by (unfold INT_MAX; lia).
  assert (int_add du w = du + w) as End.
  { apply wrap_small. unfold INT_MIN. lia. }
  assert (int_add bu c = bu + c) as Enb.
  { apply wrap_small. unfold INT_MIN. split; [lia|].
    destruct (decide (initialBattery = 0)) as [E0|E0]; [lia|].
    assert (2 * initialBattery ≤ 2 * mileage * initialBattery) by nia. lia. }
  rewrite End, Enb in *. clear End Enb.
  assert (v ∈ nodeIds g) as Hv.
  { pose proof (proj1 (neighbors_are_nodes_alt g) well_formed) as Hwf.
    by apply (Hwf u v w). }
  assert (v ≠ source) as Hvs by (intros ->; lia).
  assert (v ≠ u) as Hvu by (intros ->; fold du in Hlt; lia).
  assert (¬ closed g source st v) as Hvc.
  { intros Hc. specialize (Hle v Hc). fold du in Hle. lia. }
  assert (du + w ≠ INT_MAX) as Hnd by (specialize (K0 v); lia).
  set (st' := mkState (<[v := du + w]> (distances st))
                      (<[v := bu + c]> (batteryUsed st))
                      (<[v := u]> (previous st)) h').
  assert (∀ x, x ≠ v → map_at (distances st') x = map_at (distances st) x) as Ed.
  { intros x Hx. simpl. by rewrite map_at_insert, decide_False. }
  assert (∀ x, x ≠ v → map_at (batteryUsed st') x = map_at (batteryUsed st) x) as Eb.
  { intros x Hx. simpl. by rewrite map_at_insert, decide_False. }
  assert (∀ x, x ≠ v → map_at (previous st') x = map_at (previous st) x) as Ep.
  { intros x Hx. simpl. by rewrite map_at_insert, decide_False. }
  assert (map_at (distances st') v = du + w) as Edv
    by (simpl; by rewrite map_at_insert, decide_True).
  assert (map_at (batteryUsed st') v = bu + c) as Ebv
    by (simpl; by rewrite map_at_insert, decide_True).
  assert (map_at (previous st') v = u) as Epv
    by (simpl; by rewrite map_at_insert, decide_True).
  assert (priorityOf h' v = Some (du + w)) as Hqv.
  { rewrite Hp, decide_True by done. f_equal.
    destruct (priorityOf (minHeap st) v) as [old|] eqn:Hold; [|done].
    destruct (K2 v old Hold) as (_ & _ & ->). lia. }
  assert (∀ x, x ≠ v → priorityOf h' x = priorityOf (minHeap st) x) as Hqx.
  { intros x Hx. by rewrite Hp, decide_False. }
  assert (∀ x, reached source st x → reached source st' x) as Hmono.
  { intros x [->|Hx]; [by left|]. right.
    destruct (decide (x = v)) as [->|Hxv]; [by rewrite Edv|by rewrite Ed]. }
  assert (reached source st' v) as Hrv by (right; by rewrite Edv).
  assert (∀ x, x ≠ v → reached source st' x → reached source st x) as Hrev.
  { intros x Hx [->|Hr]; [by left|]. right. by rewrite Ed in Hr. }
  assert (∀ x, closed g source st' x → x ≠ v ∧ closed g source st x) as Hcl.
  { intros x (Hx & Hr & Hq). simpl in Hq.
    assert (x ≠ v) as Hxv by (intros ->; congruence).
    split; [done|]. rewrite Hqx in Hq by done. split_and!; auto. }
  assert (∀ x, closed g source st x → closed g source st' x) as Hcl'.
  { intros x Hx. assert (x ≠ v) as Hxv by (intros ->; done).
    destruct Hx as (Hx & Hr & Hq). split_and!; [done|by apply Hmono|].
    simpl. by rewrite Hqx. }
  fold st'. split; [split_and!|split; [|split; [|split]]].
  - intros x. destruct (decide (x = v)) as [->|Hxv].
    + rewrite Edv. specialize (K0 v). lia.
    + rewrite Ed by done. apply K0.
  - by rewrite Ed.
  - by rewrite Eb.
  - by rewrite Ep.
  - intros x Hx Hr. destruct (decide (x = v)) as [->|Hxv].
    + rewrite Edv, Ebv. split; [lia|]. split; [lia|]. nia.
    + rewrite Ed, Eb by done. apply K1; auto.
  - intros x k. change (minHeap st') with h'.
    destruct (decide (x = v)) as [->|Hxv].
    + rewrite Hqv. intros [= <-]. by rewrite Edv.
    + rewrite Hqx by done. intros Hk. destruct (K2 x k Hk) as (? & ? & ->).
      split_and!; [done|by apply Hmono|by rewrite Ed].
  - intros x y k Hx. destruct (Hcl x Hx) as [Hxv Hx']. rewrite Ed by done.
    change (minHeap st') with h'. destruct (decide (y = v)) as [->|Hyv].
    + rewrite Hqv. intros [= <-]. specialize (Hle x Hx'). fold du in Hle. lia.
    + rewrite Hqx by done. by apply K3.
  - intros x Hx Hxs. destruct (decide (x = v)) as [->|Hxv].
    + intros _. rewrite Epv, Edv, Ebv, Ed, Eb by done.
      split; [apply Hcl'; by split_and!|]. exists w. by split_and!.
    + rewrite Ed, Ep by done. intros Hdist.
      destruct (K4 x Hx Hxs Hdist) as (Hpc & w0 & Hw0 & Ed0 & Eb0).
      assert (map_at (previous st) x ≠ v) as Hpv by (intros E; by rewrite E in Hpc).
      split; [by apply Hcl'|]. exists w0. rewrite !Ed, !Eb by done.
      by split_and!.
  - apply Hcl'. by split_and!.
  - intros x Hx. destruct (Hcl x Hx) as [Hxv Hx'].
    rewrite !Ed by done. by apply Hle.
  - intros x. split; [by intros [_ ?]%Hcl|apply Hcl'].
  - intros x Hx. apply Ep. by intros ->.
Qed.

Lemma settled_loopEnd fuel destination st :
  loopEnd fuel g source destination initialBattery mileage = Return st →
  settled_inv g source initialBattery mileage st.
Proof.
  intros Hloop.
  pose proof (loopEnd_invariant fuel g source destination initialBattery mileage
    (settled_inv g source initialBattery mileage)
    (λ u st, settled_inv g source initialBattery mileage st ∧
             closed g source st u ∧
             ∀ x, closed g source st x →
               map_at (distances st) x ≤ map_at (distances st) u)) as H.
  rewrite Hloop in H. apply H.
  - intros st0 root h' HP Hinv Hd.
    destruct (settled_extract st0 root h' HP Hinv Hd) as (? & ? & ? & _). done.
  - intros u st0 nb st' (HP & Hu & Hle) Hinv Hnb Hr.
    destruct (settled_relax u st0 nb st' HP Hu Hle Hinv Hnb Hr) as (? & ? & ? & _).
    done.
  - by intros u st0 (? & _).
  - apply settled_init.
Qed.

Lemma closing_order_init st0 :
  initState g source = Return st0 → closing_order g source st0 [].
Proof.
  intros Hinit. pose proof (settled_init st0 Hinit) as (_ & _ & _ & K2 & _).
  destruct (initState_Return g source) as (h & Ha & _ & _ & Hinit').
  rewrite Hinit' in Hinit. injection Hinit as <-.
  pose proof (addNode_fresh_priority MinHeap.new source 0 h heap_inv_new
                (lookup_empty _) Ha) as Hq.
  pose proof (initNode_fold (Graph.getNodes g) (mkState ∅ ∅ ∅ MinHeap.new)) as Hf.
  simpl in Hf. change (node_id <$> Graph.getNodes g) with (nodeIds g) in Hf.
  split_and!; [apply NoDup_nil_2| |by intros v ?%elem_of_nil].
  intros x. split; [by intros ?%elem_of_nil|]. intros (Hx & Hr & Hnq).
  simpl in Hnq. rewrite Hq in Hnq. case_decide as Hxs; [done|].
  destruct Hr as [->|Hr]; [done|]. simpl in Hr.
  rewrite map_at_insert, decide_False in Hr by done. unfold map_at in Hr.
  destruct (Hf x) as (Hd & _). rewrite Hd, decide_True in Hr by done. done.
Qed.

Lemma closing_order_length st L :
  closing_order g source st L → (length L ≤ length (nodeIds g))%nat.
Proof.
  intros (Hnd & Hin & _). apply submseteq_length, NoDup_submseteq; [done|].
  intros x Hx. by apply Hin in Hx as (? & _).
Qed.

Lemma closing_order_extract st L root h' :
  settled_inv g source initialBattery mileage st →
  closing_order g source st L → heap_inv (minHeap st) →
  MinHeap.deleteRoot (minHeap st) = Return (root, h') →
  closing_order g source
    (mkState (distances st) (batteryUsed st) (previous st) h')
    (L ++ [nodeId root]) ∧
  (length L < length (nodeIds g))%nat.
Proof.
  intros Hset (Hnd & Hin & Hord) Hinv Hd.
  destruct (settled_extract st root h' Hset Hinv Hd)
    as (Hset1 & Hcr & _ & Hncr & Hiff).
  destruct Hset as (_ & _ & _ & _ & _ & K4).
  assert (nodeId root ∉ L) as HrL by (intros H; by apply Hin in H).
  assert (closing_order g source
            (mkState (distances st) (batteryUsed st) (previous st) h')
            (L ++ [nodeId root])) as Hco.
  { split_and!.
    - apply NoDup_app. split_and!; [done| |apply NoDup_singleton].
      intros x Hx ->%list_elem_of_singleton. done.
    - intros x. rewrite elem_of_app, list_elem_of_singleton, Hiff, Hin. tauto.
    - intros v Hv Hvs. simpl. apply elem_of_app in Hv as [Hv|Hv].
      + destruct (Hord v Hv Hvs) as (i & j & Hi & Hj & Hij).
        exists i, j. split_and!; [by apply lookup_app_l_Some..|done].
      + apply list_elem_of_singleton in Hv as ->.
        destruct Hcr as (Hrn & [E|Hrr] & _); [done|]. simpl in Hrr.
        destruct (K4 _ Hrn Hvs Hrr) as (Hpc & _).
        apply Hin, list_elem_of_lookup in Hpc as [i Hi].
        exists i, (length L). split_and!.
        * by apply lookup_app_l_Some.
        * by rewrite lookup_app_r, Nat.sub_diag.
        * by apply lookup_lt_Some in Hi. }
  split; [done|]. apply closing_order_length in Hco.
  rewrite length_app in Hco. simpl in Hco. lia.
Qed.

Lemma relaxAll_settled u L nbs : ∀ st,
  settled_inv g source initialBattery mileage st →
  closed g source st u →
  (∀ x, closed g source st x → map_at (distances st) x ≤ map_at (distances st) u) →
  closing_order g source st L → heap_inv (minHeap st) →
  nbs ⊆ Graph.getNeighbors g u →
  ∃ st', relaxAll initialBattery mileage u nbs st = Return st' ∧
    settled_inv g source initialBattery mileage st' ∧
    closing_order g source st' L ∧ heap_inv (minHeap st').
Proof.
  induction nbs as [|nb nbs IH]; intros st Hset Hcu Hle Hco Hinv Hsub; simpl;
    [eauto|].
  assert (∃ st1, relax initialBattery mileage u st nb = Return st1 ∧
                 heap_inv (minHeap st1)) as (st1 & Hr & Hinv1).
  { destruct (relax_cases initialBattery mileage u st nb Hinv
                (int_div_defined_pos _ _ mileage_pos))
      as [[Hr _]|(_ & _ & h' & Hr & Hinv' & _)]; eauto. }
  rewrite Hr. simpl.
  destruct (settled_relax u st nb st1 Hset Hcu Hle Hinv ltac:(set_solver) Hr)
    as (Hset1 & Hcu1 & Hle1 & Hiff & Hprev).
  apply IH; try done; [|set_solver].
  destruct Hco as (Hnd & Hin & Hord). split_and!; [done| |].
  - intros x. by rewrite Hin, Hiff.
  - intros v Hv Hvs. rewrite Hprev by (by apply Hin). by apply Hord.
Qed.

Lemma mainLoop_terminates destination fuel : ∀ st L,
  settled_inv g source initialBattery mileage st →
  closing_order g source st L → heap_inv (minHeap st) →
  (length (nodeIds g) - length L < fuel)%nat →
  ∃ st' L', mainLoop fuel g destination initialBattery mileage st = Return st' ∧
    settled_inv g source initialBattery mileage st' ∧
    closing_order g source st' L' ∧ heap_inv (minHeap st') ∧
    (MinHeap.isEmpty (minHeap st') = true ∨ destination ∈ L').
Proof.
  induction fuel as [|fuel IH]; intros st L Hset Hco Hinv Hfuel; [lia|].
  rewrite mainLoop_S. pose proof (deleteRoot_min _ Hinv) as Hd.
  destruct (MinHeap.isEmpty (minHeap st)) eqn:He; [by eauto 10|].
  destruct Hd as (root & h' & Hd & _ & _ & _ & Hinv').
  rewrite Hd. cbn [mbind outcome_bind]. cbv zeta.
  destruct (settled_extract st root h' Hset Hinv Hd)
    as (Hset1 & Hcr & Hle & _ & _).
  destruct (closing_order_extract st L root h' Hset Hco Hinv Hd) as (Hco1 & Hlen).
  destruct (Z.eqb_spec (nodeId root) destination) as [E|E].
  { eexists _, _. split_and!; try done. right. rewrite <- E. set_solver. }
  destruct (relaxAll_settled (nodeId root) (L ++ [nodeId root])
              (Graph.getNeighbors g (nodeId root)) _ Hset1 Hcr Hle Hco1 Hinv'
              ltac:(done)) as (st2 & -> & Hset2 & Hco2 & Hinv2).
  cbn [mbind outcome_bind]. apply (IH st2 (L ++ [nodeId root])); try done.
  rewrite length_app. simpl. lia.
Qed.

Lemma buildPath_terminates st L :
  -1 ∉ nodeIds g →
  settled_inv g source initialBattery mileage st →
  closing_order g source st L →
  ∀ i c acc fuel, L !! i = Some c → (S i < fuel)%nat →
    ∃ p, buildPath fuel (previous st) c acc = Return p.
Proof.
  intros Hm1 (_ & (_ & _ & K5c) & _) (Hnd & Hin & Hord) i.
  induction (lt_wf i) as [i _ IH]. intros c acc [|fuel] Hc Hfuel; [lia|].
  simpl. assert (c ≠ -1) as Hc1.
  { intros ->. apply list_elem_of_lookup_2, Hin in Hc as (? & _). done. }
  rewrite (proj2 (Z.eqb_neq c (-1))) by done.
  destruct (decide (c = source)) as [->|Hcs].
  { rewrite K5c. destruct fuel as [|fuel]; [lia|]. simpl. eauto. }
  destruct (Hord c (list_elem_of_lookup_2 _ _ _ Hc) Hcs) as (j & i' & Hj & Hi' & Hji).
  assert (i' = i) as -> by (by eapply NoDup_lookup).
  apply (IH j Hji); [done|lia].
Qed.

Lemma distance_no_wrap u st v w :
  settled_inv g source initialBattery mileage st → closed g source st u →
  (v, w) ∈ Graph.getNeighbors g u →
  int_add (map_at (distances st) u) w = map_at (distances st) u + w ∧ 0 ≤ w.
Proof.
  intros (_ & _ & K1 & _) (Hu & Hru & _) Hnb.
  pose proof (weights u v w Hnb) as Hw. destruct (K1 u Hu Hru) as (Hbu & Hdu).
  split; [|lia]. apply wrap_small. unfold INT_MIN.
  assert (2 * mileage * map_at (batteryUsed st) u ≤ 2 * mileage * initialBattery)
    by nia. lia.
Qed.

Lemma relax_keeps_relaxed u st nb st' :
  settled_inv g source initialBattery mileage st →
  closed g source st u →
  (∀ x, closed g source st x → map_at (distances st) x ≤ map_at (distances st) u) →
  (∀ x, closed g source st x → x ≠ u → relaxed_from g st x) →
  heap_inv (minHeap st) → nb ∈ Graph.getNeighbors g u →
  refusal initialBattery mileage u st nb = [] →
  relax initialBattery mileage u st nb = Return st' →
  (∀ x, closed g source st x → x ≠ u → relaxed_from g st' x) ∧
  map_at (distances st') nb.1 ≤ map_at (distances st') u + nb.2 ∧
  (∀ y, map_at (distances st') y ≤ map_at (distances st) y) ∧
  map_at (distances st') u = map_at (distances st) u.
Proof.
  intros Hset Hcu Hle Hrel Hinv Hnb Href Hr. destruct nb as [v w].
  destruct (distance_no_wrap u st v w Hset Hcu Hnb) as [End Hw].
  unfold refusal in Href. cbn [fst snd] in *.
  rewrite int_div_defined_pos in Href by done. cbn [negb] in Href.
  rewrite End in Href.
  destruct (relax_cases initialBattery mileage u st (v, w) Hinv
              (int_div_defined_pos _ _ mileage_pos))
    as [[Hr' Hno]|(Hb & Hlt & h' & Hr' & _)];
    rewrite Hr' in Hr; injection Hr as <-; cbn [fst snd] in *;
    rewrite End in *.
  - split_and!; [done| |done..].
    destruct (Z.leb_spec (int_add (map_at (batteryUsed st) u)
                            (batteryConsumption w mileage)) initialBattery);
      destruct (Z.ltb_spec (map_at (distances st) u + w) (map_at (distances st) v));
      simpl in Href; try done; lia.
  - assert (v ≠ u) as Hvu by (intros ->; lia).
    assert (∀ y, map_at (<[v := map_at (distances st) u + w]> (distances st)) y ≤
                 map_at (distances st) y) as Hmono.
    { intros y. rewrite map_at_insert. case_decide; subst; lia. }
    simpl. split_and!; [|by rewrite !map_at_insert, decide_True, decide_False|
                        done|by rewrite map_at_insert, decide_False].
    intros x Hx Hxu y w0 Hy. simpl.
    assert (x ≠ v) as Hxv.
    { intros ->. specialize (Hle v Hx). lia. }
    rewrite (map_at_insert _ _ _ x), decide_False by done.
    specialize (Hrel x Hx Hxu y w0 Hy). specialize (Hmono y). lia.
Qed.

Lemma relaxAll_keeps_relaxed u nbs : ∀ st st',
  settled_inv g source initialBattery mileage st →
  closed g source st u →
  (∀ x, closed g source st x → map_at (distances st) x ≤ map_at (distances st) u) →
  (∀ x, closed g source st x → x ≠ u → relaxed_from g st x) →
  heap_inv (minHeap st) → nbs ⊆ Graph.getNeighbors g u →
  refusalsAll initialBattery mileage u nbs st = [] →
  relaxAll initialBattery mileage u nbs st = Return st' →
  settled_inv g source initialBattery mileage st' ∧ heap_inv (minHeap st') ∧
  closed g source st' u ∧
  (∀ x, closed g source st' x → x ≠ u → relaxed_from g st' x) ∧
  (∀ v w, (v, w) ∈ nbs →
     map_at (distances st') v ≤ map_at (distances st') u + w) ∧
  (∀ y, map_at (distances st') y ≤ map_at (distances st) y) ∧
  map_at (distances st') u = map_at (distances st) u.
Proof.
  induction nbs as [|nb nbs IH];
    intros st st' Hset Hcu Hle Hrel Hinv Hsub Href Hr; simpl in *.
  { injection Hr as <-. split_and!; try done. by intros v w ?%elem_of_nil. }
  apply app_eq_nil in Href as [Href1 Href2].
  assert (nb ∈ Graph.getNeighbors g u) as Hnb by set_solver.
  assert (∃ st1, relax initialBattery mileage u st nb = Return st1 ∧
                 heap_inv (minHeap st1)) as (st1 & Hr1 & Hinv1).
  { destruct (relax_cases initialBattery mileage u st nb Hinv
                (int_div_defined_pos _ _ mileage_pos))
      as [[Hr1 _]|(_ & _ & h' & Hr1 & Hinv' & _)]; eauto. }
  rewrite Hr1 in Hr, Href2. simpl in Hr.
  destruct (settled_relax u st nb st1 Hset Hcu Hle Hinv Hnb Hr1)
    as (Hset1 & Hcu1 & Hle1 & Hiff & _).
  destruct (relax_keeps_relaxed u st nb st1 Hset Hcu Hle Hrel Hinv Hnb Href1 Hr1)
    as (Hrel1 & Hedge & Hmono1 & Hu1).
  destruct (IH st1 st' Hset1 Hcu1 Hle1) as (? & ? & ? & ? & Hdone & Hmono & Hu');
    try done.
  { intros x Hx. apply Hrel1. by apply Hiff. }
  { set_solver. }
  split_and!; try done.
  - intros v w [E|Hv]%elem_of_cons; [|by apply Hdone].
    subst nb. specialize (Hmono v). simpl in *. lia.
  - intros y. specialize (Hmono y). specialize (Hmono1 y). lia.
  - congruence.
Qed.

Lemma mainLoop_relaxes destination fuel : ∀ st st',
  settled_inv g source initialBattery mileage st →
  (∀ x, closed g source st x → relaxed_from g st x) →
  heap_inv (minHeap st) →
  refusalsLoop fuel g destination initialBattery mileage st = [] →
  mainLoop fuel g destination initialBattery mileage st = Return st' →
  settled_inv g source initialBattery mileage st' ∧ heap_inv (minHeap st') ∧
  (MinHeap.isEmpty (minHeap st') = true ∨ closed g source st' destination) ∧
  (∀ x, closed g source st' x → x ≠ destination → relaxed_from g st' x).
Proof.
  induction fuel as [|fuel IH]; intros st st' Hset Hrel Hinv Href; [done|].
  rewrite mainLoop_S. cbn [refusalsLoop] in Href.
  pose proof (deleteRoot_min _ Hinv) as Hd.
  destruct (MinHeap.isEmpty (minHeap st)) eqn:He.
  { intros [= <-]. split_and!; auto. }
  destruct Hd as (root & h' & Hd & _ & _ & _ & Hinv').
  rewrite Hd in Href |- *. cbn [mbind outcome_bind]. cbv zeta in *.
  destruct (settled_extract st root h' Hset Hinv Hd)
    as (Hset1 & Hcr & Hle & _ & Hiff).
  assert (∀ x, closed g source
                 (mkState (distances st) (batteryUsed st) (previous st) h') x →
               x ≠ nodeId root →
               relaxed_from g
                 (mkState (distances st) (batteryUsed st) (previous st) h') x)
    as Hrel1.
  { intros x Hx Hne. apply Hiff in Hx as [->|Hx]; [done|]. by apply Hrel. }
  destruct (Z.eqb_spec (nodeId root) destination) as [E|E].
  { intros [= <-]. rewrite <- E. split_and!; auto. }
  apply app_eq_nil in Href as [Href1 Href2].
  destruct (relaxAll initialBattery mileage (nodeId root)
              (Graph.getNeighbors g (nodeId root)) _) as [st2| | |] eqn:Hr2;
    try done.
  cbn [mbind outcome_bind].
  destruct (relaxAll_keeps_relaxed _ _ _ _ Hset1 Hcr Hle Hrel1 Hinv'
              ltac:(done) Href1 Hr2)
    as (Hset2 & Hinv2 & Hcr2 & Hrel2 & Hdone & _ & _).
  apply IH; try done.
  intros x Hx. destruct (decide (x = nodeId root)) as [->|Hne].
  - intros v w Hv. by apply Hdone.
  - by apply Hrel2.
Qed.

Lemma route_lower_bound destination st :
  settled_inv g source initialBattery mileage st →
  closed g source st destination →
  (∀ x, closed g source st x → x ≠ destination → relaxed_from g st x) →
  ∀ steps a acc, route g a steps destination →
    a ∈ nodeIds g →
    (map_at (distances st) destination ≤ acc ∨
     (closed g source st a ∧ map_at (distances st) a ≤ acc)) →
    map_at (distances st) destination ≤ acc + sumZ steps.*2.
Proof.
  intros Hset Hcd Hrel. pose proof Hset as (K0 & _ & _ & K2 & K3 & _).
  induction steps as [|[v w] rest IH]; intros a acc Hroute Ha Hacc.
  { simpl in Hroute. subst a. unfold sumZ. simpl. destruct Hacc as [?|[_ ?]]; lia. }
  destruct Hroute as [Hedge Hroute]. pose proof (weights a v w Hedge) as Hw.
  assert (v ∈ nodeIds g) as Hv.
  { pose proof (proj1 (neighbors_are_nodes_alt g) well_formed) as Hwf.
    by apply (Hwf a v w). }
  rewrite fmap_cons. unfold sumZ. simpl. fold (sumZ rest.*2).
  replace (acc + (w + sumZ rest.*2)) with ((acc + w) + sumZ rest.*2) by lia.
  apply (IH v); [done..|].
  destruct Hacc as [Hacc|[Hca Hacc]]; [left; lia|].
  destruct (decide (a = destination)) as [->|Had]; [left; lia|].
  pose proof (Hrel a Hca Had v w Hedge) as Hrelax.
  destruct (priorityOf (minHeap st) v) as [k|] eqn:Hq.
  - left. destruct (K2 v k Hq) as (_ & _ & ->).
    specialize (K3 destination v _ Hcd Hq). lia.
  - destruct (decide (map_at (distances st) v = INT_MAX)) as [Emax|Hne].
    + left. specialize (K0 destination). lia.
    + right. split; [|lia]. split_and!; [done|by right|done].
Qed.

End settled.

(** The weights of the edges along the chain of predecessors that starts at
    a reached node add up to its distance, their battery costs to its
    battery use. *)
Lemma chain_totals g source initialBattery mileage st :
  -1 ∉ nodeIds g →
  settled_inv g source initialBattery mileage st →
  ∀ chain c,
    head chain = Some c → c ∈ nodeIds g → reached source st c →
    (∀ i a b, chain !! i = Some a → chain !! S i = Some b →
       b = map_at (previous st) a ∧ b ≠ -1) →
    (∀ a, last chain = Some a → map_at (previous st) a = -1) →
    ∃ ws, length chain = S (length ws) ∧
      (∀ i a b w, chain !! i = Some a → chain !! S i = Some b →
         ws !! i = Some w → (a, w) ∈ Graph.getNeighbors g b) ∧
      map_at (distances st) c = sumZ ws ∧
      map_at (batteryUsed st) c =
        sumZ ((λ w, batteryConsumption w mileage) <$> ws).
Proof.
  intros Hm1 (K0 & (K5a & K5b & K5c) & K1 & K2 & K3 & K4).
  induction chain as [|c0 rest IH]; intros c Hhead Hc Hr Hstep Hlast; [done|].
  injection Hhead as ->.
  destruct rest as [|c1 rest'].
  - specialize (Hlast c eq_refl).
    destruct (decide (c = source)) as [->|Hcs].
    + exists []. split_and!; [done| |done..]. intros i a b w _ Hb. done.
    + assert (map_at (distances st) c ≠ INT_MAX) as Hd by (by destruct Hr).
      destruct (K4 c Hc Hcs Hd) as ((Hp & _) & _). rewrite Hlast in Hp. done.
  - destruct (Hstep 0%nat c c1 eq_refl eq_refl) as [-> Hne].
    assert (c ≠ source) as Hcs by (intros ->; done).
    assert (map_at (distances st) c ≠ INT_MAX) as Hd by (by destruct Hr).
    destruct (K4 c Hc Hcs Hd) as ((Hp & Hpr & _) & w & Hw & Ed & Eb).
    destruct (IH (map_at (previous st) c) eq_refl Hp Hpr)
      as (ws & Hlen & Hedges & Hsd & Hsb).
    { intros i a b. apply (Hstep (S i)). }
    { intros a. rewrite last_cons_cons in Hlast. apply Hlast. }
    exists (w :: ws). split_and!.
    + simpl in *. lia.
    + intros [|i] a b w0; simpl.
      * by intros [= <-] [= <-] [= <-].
      * apply Hedges.
    + rewrite Ed, Hsd. unfold sumZ. simpl. lia.
    + rewrite Eb, Hsb. rewrite fmap_cons. unfold sumZ. simpl. lia.
Qed.

(** On a graph that lists only nodes as neighbors, has no node with the id
    -1, and whose weights are not negative and small enough for no sum to
    overflow ([2 * mileage * budget + maxWeight <= INT_MAX]), the totals of
    a success are those of the path it reports: the path is a walk of the
    graph whose edge weights add up to the total distance and whose battery
    costs ([max 1 (w / mileage)] per edge) add up to the total battery
    use. *)
Theorem totals_along_path (fuel : nat) (g : Graph.t)
    (source destination initialBattery mileage maxWeight : Z)
    (res : PathfindingResult) :
  0 < mileage → 0 ≤ initialBattery →
  2 * mileage * initialBattery + maxWeight ≤ INT_MAX →
  (∀ u v w, (v, w) ∈ Graph.getNeighbors g u → 0 ≤ w ≤ maxWeight) →
  -1 ∉ nodeIds g → neighbors_are_nodes g →
  dijkstraWithBattery fuel g source destination initialBattery mileage = Return res →
  success res = true →
  ∃ ws, length (path res) = S (length ws) ∧
    (∀ i a b w, path res !! i = Some a → path res !! S i = Some b →
       ws !! i = Some w → (b, w) ∈ Graph.getNeighbors g a) ∧
    totalDistance res = Some (sumZ ws) ∧
    totalBatteryUsed res =
      Some (sumZ ((λ w, batteryConsumption w mileage) <$> ws)).
Proof.
  intros Hr HB Hno Hw Hm1 Hwf Hres Hok.
  destruct (solver_success_inv _ _ _ _ _ _ _ Hres Hok)
    as [[-> ->]|(Hsd & Hs & Hd & st & p & Hloop & Hdist & Hp & ->)].
  { exists []. by split_and!. }
  pose proof (settled_loopEnd g source initialBattery mileage maxWeight
                Hr HB Hno Hw Hwf Hs fuel destination st Hloop) as Hset.
  destruct (buildPath_chain _ _ _ _ _ Hp) as (chain & -> & _ & Hhead & Hstep & Hlast).
  assert (destination ≠ -1) as Hd1 by (intros ->; done).
  destruct (chain_totals g source initialBattery mileage st Hm1 Hset chain
              destination (Hhead Hd1) Hd (or_intror Hdist) Hstep Hlast)
    as (ws & Hlen & Hedges & Hsd' & Hsb).
  exists (reverse ws). simpl. split_and!.
  - by rewrite !length_reverse.
  - intros i a b w [Ha Hi]%reverse_lookup_Some [Hb Hi']%reverse_lookup_Some
      [Hw0 Hi'']%reverse_lookup_Some.
    replace (length chain - S i)%nat with (S (length chain - S (S i))) in Ha by lia.
    replace (length ws - S i)%nat with (length chain - S (S i))%nat in Hw0 by lia.
    by eapply Hedges.
  - by rewrite sumZ_reverse, Hsd'.
  - by rewrite fmap_reverse, sumZ_reverse, Hsb.
Qed.

Lemma weights_bounded g maxWeight :
  map_Forall (λ _ l, Forall (λ nb : Z * Z, 0 ≤ nb.2 ≤ maxWeight) l)
    (Graph.adjacencyList g) →
  ∀ u v w, (v, w) ∈ Graph.getNeighbors g u → 0 ≤ w ≤ maxWeight.
Proof.
  intros Hall u v w. unfold Graph.getNeighbors.
  destruct (Graph.adjacencyList g !! u) as [l|] eqn:Hu; [|by intros ?%elem_of_nil].
  intros Hv. specialize (Hall u l Hu). rewrite Forall_forall in Hall.
  by apply (Hall (v, w)).
Qed.

Lemma totals_along_path_witness :
  0 < 10 ∧ 0 ≤ 2 ∧ 2 * 10 * 2 + 10 ≤ INT_MAX ∧
  (∀ u v w, (v, w) ∈ Graph.getNeighbors line3 u → 0 ≤ w ≤ 10) ∧
  (-1 ∉ nodeIds line3) ∧ neighbors_are_nodes line3 ∧
  dijkstraWithBattery 4 line3 1 3 2 10 =
    Return (mkResult [1; 2; 3] (Some 20) (Some 2) true "Path found successfully") ∧
  ∃ ws, length [1; 2; 3] = S (length ws) ∧
    (∀ i a b w, [1; 2; 3] !! i = Some a → [1; 2; 3] !! S i = Some b →
       ws !! i = Some w → (b, w) ∈ Graph.getNeighbors line3 a) ∧
    Some 20 = Some (sumZ ws) ∧
    Some 2 = Some (sumZ ((λ w, batteryConsumption w 10) <$> ws)).
Proof.
  assert (2 * 10 * 2 + 10 ≤ INT_MAX) as Hno by (unfold INT_MAX; lia).
  assert (∀ u v w, (v, w) ∈ Graph.getNeighbors line3 u → 0 ≤ w ≤ 10) as Hw.
  { apply weights_bounded. apply (bool_decide_unpack _). vm_compute. exact I. }
  assert (-1 ∉ nodeIds line3) as Hm1.
  { vm_compute. intros H.
    repeat (apply elem_of_cons in H as [H|H]; [discriminate H|]).
    by apply elem_of_nil in H. }
  assert (neighbors_are_nodes line3) as Hwf.
  { unfold line3.
    apply neighbors_are_nodes_addEdge, neighbors_are_nodes_addEdge,
      neighbors_are_nodes_new. }
  assert (dijkstraWithBattery 4 line3 1 3 2 10 =
    Return (mkResult [1; 2; 3] (Some 20) (Some 2) true "Path found successfully"))
    as Hr by (vm_compute; reflexivity).
  split; [lia|]. split; [lia|]. split; [exact Hno|]. split; [exact Hw|].
  split; [exact Hm1|]. split; [exact Hwf|]. split; [exact Hr|].
  exact (totals_along_path 4 line3 1 3 2 10 10 _ ltac:(lia) ltac:(lia)
           Hno Hw Hm1 Hwf Hr eq_refl).
Defined.

Lemma isEmpty_priorityOf h id :
  heap_inv h → MinHeap.isEmpty h = true → priorityOf h id = None.
Proof.
  destruct h as [l m]. intros [_ Hc] He. simpl in Hc.
  apply priorityOf_None; [done|].
  destruct (m !! id) as [i|] eqn:Hm; [|done].
  apply Hc in Hm as (n & Hn & _). unfold MinHeap.isEmpty in He. simpl in He.
  destruct l; [by rewrite lookup_nil in Hn|done].
Qed.

(** On a graph that lists only nodes as neighbors, has no node with the id
    -1, and whose weights are not negative and small enough for no sum to
    overflow, the solver terminates with a result: the main loop extracts
    every node at most once and the backward walk over the predecessors
    visits every node at most once, so more fuel than the graph has nodes is
    always enough. *)
Theorem solver_terminates (fuel : nat) (g : Graph.t)
    (source destination initialBattery mileage maxWeight : Z) :
  0 < mileage → 0 ≤ initialBattery →
  2 * mileage * initialBattery + maxWeight ≤ INT_MAX →
  (∀ u v w, (v, w) ∈ Graph.getNeighbors g u → 0 ≤ w ≤ maxWeight) →
  -1 ∉ nodeIds g → neighbors_are_nodes g →
  (length (Graph.nodes g) < fuel)%nat →
  ∃ res,
    dijkstraWithBattery fuel g source destination initialBattery mileage =
      Return res.
Proof.
  intros Hr HB Hno Hw Hm1 Hwf Hfuel. unfold dijkstraWithBattery.
  destruct (source =? destination); [eauto|].
  destruct (endpoints_checked g source destination)
    as [(Hs & Hd & ->)|(_ & what & ->)]; [|eauto].
  rewrite (nodeCount_nonzero g source Hs).
  destruct (initState_Return g source) as (h & _ & Hinv0 & _ & Hinit).
  rewrite Hinit. cbn [mbind outcome_bind].
  edestruct (mainLoop_terminates g source initialBattery mileage maxWeight
               Hr HB Hno Hw Hwf Hs destination fuel)
    as (st & L & -> & Hset & Hco & Hinv & Hend).
  { eapply settled_init; eauto. }
  { eapply closing_order_init; eauto. }
  { exact Hinv0. }
  { unfold nodeIds. rewrite length_fmap. simpl. lia. }
  cbn [mbind outcome_bind].
  destruct (Z.eqb_spec (map_at (distances st) destination) INT_MAX) as [|Hdist];
    [eauto|].
  assert (destination ∈ L) as HdL.
  { destruct Hend as [He|HdL]; [|done]. destruct Hco as (_ & Hin & _).
    apply Hin. split_and!; [done|by right|by apply isEmpty_priorityOf]. }
  apply list_elem_of_lookup in HdL as [i Hi].
  assert (length L ≤ length (nodeIds g))%nat as Hlen.
  { eapply closing_order_length; eauto. }
  apply lookup_lt_Some in Hi as Hi'.
  edestruct (buildPath_terminates g source initialBattery mileage st L Hm1 Hset Hco
               i destination [] fuel Hi) as [p ->].
  { unfold nodeIds in Hlen. rewrite length_fmap in Hlen. lia. }
  cbn [mbind outcome_bind]. eauto.
Qed.

Lemma solver_terminates_witness :
  0 < 10 ∧ 0 ≤ 2 ∧ 2 * 10 * 2 + 10 ≤ INT_MAX ∧
  (∀ u v w, (v, w) ∈ Graph.getNeighbors line3 u → 0 ≤ w ≤ 10) ∧
  (-1 ∉ nodeIds line3) ∧ neighbors_are_nodes line3 ∧
  (length (Graph.nodes line3) < 4)%nat ∧
  ∃ res, dijkstraWithBattery 4 line3 1 3 2 10 = Return res.
Proof.
  assert (2 * 10 * 2 + 10 ≤ INT_MAX) as Hno by (unfold INT_MAX; lia).
  assert (∀ u v w, (v, w) ∈ Graph.getNeighbors line3 u → 0 ≤ w ≤ 10) as Hw.
  { apply weights_bounded. apply (bool_decide_unpack _). vm_compute. exact I. }
  assert (-1 ∉ nodeIds line3) as Hm1.
  { vm_compute. intros H.
    repeat (apply elem_of_cons in H as [H|H]; [discriminate H|]).
    by apply elem_of_nil in H. }
  assert (neighbors_are_nodes line3) as Hwf.
  { unfold line3.
    apply neighbors_are_nodes_addEdge, neighbors_are_nodes_addEdge,
      neighbors_are_nodes_new. }
  assert (length (Graph.nodes line3) < 4)%nat as Hlen by (vm_compute; lia).
  split; [lia|]. split; [lia|]. split; [exact Hno|]. split; [exact Hw|].
  split; [exact Hm1|]. split; [exact Hwf|]. split; [exact Hlen|].
  exact (solver_terminates 4 line3 1 3 2 10 10 ltac:(lia) ltac:(lia)
           Hno Hw Hm1 Hwf Hlen).
Defined.

Lemma route_weight_nonneg g maxWeight :
  (∀ u v w, (v, w) ∈ Graph.getNeighbors g u → 0 ≤ w ≤ maxWeight) →
  ∀ steps a b, route g a steps b → 0 ≤ sumZ steps.*2.
Proof.
  intros Hw. induction steps as [|[v w] rest IH]; intros a b Hroute; [done|].
  destruct Hroute as [Hedge Hroute].
  specialize (IH v b Hroute). specialize (Hw a v w Hedge).
  unfold sumZ in *. rewrite fmap_cons. simpl. lia.
Qed.

(** On a graph that lists only nodes as neighbors and whose weights are not
    negative and small enough for no sum to overflow, a run that never
    turns a shorter way down for the budget reports a shortest distance:
    the total distance of a success is at most the total weight of every
    route of the graph from the source to the destination. *)
Theorem distance_minimal_without_refusals (fuel : nat) (g : Graph.t)
    (source destination initialBattery mileage maxWeight : Z)
    (res : PathfindingResult) (steps : list (Z * Z)) :
  0 < mileage → 0 ≤ initialBattery →
  2 * mileage * initialBattery + maxWeight ≤ INT_MAX →
  (∀ u v w, (v, w) ∈ Graph.getNeighbors g u → 0 ≤ w ≤ maxWeight) →
  neighbors_are_nodes g →
  dijkstraWithBattery fuel g source destination initialBattery mileage = Return res →
  success res = true →
  budgetRefusals fuel g source destination initialBattery mileage = [] →
  route g source steps destination →
  ∃ dist, totalDistance res = Some dist ∧ dist ≤ sumZ steps.*2.
Proof.
  intros Hr HB Hno Hw Hwf Hres Hok Href Hroute.
  destruct (solver_success_inv _ _ _ _ _ _ _ Hres Hok)
    as [[-> ->]|(Hsd & Hs & Hd & st & p & Hloop & Hdist & Hp & ->)].
  { exists 0. split; [done|]. by eapply route_weight_nonneg. }
  unfold loopEnd in Hloop. unfold budgetRefusals in Href.
  destruct (initState g source) as [st0| | |] eqn:Hinit; try done.
  cbn [mbind outcome_bind] in Hloop.
  assert (heap_inv (minHeap st0)) as Hinv0.
  { destruct (initState_Return g source) as (h & _ & Hinv0 & _ & Hinit').
    rewrite Hinit' in Hinit. by injection Hinit as <-. }
  pose proof (settled_init g source initialBattery mileage HB Hs st0 Hinit)
    as Hset0.
  pose proof (closing_order_init g source initialBattery mileage HB Hs st0 Hinit)
    as (_ & Hnone & _).
  destruct (mainLoop_relaxes g source initialBattery mileage maxWeight
              Hr HB Hno Hw Hwf Hs destination fuel st0 st Hset0)
    as (Hset & Hinv & Hend & Hrel); try done.
  { intros x Hx. by apply Hnone, elem_of_nil in Hx. }
  assert (closed g source st destination) as Hcd.
  { destruct Hend as [He|?]; [|done].
    split_and!; [done|by right|by apply isEmpty_priorityOf]. }
  exists (map_at (distances st) destination). split; [done|].
  pose proof Hset as (_ & (Hs0 & _) & _ & K2 & K3 & _).
  pose proof (route_lower_bound g source initialBattery mileage maxWeight
                Hw Hwf destination st Hset Hcd Hrel steps source 0 Hroute Hs)
    as Hbound.
  rewrite Z.add_0_l in Hbound. apply Hbound.
  destruct (priorityOf (minHeap st) source) as [k|] eqn:Hq.
  - left. destruct (K2 source k Hq) as (_ & _ & ->).
    specialize (K3 destination source _ Hcd Hq). lia.
  - right. split; [|lia]. split_and!; [done|by left|done].
Qed.

Lemma distance_minimal_without_refusals_witness :
  0 < 10 ∧ 0 ≤ 2 ∧ 2 * 10 * 2 + 10 ≤ INT_MAX ∧
  (∀ u v w, (v, w) ∈ Graph.getNeighbors line3 u → 0 ≤ w ≤ 10) ∧
  neighbors_are_nodes line3 ∧
  dijkstraWithBattery 4 line3 1 3 2 10 =
    Return (mkResult [1; 2; 3] (Some 20) (Some 2) true "Path found successfully") ∧
  budgetRefusals 4 line3 1 3 2 10 = [] ∧
  route line3 1 [(2, 10); (1, 10); (2, 10); (3, 10)] 3 ∧
  ∃ dist, Some 20 = Some dist ∧
    dist ≤ sumZ [(2, 10); (1, 10); (2, 10); (3, 10)].*2.
Proof.
  assert (2 * 10 * 2 + 10 ≤ INT_MAX) as Hno by (unfold INT_MAX; lia).
  assert (∀ u v w, (v, w) ∈ Graph.getNeighbors line3 u → 0 ≤ w ≤ 10) as Hw.
  { apply weights_bounded. apply (bool_decide_unpack _). vm_compute. exact I. }
  assert (neighbors_are_nodes line3) as Hwf.
  { unfold line3.
    apply neighbors_are_nodes_addEdge, neighbors_are_nodes_addEdge,
      neighbors_are_nodes_new. }
  assert (dijkstraWithBattery 4 line3 1 3 2 10 =
    Return (mkResult [1; 2; 3] (Some 20) (Some 2) true "Path found successfully"))
    as Hr by (vm_compute; reflexivity).
  assert (budgetRefusals 4 line3 1 3 2 10 = []) as Href
    by (vm_compute; reflexivity).
  assert (route line3 1 [(2, 10); (1, 10); (2, 10); (3, 10)] 3) as Hroute.
  { simpl. split_and!; try done; apply (bool_decide_unpack _); vm_compute; exact I. }
  split; [lia|]. split; [lia|]. split; [exact Hno|]. split; [exact Hw|].
  split; [exact Hwf|]. split; [exact Hr|]. split; [exact Href|].
  split; [exact Hroute|].
  exact (distance_minimal_without_refusals 4 line3 1 3 2 10 10 _ _
           ltac:(lia) ltac:(lia) Hno Hw Hwf Hr eq_refl Href Hroute).
Defined.

(** ** Totals in range *)

(** On a graph that lists only nodes as neighbors and whose weights are
    not negative and small enough for no sum to overflow, the totals of a
    success have not wrapped: the battery use lies between 0 and the
    budget, and the distance between 0 and twice the rate times the battery
    use. *)
Theorem totals_in_range (fuel : nat) (g : Graph.t)
    (source destination initialBattery mileage maxWeight : Z)
    (res : PathfindingResult) :
  0 < mileage → 0 ≤ initialBattery →
  2 * mileage * initialBattery + maxWeight ≤ INT_MAX →
  (∀ u v w, (v, w) ∈ Graph.getNeighbors g u → 0 ≤ w ≤ maxWeight) →
  neighbors_are_nodes g →
  dijkstraWithBattery fuel g source destination initialBattery mileage = Return res →
  success res = true →
  ∃ dist b, totalDistance res = Some dist ∧ totalBatteryUsed res = Some b ∧
    0 ≤ b ≤ initialBattery ∧ 0 ≤ dist ≤ 2 * mileage * b.
Proof.
  intros Hr HB Hno Hw Hwf Hres Hok.
  destruct (solver_success_inv _ _ _ _ _ _ _ Hres Hok)
    as [[-> ->]|(Hsd & Hs & Hd & st & p & Hloop & Hdist & Hp & ->)].
  { exists 0, 0. simpl. split_and!; try done; lia. }
  pose proof (settled_loopEnd g source initialBattery mileage maxWeight
                Hr HB Hno Hw Hwf Hs fuel destination st Hloop)
    as (_ & _ & K1 & _).
  destruct (K1 destination Hd (or_intror Hdist)) as [Hb Hdst].
  exists (map_at (distances st) destination),
    (map_at (batteryUsed st) destination).
  simpl. split_and!; try done; lia.
Qed.

Lemma totals_in_range_witness :
  0 < 10 ∧ 0 ≤ 2 ∧ 2 * 10 * 2 + 10 ≤ INT_MAX ∧
  (∀ u v w, (v, w) ∈ Graph.getNeighbors line3 u → 0 ≤ w ≤ 10) ∧
  neighbors_are_nodes line3 ∧
  dijkstraWithBattery 4 line3 1 3 2 10 =
    Return (mkResult [1; 2; 3] (Some 20) (Some 2) true "Path found successfully") ∧
  ∃ dist b, Some 20 = Some dist ∧ Some 2 = Some b ∧
    0 ≤ b ≤ 2 ∧ 0 ≤ dist ≤ 2 * 10 * b.
Proof.
  assert (2 * 10 * 2 + 10 ≤ INT_MAX) as Hno by (unfold INT_MAX; lia).
  assert (∀ u v w, (v, w) ∈ Graph.getNeighbors line3 u → 0 ≤ w ≤ 10) as Hw.
  { apply weights_bounded. apply (bool_decide_unpack _). vm_compute. exact I. }
  assert (neighbors_are_nodes line3) as Hwf.
  { unfold line3.
    apply neighbors_are_nodes_addEdge, neighbors_are_nodes_addEdge,
      neighbors_are_nodes_new. }
  assert (dijkstraWithBattery 4 line3 1 3 2 10 =
    Return (mkResult [1; 2; 3] (Some 20) (Some 2) true "Path found successfully"))
    as Hr by (vm_compute; reflexivity).
  split; [lia|]. split; [lia|]. split; [exact Hno|]. split; [exact Hw|].
  split; [exact Hwf|]. split; [exact Hr|].
  exact (totals_in_range 4 line3 1 3 2 10 10 _ ltac:(lia) ltac:(lia)
           Hno Hw Hwf Hr eq_refl).
Defined.

(** ** Raising the budget *)

Lemma route_snoc g : ∀ steps a b v w,
  route g a steps b → (v, w) ∈ Graph.getNeighbors g b →
  route g a (steps ++ [(v, w)]) v.
Proof.
  induction steps as [|[v0 w0] rest IH]; intros a b v w Hroute Hedge; simpl in *.
  - by subst.
  - destruct Hroute as [H0 Hroute]. split; [done|]. by eapply IH.
Qed.

(** The chain of predecessors of a reached node, read backwards, is a
    route from the source whose weights add up to the node's distance. *)
Lemma chain_route g source initialBattery mileage st :
  -1 ∉ nodeIds g →
  settled_inv g source initialBattery mileage st →
  ∀ chain c,
    head chain = Some c → c ∈ nodeIds g → reached source st c →
    (∀ i a b, chain !! i = Some a → chain !! S i = Some b →
       b = map_at (previous st) a ∧ b ≠ -1) →
    (∀ a, last chain = Some a → map_at (previous st) a = -1) →
    ∃ steps, route g source steps c ∧
      map_at (distances st) c = sumZ steps.*2.
Proof.
  intros Hm1 (K0 & (K5a & K5b & K5c) & K1 & K2 & K3 & K4).
  induction chain as [|c0 rest IH]; intros c Hhead Hc Hr Hstep Hlast; [done|].
  injection Hhead as ->.
  destruct rest as [|c1 rest'].
  - specialize (Hlast c eq_refl).
    destruct (decide (c = source)) as [->|Hcs].
    + exists []. by split.
    + assert (map_at (distances st) c ≠ INT_MAX) as Hd by (by destruct Hr).
      destruct (K4 c Hc Hcs Hd) as ((Hp & _) & _). rewrite Hlast in Hp. done.
  - destruct (Hstep 0%nat c c1 eq_refl eq_refl) as [-> Hne].
    assert (c ≠ source) as Hcs by (intros ->; done).
    assert (map_at (distances st) c ≠ INT_MAX) as Hd by (by destruct Hr).
    destruct (K4 c Hc Hcs Hd) as ((Hp & Hpr & _) & w & Hw & Ed & _).
    destruct (IH (map_at (previous st) c) eq_refl Hp Hpr)
      as (steps & Hroute & Hsum).
    { intros i a b. apply (Hstep (S i)). }
    { intros a. rewrite last_cons_cons in Hlast. apply Hlast. }
    exists (steps ++ [(c, w)]). split; [by eapply route_snoc|].
    rewrite fmap_app, sumZ_app, Ed, Hsum. unfold sumZ. simpl. lia.
Qed.

(** Once the queue is empty and every edge out of a closed node has been
    relaxed, the end of a route that starts at a closed node and weighs
    less than the sentinel has a distance. *)
Lemma route_reaches g source initialBattery mileage maxWeight destination st :
  (∀ u v w, (v, w) ∈ Graph.getNeighbors g u → 0 ≤ w ≤ maxWeight) →
  neighbors_are_nodes g →
  settled_inv g source initialBattery mileage st →
  heap_inv (minHeap st) → MinHeap.isEmpty (minHeap st) = true →
  (∀ x, closed g source st x → x ≠ destination → relaxed_from g st x) →
  ∀ steps a acc, route g a steps destination →
    closed g source st a → map_at (distances st) a ≤ acc →
    acc + sumZ steps.*2 < INT_MAX →
    map_at (distances st) destination < INT_MAX.
Proof.
  intros Hw Hwf Hset Hinv He Hrel.
  induction steps as [|[v w] rest IH]; intros a acc Hroute Hca Hacc Hsum.
  { simpl in Hroute. subst a. unfold sumZ in Hsum. simpl in Hsum. lia. }
  destruct Hroute as [Hedge Hroute]. pose proof (Hw a v w Hedge) as Hwv.
  pose proof (route_weight_nonneg g maxWeight Hw rest v destination Hroute)
    as Hrest.
  rewrite fmap_cons in Hsum. unfold sumZ in Hsum. simpl in Hsum.
  fold (sumZ rest.*2) in Hsum.
  destruct (decide (a = destination)) as [->|Had]; [lia|].
  pose proof (Hrel a Hca Had v w Hedge) as Hrelax.
  apply (IH v (acc + w)); [done| |lia|lia].
  split_and!.
  - pose proof (proj1 (neighbors_are_nodes_alt g) Hwf) as Hwf'.
    by apply (Hwf' a v w).
  - right. lia.
  - by apply isEmpty_priorityOf.
Qed.

(** C1, amended.  On a graph that lists only nodes as neighbors, has no
    node with the id -1, and whose weights are not negative and small
    enough for no sum to overflow at the larger budget, raising the budget
    from [B] to [B'] keeps a success a success and does not lengthen the
    total distance, provided that at [B'] the battery test refuses no
    distance-improving relaxation, or that it still refuses every one that
    it refused at [B]. *)
Theorem budget_increase_improves (fuel : nat) (g : Graph.t)
    (source destination mileage maxWeight B B' : Z) (res : PathfindingResult) :
  0 < mileage → 0 ≤ B ≤ B' →
  2 * mileage * B' + maxWeight ≤ INT_MAX →
  (∀ u v w, (v, w) ∈ Graph.getNeighbors g u → 0 ≤ w ≤ maxWeight) →
  -1 ∉ nodeIds g → neighbors_are_nodes g →
  (length (Graph.nodes g) < fuel)%nat →
  budgetRefusals fuel g source destination B' mileage = [] ∨
  Forall (λ x, B' < x) (budgetRefusals fuel g source destination B mileage) →
  dijkstraWithBattery fuel g source destination B mileage = Return res →
  success res = true →
  ∃ res' dist dist',
    dijkstraWithBattery fuel g source destination B' mileage = Return res' ∧
    success res' = true ∧
    totalDistance res = Some dist ∧ totalDistance res' = Some dist' ∧
    dist' ≤ dist.
Proof.
  intros Hr [HB HBB] Hno Hw Hm1 Hwf Hfuel Hcond Hres Hok.
  destruct (solver_success_inv _ _ _ _ _ _ _ Hres Hok)
    as [[-> ->]|(Hsd & Hs & Hd & st & p & Hloop & Hdist & Hp & Eres)].
  { exists (mkResult [destination] (Some 0) (Some 0) true
              "Source and destination are the same"), 0, 0.
    split_and!; try done. unfold dijkstraWithBattery. by rewrite Z.eqb_refl. }
  destruct Hcond as [Hnone|Hsame]; cycle 1.
  { exists res, (map_at (distances st) destination),
      (map_at (distances st) destination).
    split_and!; try (by subst res); try lia.
    rewrite <- Hres. by apply solver_same_budget. }
  (* the run with budget B reports the weight of a route *)
  assert (2 * mileage * B + maxWeight ≤ INT_MAX) as HnoB by nia.
  pose proof (settled_loopEnd g source B mileage maxWeight
                Hr HB HnoB Hw Hwf Hs fuel destination st Hloop) as Hset.
  destruct (buildPath_chain _ _ _ _ _ Hp) as (chain & _ & _ & Hhead & Hstep & Hlast).
  assert (destination ≠ -1) as Hd1 by (intros ->; done).
  destruct (chain_route g source B mileage st Hm1 Hset chain destination
              (Hhead Hd1) Hd (or_intror Hdist) Hstep Hlast)
    as (steps & Hroute & Hsum).
  assert (map_at (distances st) destination < INT_MAX) as Hfin.
  { destruct Hset as (K0 & _). specialize (K0 destination). lia. }
  (* the run with budget B' *)
  assert (0 ≤ B') as HB' by lia.
  unfold budgetRefusals in Hnone. unfold dijkstraWithBattery.
  destruct (Z.eqb_spec source destination) as [|_]; [done|].
  destruct (endpoints_checked g source destination)
    as [(_ & _ & ->)|([?|?] & _)]; [|done..].
  rewrite (nodeCount_nonzero g source Hs).
  destruct (initState_Return g source) as (h & _ & Hinv0 & _ & Hinit).
  rewrite Hinit in Hnone |- *. cbn [mbind outcome_bind].
  match type of Hinit with _ = Return ?x => set (st0 := x) in * end.
  pose proof (settled_init g source B' mileage HB' Hs st0 Hinit) as Hset0.
  pose proof (closing_order_init g source B' mileage HB' Hs st0 Hinit) as Hco0.
  destruct (mainLoop_terminates g source B' mileage maxWeight
              Hr HB' Hno Hw Hwf Hs destination fuel st0 [] Hset0 Hco0 Hinv0)
    as (st' & L & Hloop' & Hset' & Hco & Hinv' & _).
  { unfold nodeIds. rewrite length_fmap. simpl. lia. }
  destruct (mainLoop_relaxes g source B' mileage maxWeight
              Hr HB' Hno Hw Hwf Hs destination fuel st0 st' Hset0)
    as (_ & _ & Hend & Hrel); try done.
  { intros x Hx. destruct Hco0 as (_ & Hnone0 & _).
    by apply Hnone0, elem_of_nil in Hx. }
  rewrite Hloop'. cbn [mbind outcome_bind].
  pose proof Hset' as (_ & (Hs0 & _) & _).
  assert (closed g source st' destination) as Hcd.
  { destruct Hend as [He|?]; [|done].
    split_and!; [done| |by apply isEmpty_priorityOf]. right.
    assert (map_at (distances st') destination < INT_MAX); [|lia].
    apply (route_reaches g source B' mileage maxWeight destination st'
             Hw Hwf Hset' Hinv' He Hrel steps source 0 Hroute); [|lia|lia].
    split_and!; [done|by left|by apply isEmpty_priorityOf]. }
  assert (map_at (distances st') destination ≤ map_at (distances st) destination)
    as Hle.
  { rewrite Hsum, <- (Z.add_0_l (sumZ steps.*2)).
    apply (route_lower_bound g source B' mileage maxWeight Hw Hwf destination
             st' Hset' Hcd Hrel steps source 0 Hroute Hs).
    pose proof Hset' as (_ & _ & _ & K2 & K3 & _).
    destruct (priorityOf (minHeap st') source) as [k|] eqn:Hq.
    - left. destruct (K2 source k Hq) as (_ & _ & ->).
      specialize (K3 destination source _ Hcd Hq). lia.
    - right. split; [|lia]. split_and!; [done|by left|done]. }
  destruct (Z.eqb_spec (map_at (distances st') destination) INT_MAX) as [|_];
    [lia|].
  assert (destination ∈ L) as HdL.
  { destruct Hco as (_ & Hin & _). by apply Hin. }
  apply list_elem_of_lookup in HdL as [i Hi].
  assert (length L ≤ length (nodeIds g))%nat as Hlen
    by (eapply closing_order_length; eauto).
  apply lookup_lt_Some in Hi as Hi'.
  edestruct (buildPath_terminates g source B' mileage st' L Hm1 Hset' Hco
               i destination [] fuel Hi) as [p' ->].
  { unfold nodeIds in Hlen. rewrite length_fmap in Hlen. lia. }
  cbn [mbind outcome_bind]. subst res. simpl. eauto 10.
Qed.

Lemma budget_increase_improves_witness :
  0 < 10 ∧ 0 ≤ 2 ≤ 4 ∧ 2 * 10 * 4 + 10 ≤ INT_MAX ∧
  (∀ u v w, (v, w) ∈ Graph.getNeighbors detour u → 0 ≤ w ≤ 10) ∧
  (-1 ∉ nodeIds detour) ∧ neighbors_are_nodes detour ∧
  (length (Graph.nodes detour) < 6)%nat ∧
  budgetRefusals 6 detour 1 5 4 10 = [] ∧
  dijkstraWithBattery 6 detour 1 5 2 10 =
    Return (mkResult [1; 4; 5] (Some 20) (Some 2) true "Path found successfully") ∧
  dijkstraWithBattery 6 detour 1 5 4 10 =
    Return (mkResult [1; 2; 3; 4; 5] (Some 13) (Some 4) true
              "Path found successfully") ∧
  ∃ res' dist dist',
    dijkstraWithBattery 6 detour 1 5 4 10 = Return res' ∧
    success res' = true ∧
    Some 20 = Some dist ∧ totalDistance res' = Some dist' ∧ dist' ≤ dist.
Proof.
  assert (2 * 10 * 4 + 10 ≤ INT_MAX) as Hno by (unfold INT_MAX; lia).
  assert (∀ u v w, (v, w) ∈ Graph.getNeighbors detour u → 0 ≤ w ≤ 10) as Hw.
  { apply weights_bounded. apply (bool_decide_unpack _). vm_compute. exact I. }
  assert (-1 ∉ nodeIds detour) as Hm1.
  { vm_compute. intros H.
    repeat (apply elem_of_cons in H as [H|H]; [discriminate H|]).
    by apply elem_of_nil in H. }
  assert (neighbors_are_nodes detour) as Hwf.
  { unfold detour. repeat apply neighbors_are_nodes_addEdge.
    apply neighbors_are_nodes_new. }
  assert (length (Graph.nodes detour) < 6)%nat as Hlen by (vm_compute; lia).
  assert (budgetRefusals 6 detour 1 5 4 10 = []) as Href
    by (vm_compute; reflexivity).
  assert (dijkstraWithBattery 6 detour 1 5 2 10 =
    Return (mkResult [1; 4; 5] (Some 20) (Some 2) true "Path found successfully"))
    as Hr by (vm_compute; reflexivity).
  assert (dijkstraWithBattery 6 detour 1 5 4 10 =
    Return (mkResult [1; 2; 3; 4; 5] (Some 13) (Some 4) true
              "Path found successfully")) as Hr' by (vm_compute; reflexivity).
  split; [lia|]. split; [lia|]. split; [exact Hno|]. split; [exact Hw|].
  split; [exact Hm1|]. split; [exact Hwf|]. split; [exact Hlen|].
  split; [exact Href|]. split; [exact Hr|]. split; [exact Hr'|].
  exact (budget_increase_improves 6 detour 1 5 10 10 2 4 _ ltac:(lia) ltac:(lia)
           Hno Hw Hm1 Hwf Hlen (or_introl Href) Hr eq_refl).
Defined.

(** ** A rate for which the division is not defined *)

(** With the rate 0 the first relaxation divides by zero: on [line3] the
    run from 1 to 3 has no defined outcome, whatever the budget. *)
Example rate_zero_undefined (fuel : nat) (initialBattery : Z) :
  dijkstraWithBattery (S fuel) line3 1 3 initialBattery 0 = Undefined.
Proof. reflexivity. Qed.
